(** * Broken-link crawler: a shallow embedding of [crawler.py] and
      [crawler_selenium.py]

    The two scripts crawl a site from a seed URL with a pool of worker
    threads that share a [visited] set and a [broken_links] set.  Every block
    the scripts run under a lock is one atomic action here; a task is a finite
    tree of such actions ([prog]), a pool of tasks is run by an arbitrary
    schedule ([Pool.step]), and everything outside the repository (the HTTP
    client, the browser driver, the HTML parser, [urllib.parse]) is a
    parameter whose answers are recorded in the trace.

    Strings are byte strings; [lower] folds the ASCII letters only. *)

From Stdlib Require Import ZArith List Ascii String Lia.
From Stdlib Require QArith.
From stdpp Require Import base tactics option list strings gmap sets pretty.

Abbreviation Q := QArith_base.Q.
Abbreviation Qmake := QArith_base.Qmake.
Abbreviation inject_Z := QArith_base.inject_Z.

(* ===================================================================== *)
(** ** Python string operations used by the scripts *)
(* ===================================================================== *)

Module PyStr.

(** [c.lower()] on one ASCII character. *)
Definition lower_ascii (c : ascii) : ascii :=
  let n := nat_of_ascii c in
  if (65 <=? n)%nat && (n <=? 90)%nat then ascii_of_nat (n + 32) else c.

(** [s.lower()] *)
Fixpoint lower (s : string) : string :=
  match s with
  | EmptyString => EmptyString
  | String c s' => String (lower_ascii c) (lower s')
  end.

(** [s.startswith(p)] *)
Definition startswith (s p : string) : bool := String.prefix p s.

(** [d in s] on strings: [d] occurs in [s] as a contiguous block. *)
Fixpoint contains (d s : string) : bool :=
  String.prefix d s ||
  match s with
  | EmptyString => false
  | String _ s' => contains d s'
  end.

(** Python truthiness of a string: the empty string is falsy. *)
Definition truthy (s : string) : bool :=
  match s with EmptyString => false | String _ _ => true end.

(** What [d in s] means. *)
Definition occurs_in (d s : string) : Prop :=
  ∃ pre post : string, s = pre +:+ d +:+ post.

End PyStr.

(* ===================================================================== *)
(** ** Exceptions and results *)
(* ===================================================================== *)

(** The exception classes the scripts distinguish in their [except]
    clauses.  [ExTimeout], [ExHTTPError] and [ExRequest] are
    [requests.exceptions.Timeout], [.HTTPError] and any other
    [.RequestException]; [ExSeleniumTimeout] and [ExWebDriver] are selenium's
    [TimeoutException] and any other [WebDriverException]. *)
Inductive exn_class :=
  | ExTimeout
  | ExHTTPError
  | ExRequest
  | ExSeleniumTimeout
  | ExWebDriver
  | ExValueError
  | ExAttributeError
  | ExOther.

(** An exception with its [str(e)]. *)
Record exn := MkExn { exn_class_of : exn_class; exn_str : string }.

(** [isinstance(e, requests.exceptions.Timeout)] *)
Definition is_requests_timeout (e : exn) : bool :=
  match exn_class_of e with ExTimeout => true | _ => false end.

(** [isinstance(e, requests.exceptions.RequestException)] *)
Definition is_request_exception (e : exn) : bool :=
  match exn_class_of e with
  | ExTimeout | ExHTTPError | ExRequest => true
  | _ => false
  end.

(** [isinstance(e, selenium TimeoutException)] *)
Definition is_selenium_timeout (e : exn) : bool :=
  match exn_class_of e with ExSeleniumTimeout => true | _ => false end.

(** [isinstance(e, WebDriverException)] *)
Definition is_webdriver_exception (e : exn) : bool :=
  match exn_class_of e with
  | ExSeleniumTimeout | ExWebDriver => true
  | _ => false
  end.

(** A call either returns or raises. *)
Inductive result (A : Type) :=
  | Ok (a : A)
  | Raise (e : exn).
Arguments Ok {A} a.
Arguments Raise {A} e.

(* ===================================================================== *)
(** ** Data of the crawl *)
(* ===================================================================== *)

(** The fields of a [requests.Response] the scripts and [raise_for_status]
    read. *)
Record response := MkResponse {
  status_code : Z;
  reason : string;
  response_url : string;
  content : string
}.

(** What [urlparse] returns, as far as the scripts look at it. *)
Record parsed_url := MkParsed { scheme : string; netloc : string }.

(** One call of [crawl_url]: its [url], [origin_url] and [current_depth]
    arguments. *)
Record task := MkTask {
  task_url : string;
  origin_url : option string;
  current_depth : Z
}.

(** A sleep: a fixed number of seconds, or [random.uniform(lo, hi)]. *)
Inductive delay :=
  | Seconds (s : Q)
  | Uniform (lo hi : Q).

(** An [<a>] element of the rendered page: what
    [link.get_attribute("href")] gives ([None], a string, or an exception). *)
Record element := MkElement { get_attribute_href : result (option string) }.

(* ===================================================================== *)
(** ** Tasks as trees of atomic actions *)
(* ===================================================================== *)

(** Actions that return nothing.  [RecordBroken origin detail] is the block
    under [broken_links_lock]: [broken_links.add((origin, detail))] followed
    by [write_broken_link_to_file(origin, detail)].  [Submit t] is
    [executor.submit(crawl_url, ...)]; [WaitAll] is
    [concurrent.futures.wait(futures)] together with the executor's exit. *)
Inductive cmd :=
  | Sleep (d : delay)
  | Print (s : string)
  | RecordBroken (origin detail : string)
  | Submit (t : task)
  | WaitAll
  | DriverQuit.

(** The two blocks under [visited_lock].  [TryClaim u] is
    [if u in visited: return] / [visited.add(u)] and answers whether [u] was
    added; [IsVisited u] is the test [link_url not in visited] made before a
    submit and answers whether [u] is in the set.  The submit that follows
    the test under the same lock only queues the call, which no other
    thread can observe before it starts, so it is an action of its own. *)
Inductive query :=
  | TryClaim (u : string)
  | IsVisited (u : string).

(** A task: what it does next, and how it goes on from the answer.
    [HttpGet] is [session.get(url, timeout=INITIAL_TIMEOUT, ...)];
    [CreateDriver] is [create_driver()]; [DriverGet] is [driver.get(url)]
    followed by the [WebDriverWait] for the body; [FindLinks] is
    [driver.find_elements(By.TAG_NAME, "a")]. *)
Inductive prog (A : Type) : Type :=
  | Ret (a : A)
  | Do (c : cmd) (k : prog A)
  | Ask (q : query) (k : bool → prog A)
  | HttpGet (url : string) (k : result response → prog A)
  | CreateDriver (k : result unit → prog A)
  | DriverGet (url : string) (k : result unit → prog A)
  | FindLinks (k : result (list element) → prog A).
Arguments Ret {A} a.
Arguments Do {A} c k.
Arguments Ask {A} q k.
Arguments HttpGet {A} url k.
Arguments CreateDriver {A} k.
Arguments DriverGet {A} url k.
Arguments FindLinks {A} k.

Fixpoint bind {A B : Type} (p : prog A) (f : A → prog B) : prog B :=
  match p with
  | Ret a => f a
  | Do c k => Do c (bind k f)
  | Ask q k => Ask q (λ b, bind (k b) f)
  | HttpGet u k => HttpGet u (λ o, bind (k o) f)
  | CreateDriver k => CreateDriver (λ o, bind (k o) f)
  | DriverGet u k => DriverGet u (λ o, bind (k o) f)
  | FindLinks k => FindLinks (λ o, bind (k o) f)
  end.

(** What a task did, with the answer it got. *)
Inductive event :=
  | EvDo (c : cmd)
  | EvAsk (q : query) (b : bool)
  | EvHttpGet (url : string) (o : result response)
  | EvCreateDriver (o : result unit)
  | EvDriverGet (url : string) (o : result unit)
  | EvFindLinks (o : result (list element)).

(** [runs p tr a]: with the answers written in [tr], task [p] performs
    exactly the actions of [tr], in that order, and returns [a]. *)
Inductive runs {A : Type} : prog A → list event → A → Prop :=
  | runs_Ret a : runs (Ret a) [] a
  | runs_Do c k tr a : runs k tr a → runs (Do c k) (EvDo c :: tr) a
  | runs_Ask q k b tr a : runs (k b) tr a → runs (Ask q k) (EvAsk q b :: tr) a
  | runs_HttpGet u k o tr a :
      runs (k o) tr a → runs (HttpGet u k) (EvHttpGet u o :: tr) a
  | runs_CreateDriver k o tr a :
      runs (k o) tr a → runs (CreateDriver k) (EvCreateDriver o :: tr) a
  | runs_DriverGet u k o tr a :
      runs (k o) tr a → runs (DriverGet u k) (EvDriverGet u o :: tr) a
  | runs_FindLinks k o tr a :
      runs (k o) tr a → runs (FindLinks k) (EvFindLinks o :: tr) a.

(** The broken-link records of a trace, in the order they were made. *)
Definition records (tr : list event) : list (string * string) :=
  omap (λ e, match e with
             | EvDo (RecordBroken o d) => Some (o, d)
             | _ => None
             end) tr.

(** The tasks a trace submitted to the executor. *)
Definition submitted (tr : list event) : list task :=
  omap (λ e, match e with EvDo (Submit t) => Some t | _ => None end) tr.

(** The URLs a trace tried to claim in the visited set. *)
Definition claim_attempts (tr : list event) : list string :=
  omap (λ e, match e with EvAsk (TryClaim u) _ => Some u | _ => None end) tr.

(** The page loads of a trace: the URLs given to [session.get] or
    [driver.get]. *)
Definition fetches (tr : list event) : list string :=
  omap (λ e, match e with
             | EvHttpGet u _ | EvDriverGet u _ => Some u
             | _ => None
             end) tr.

(** The answer to the last [session.get] of a trace. *)
Definition last_get (tr : list event) : option (result response) :=
  last (omap (λ e, match e with EvHttpGet _ o => Some o | _ => None end) tr).

(** The back-off sleeps of a trace (the fixed ones), in seconds. *)
Definition backoffs (tr : list event) : list Q :=
  omap (λ e, match e with EvDo (Sleep (Seconds s)) => Some s | _ => None end) tr.

(* ===================================================================== *)
(** ** crawler.py *)
(* ===================================================================== *)

Module Http.

(** Configuration constants of [crawler.py]. *)
Definition MAX_RETRIES : Z := 3.
Definition MIN_DELAY : Q := inject_Z 1.
Definition MAX_DELAY : Q := inject_Z 3.
Definition MAX_WORKERS : Z := 5.

(** [response.raise_for_status()] of the requests library: an [HTTPError]
    for a status in 400..599, nothing otherwise. *)
Definition raise_for_status (r : response) : option exn :=
  if (400 <=? status_code r)%Z && (status_code r <? 500)%Z then
    Some (MkExn ExHTTPError
            (pretty (status_code r) +:+ " Client Error: " +:+ reason r
             +:+ " for url: " +:+ response_url r))
  else if (500 <=? status_code r)%Z && (status_code r <? 600)%Z then
    Some (MkExn ExHTTPError
            (pretty (status_code r) +:+ " Server Error: " +:+ reason r
             +:+ " for url: " +:+ response_url r))
  else None.

(** [is_mailto_link] *)
Definition is_mailto_link (url : string) : bool :=
  PyStr.startswith (PyStr.lower url) "mailto:".

(** [is_tel_link] *)
Definition is_tel_link (url : string) : bool :=
  PyStr.startswith (PyStr.lower url) "tel:".

(** The value of [origin_url or url]: [None] and the empty string are
    falsy. *)
Definition origin_or (origin : option string) (url : string) : string :=
  match origin with
  | Some o => if PyStr.truthy o then o else url
  | None => url
  end.

Section WithLibraries.

(** [urllib.parse.urlparse] and [urljoin] (either may raise
    [ValueError]), and BeautifulSoup's
    [soup.find_all("a", href=True)] followed by [link.get("href")]. *)
Context (urlparse : string → result parsed_url).
Context (urljoin : string → string → result string).
Context (find_all_a_href : string → result (list string)).

(** [is_valid_url] *)
Definition is_valid_url (url : string) : bool :=
  match urlparse url with
  | Ok result => PyStr.truthy (scheme result) && PyStr.truthy (netloc result)
  | Raise _ => false
  end.

(** [is_target_domain] *)
Definition is_target_domain (url target_domain : string) : bool :=
  match urlparse url with
  | Ok parsed => PyStr.contains target_domain (netloc parsed)
  | Raise _ => false
  end.

(** The body of [for attempt in range(retries)], from iteration
    [attempt] on, with [remaining] iterations left.  Falling out of the
    loop returns [None]. *)
Fixpoint fetch_attempts (url : string) (retries attempt : Z)
    (remaining : nat) : prog (result (option response)) :=
  match remaining with
  | O => Ret (Ok None)
  | S remaining' =>
    Do (Sleep (Uniform MIN_DELAY MAX_DELAY)) $
    HttpGet url (λ got,
      let outcome :=
        match got with
        | Ok response =>
          match raise_for_status response with
          | Some e => Raise e
          | None => Ok response
          end
        | Raise e => Raise e
        end in
      match outcome with
      | Ok response => Ret (Ok (Some response))
      | Raise e =>
        if is_requests_timeout e then
          if (attempt <? retries - 1)%Z then
            Do (Print ("Timeout for " +:+ url +:+ ", retrying in "
                       +:+ pretty (2 ^ attempt)%Z
                       +:+ " seconds... (Attempt "
                       +:+ pretty (attempt + 1)%Z +:+ "/"
                       +:+ pretty retries +:+ ")")) $
            Do (Sleep (Seconds (inject_Z (2 ^ attempt)))) $
            fetch_attempts url retries (attempt + 1) remaining'
          else Ret (Raise e)
        else if is_request_exception e then
          if (attempt <? retries - 1)%Z then
            Do (Print ("Error for " +:+ url +:+ ": " +:+ exn_str e
                       +:+ ", retrying in " +:+ pretty (2 ^ attempt)%Z
                       +:+ " seconds... (Attempt "
                       +:+ pretty (attempt + 1)%Z +:+ "/"
                       +:+ pretty retries +:+ ")")) $
            Do (Sleep (Seconds (inject_Z (2 ^ attempt)))) $
            fetch_attempts url retries (attempt + 1) remaining'
          else Ret (Raise e)
        else Ret (Raise e)
      end)
  end.

(** [fetch_url_with_retry(url, retries)] *)
Definition fetch_url_with_retry (url : string) (retries : Z)
    : prog (result (option response)) :=
  fetch_attempts url retries 0 (Z.to_nat retries).

(** The [for link in soup.find_all("a", href=True)] loop of
    [crawl_url]; [links_to_crawl] is the list built so far.  A
    [ValueError] of [urljoin] leaves the loop. *)
Fixpoint scan_links (url : string) (hrefs : list string)
    (links_to_crawl : list (string * string))
    : prog (result (list (string * string))) :=
  match hrefs with
  | [] => Ret (Ok links_to_crawl)
  | href :: rest =>
    if is_mailto_link href then scan_links url rest links_to_crawl
    else if is_tel_link href then scan_links url rest links_to_crawl
    else
      match urljoin url href with
      | Raise e => Ret (Raise e)
      | Ok absolute_url =>
        if is_valid_url absolute_url then
          scan_links url rest (links_to_crawl ++ [(absolute_url, url)])
        else
          Do (RecordBroken url ("Invalid URL: " +:+ absolute_url)) $
          Do (Print ("Invalid URL: " +:+ absolute_url)) $
          scan_links url rest links_to_crawl
      end
  end.

(** The [for link_url, origin in links_to_crawl] loop inside the
    executor. *)
Fixpoint submit_links (current_depth : Z)
    (links_to_crawl : list (string * string)) : prog unit :=
  match links_to_crawl with
  | [] => Ret tt
  | (link_url, origin) :: rest =>
    Ask (IsVisited link_url) (λ seen,
      if seen then submit_links current_depth rest
      else
        Do (Submit (MkTask link_url (Some origin) (current_depth + 1))) $
        submit_links current_depth rest)
  end.

(** The [try] block of [crawl_url] from the value of
    [fetch_url_with_retry(url)] on. *)
Definition on_fetched (max_workers : Z) (t : task)
    (fetched : result (option response)) : prog (result unit) :=
  let url := task_url t in
  match fetched with
  | Raise e => Ret (Raise e)
  | Ok None =>
    Ret (Raise (MkExn ExAttributeError
                  "'NoneType' object has no attribute 'status_code'"))
  | Ok (Some response) =>
    if (status_code response =? 200)%Z then
      match find_all_a_href (content response) with
      | Raise e => Ret (Raise e)
      | Ok hrefs =>
        bind (scan_links url hrefs []) (λ scanned,
          match scanned with
          | Raise e => Ret (Raise e)
          | Ok links_to_crawl =>
            if (max_workers <=? 0)%Z then
              Ret (Raise (MkExn ExValueError
                            "max_workers must be greater than 0"))
            else
              bind (submit_links (current_depth t) links_to_crawl) (λ _,
                Do WaitAll $ Ret (Ok tt))
          end)
      end
    else if (400 <=? status_code response)%Z then
      Do (RecordBroken (origin_or (origin_url t) url)
            (url +:+ " - Status: " +:+ pretty (status_code response))) $
      Do (Print ("Broken link: " +:+ url +:+ " - Status: "
                 +:+ pretty (status_code response))) $
      Ret (Ok tt)
    else Ret (Ok tt)
  end.

(** The two [except] clauses of [crawl_url]. *)
Definition on_exception (t : task) (e : exn) : prog unit :=
  let url := task_url t in
  Do (RecordBroken (origin_or (origin_url t) url)
        (url +:+ " - Error: " +:+ exn_str e)) $
  Do (Print ((if is_request_exception e then "Error crawling "
              else "Error processing ") +:+ url +:+ ": " +:+ exn_str e)) $
  Ret tt.

(** [crawl_url(url, visited, broken_links, target_domain, origin_url,
    max_workers, max_depth, current_depth)]; [visited] and
    [broken_links] are the shared sets the actions work on. *)
Definition crawl_url (target_domain : string) (max_workers max_depth : Z)
    (t : task) : prog unit :=
  let url := task_url t in
  if (max_depth <? current_depth t)%Z then Ret tt
  else
    Ask (TryClaim url) (λ claimed,
      if negb claimed then Ret tt
      else if negb (is_target_domain url target_domain) then Ret tt
      else
        Do (Print ("Crawling: " +:+ url)) $
        bind (bind (fetch_url_with_retry url MAX_RETRIES)
                   (on_fetched max_workers t))
             (λ outcome,
                match outcome with
                | Ok _ => Ret tt
                | Raise e => on_exception t e
                end)).

End WithLibraries.

End Http.

(* ===================================================================== *)
(** ** crawler_selenium.py *)
(* ===================================================================== *)

Module Selenium.

(** [is_valid_url], [is_mailto_link], the expression [origin_url or url]
    and the submit loop are written in this script exactly as in
    [crawler.py]; there is no [is_tel_link] here. *)

Section WithLibraries.

Context (urlparse : string → result parsed_url).
Context (urljoin : string → string → result string).

(** [is_rbo_domain] *)
Definition is_rbo_domain (url : string) : bool :=
  match urlparse url with
  | Ok parsed => PyStr.contains "rbo.org.uk" (netloc parsed)
  | Raise _ => false
  end.

(** The [for link in links] loop: each link is handled inside its own
    [try], whose [except] prints and goes on with the next link. *)
Fixpoint scan_links (url : string) (links : list element)
    (links_to_crawl : list (string * string))
    : prog (list (string * string)) :=
  match links with
  | [] => Ret links_to_crawl
  | link :: rest =>
    match get_attribute_href link with
    | Raise e =>
      Do (Print ("Error processing link: " +:+ exn_str e)) $
      scan_links url rest links_to_crawl
    | Ok None => scan_links url rest links_to_crawl
    | Ok (Some href) =>
      if negb (PyStr.truthy href) then scan_links url rest links_to_crawl
      else if Http.is_mailto_link href then
        scan_links url rest links_to_crawl
      else
        match urljoin url href with
        | Raise e =>
          Do (Print ("Error processing link: " +:+ exn_str e)) $
          scan_links url rest links_to_crawl
        | Ok absolute_url =>
          if Http.is_valid_url urlparse absolute_url then
            scan_links url rest (links_to_crawl ++ [(absolute_url, url)])
          else
            Do (RecordBroken url ("Invalid URL: " +:+ absolute_url)) $
            Do (Print ("Invalid URL: " +:+ absolute_url)) $
            scan_links url rest links_to_crawl
        end
    end
  end.

(** The [try] block of [crawl_url]; the boolean tells whether [driver]
    was assigned. *)
Definition try_block (max_workers : Z) (t : task)
    : prog (bool * result unit) :=
  let url := task_url t in
  CreateDriver (λ created,
    match created with
    | Raise e => Ret (false, Raise e)
    | Ok _ =>
      DriverGet url (λ loaded,
        match loaded with
        | Raise e => Ret (true, Raise e)
        | Ok _ =>
          Do (Sleep (Seconds (inject_Z 2))) $
          FindLinks (λ found,
            match found with
            | Raise e => Ret (true, Raise e)
            | Ok links =>
              bind (scan_links url links []) (λ links_to_crawl,
                if (max_workers <=? 0)%Z then
                  Ret (true, Raise (MkExn ExValueError
                                "max_workers must be greater than 0"))
                else
                  bind (Http.submit_links (current_depth t) links_to_crawl)
                    (λ _, Do WaitAll $ Ret (true, Ok tt)))
            end)
      end)
    end).

(** The three [except] clauses. *)
Definition on_exception (t : task) (e : exn) : prog unit :=
  let url := task_url t in
  if is_selenium_timeout e then
    Do (RecordBroken (Http.origin_or (origin_url t) url)
          (url +:+ " - Error: Page load timeout")) $
    Do (Print ("Timeout loading " +:+ url)) $
    Ret tt
  else
    Do (RecordBroken (Http.origin_or (origin_url t) url)
          (url +:+ " - Error: " +:+ exn_str e)) $
    Do (Print ((if is_webdriver_exception e then "Error crawling "
                else "Error processing ") +:+ url +:+ ": " +:+ exn_str e)) $
    Ret tt.

(** [crawl_url(url, visited, broken_links, origin_url, max_workers,
    max_depth, current_depth)] *)
Definition crawl_url (max_workers max_depth : Z) (t : task) : prog unit :=
  let url := task_url t in
  if (max_depth <? current_depth t)%Z then Ret tt
  else
    Ask (TryClaim url) (λ claimed,
      if negb claimed then Ret tt
      else if negb (is_rbo_domain url) then Ret tt
      else
        Do (Print ("Crawling: " +:+ url)) $
        bind (try_block max_workers t) (λ '(driver, outcome),
          bind (match outcome with
                | Ok _ => Ret tt
                | Raise e => on_exception t e
                end) (λ _,
            let finally_ k := if driver : bool then Do DriverQuit k else k in
            finally_ (Do (Sleep (Seconds (Qmake 1 2))) $ Ret tt)))).

End WithLibraries.

End Selenium.

(* ===================================================================== *)
(** ** Running one task against given answers *)
(* ===================================================================== *)

(** The answers of everything a task talks to; the number is the position
    of the action in the run. *)
Record oracle := MkOracle {
  ask : nat → query → bool;
  session_get : nat → string → result response;
  create_driver : nat → result unit;
  driver_get : nat → string → result unit;
  find_elements : nat → result (list element)
}.

(** [exec o n p]: the trace and the value of [p] when its actions, numbered
    from [n], are answered by [o]. *)
Fixpoint exec {A : Type} (o : oracle) (n : nat) (p : prog A)
    : list event * A :=
  match p with
  | Ret a => ([], a)
  | Do c k => let '(tr, a) := exec o (S n) k in (EvDo c :: tr, a)
  | Ask q k =>
    let b := ask o n q in
    let '(tr, a) := exec o (S n) (k b) in (EvAsk q b :: tr, a)
  | HttpGet u k =>
    let r := session_get o n u in
    let '(tr, a) := exec o (S n) (k r) in (EvHttpGet u r :: tr, a)
  | CreateDriver k =>
    let r := create_driver o n in
    let '(tr, a) := exec o (S n) (k r) in (EvCreateDriver r :: tr, a)
  | DriverGet u k =>
    let r := driver_get o n u in
    let '(tr, a) := exec o (S n) (k r) in (EvDriverGet u r :: tr, a)
  | FindLinks k =>
    let r := find_elements o n in
    let '(tr, a) := exec o (S n) (k r) in (EvFindLinks r :: tr, a)
  end.

(* ===================================================================== *)
(** ** The pool of tasks and the shared sets *)
(* ===================================================================== *)

Module Pool.

Inductive thread_state :=
  | Queued
  | Running (p : prog unit)
  | Finished.

(** A call of [crawl_url]: who submitted it ([None] for the call made by
    [main]), its arguments, and how far it is. *)
Record thread := MkThread {
  parent : option nat;
  thread_task : task;
  state : thread_state
}.

(** [visited] and [broken_links] are the two sets every call shares;
    [output_file] holds the lines appended to [OUTPUT_FILE], [console]
    what was printed; [log] is every action performed so far, with the
    thread that performed it, oldest first. *)
Record world := MkWorld {
  visited : gset string;
  broken_links : gset (string * string);
  output_file : list string;
  console : list string;
  threads : list thread;
  log : list (nat * event)
}.

Definition is_running (s : thread_state) : bool :=
  match s with Running _ => true | _ => false end.
Definition is_queued (s : thread_state) : bool :=
  match s with Queued => true | _ => false end.
Definition is_finished (s : thread_state) : bool :=
  match s with Finished => true | _ => false end.

Definition child_of (i : nat) (th : thread) : bool :=
  bool_decide (parent th = Some i).

(** The line [write_broken_link_to_file] writes and prints. *)
Definition broken_link_line (origin broken_link : string) : string :=
  "{" +:+ origin +:+ " >> " +:+ broken_link +:+ "}".

Definition set_state (i : nat) (s : thread_state) (w : world) : world :=
  MkWorld (visited w) (broken_links w) (output_file w) (console w)
    (alter (λ th, MkThread (parent th) (thread_task th) s) i (threads w))
    (log w).

Definition add_log (i : nat) (e : event) (w : world) : world :=
  MkWorld (visited w) (broken_links w) (output_file w) (console w)
    (threads w) (log w ++ [(i, e)]).

(** The effect of an action of thread [i] on the shared state. *)
Definition exec_cmd (i : nat) (c : cmd) (w : world) : world :=
  match c with
  | Sleep _ | WaitAll | DriverQuit => w
  | Print s =>
    MkWorld (visited w) (broken_links w) (output_file w) (console w ++ [s])
      (threads w) (log w)
  | RecordBroken origin detail =>
    MkWorld (visited w) ({[ (origin, detail) ]} ∪ broken_links w)
      (output_file w ++ [broken_link_line origin detail])
      (console w ++ [broken_link_line origin detail])
      (threads w) (log w)
  | Submit t =>
    MkWorld (visited w) (broken_links w) (output_file w) (console w)
      (threads w ++ [MkThread (Some i) t Queued]) (log w)
  end.

Definition answer_query (q : query) (w : world) : bool :=
  match q with
  | TryClaim u => negb (bool_decide (u ∈ visited w))
  | IsVisited u => bool_decide (u ∈ visited w)
  end.

Definition exec_query (q : query) (w : world) : world :=
  match q with
  | TryClaim u =>
    if bool_decide (u ∈ visited w) then w
    else MkWorld ({[ u ]} ∪ visited w) (broken_links w) (output_file w)
           (console w) (threads w) (log w)
  | IsVisited _ => w
  end.

Section Semantics.

(** The network and the browser, the function the executor runs, and
    the width of each executor. *)
Context (env : oracle) (body : task → prog unit) (max_workers : Z).

(** A submitted call starts when its executor has a free worker and
    every call submitted to it earlier has started. *)
Definition can_start (w : world) (j : nat) (th : thread) : bool :=
  match parent th with
  | None => true
  | Some i =>
    (Z.of_nat (length (List.filter
         (λ s, child_of i s && is_running (state s)) (threads w)))
       <? max_workers)%Z
    && forallb (λ s, negb (child_of i s && is_queued (state s)))
         (take j (threads w))
  end.

Definition all_children_finished (w : world) (i : nat) : bool :=
  forallb (λ s, negb (child_of i s) || is_finished (state s)) (threads w).

(** One move of thread [i], if it can move. *)
Definition step (w : world) (i : nat) : option world :=
  match threads w !! i with
  | None => None
  | Some th =>
    match state th with
    | Finished => None
    | Queued =>
      if can_start w i th
      then Some (set_state i (Running (body (thread_task th))) w)
      else None
    | Running p =>
      let now := length (log w) in
      match p with
      | Ret _ => Some (set_state i Finished w)
      | Do c k =>
        if match c with
           | WaitAll => all_children_finished w i
           | _ => true
           end
        then Some (set_state i (Running k)
                     (add_log i (EvDo c) (exec_cmd i c w)))
        else None
      | Ask q k =>
        let b := answer_query q w in
        Some (set_state i (Running (k b))
                (add_log i (EvAsk q b) (exec_query q w)))
      | HttpGet u k =>
        let r := session_get env now u in
        Some (set_state i (Running (k r)) (add_log i (EvHttpGet u r) w))
      | CreateDriver k =>
        let r := create_driver env now in
        Some (set_state i (Running (k r)) (add_log i (EvCreateDriver r) w))
      | DriverGet u k =>
        let r := driver_get env now u in
        Some (set_state i (Running (k r)) (add_log i (EvDriverGet u r) w))
      | FindLinks k =>
        let r := find_elements env now in
        Some (set_state i (Running (k r)) (add_log i (EvFindLinks r) w))
      end
    end
  end.

(** A schedule names the thread that moves next; naming a thread that
    cannot move changes nothing. *)
Fixpoint run (schedule : list nat) (w : world) : world :=
  match schedule with
  | [] => w
  | i :: rest => run rest (default w (step w i))
  end.

(** The state in which [main] makes the first call: both sets empty,
    the output file removed. *)
Definition initial (root : task) : world :=
  MkWorld ∅ ∅ [] [] [MkThread None root Queued] [].

(** Every thread has returned. *)
Definition finished (w : world) : bool :=
  forallb (λ th, is_finished (state th)) (threads w).

End Semantics.

(** The actions of thread [i] in a log. *)
Definition events_of (i : nat) (l : list (nat * event)) : list event :=
  omap (λ '(j, e), if bool_decide (j = i) then Some e else None) l.

(** The threads whose check-and-insert of [u] succeeded, in order. *)
Definition claimers (u : string) (l : list (nat * event)) : list nat :=
  omap (λ '(j, e), match e with
                   | EvAsk (TryClaim v) true =>
                     if bool_decide (v = u) then Some j else None
                   | _ => None
                   end) l.

(** The threads that loaded [u] ([session.get] or [driver.get]), once per
    load, in order. *)
Definition fetchers (u : string) (l : list (nat * event)) : list nat :=
  omap (λ '(j, e), match e with
                   | EvHttpGet v _ | EvDriverGet v _ =>
                     if bool_decide (v = u) then Some j else None
                   | _ => None
                   end) l.

End Pool.

(** [main] of [crawler.py]: the target domain is the netloc of the start
    URL, [max_depth] is 3; [None] when the start URL does not parse (the
    script exits with status 1). *)
Definition http_main (urlparse : string → result parsed_url)
    (urljoin : string → string → result string)
    (find_all_a_href : string → result (list string))
    (env : oracle) (start_url : string) (schedule : list nat)
    : option Pool.world :=
  match urlparse start_url with
  | Raise _ => None
  | Ok parsed_url =>
    let body := Http.crawl_url urlparse urljoin find_all_a_href
                  (netloc parsed_url) Http.MAX_WORKERS 3 in
    Some (Pool.run env body Http.MAX_WORKERS schedule
            (Pool.initial (MkTask start_url None 0)))
  end.

(** [main] of [crawler_selenium.py]: a fixed seed, five workers, depth 3. *)
Definition selenium_main (urlparse : string → result parsed_url)
    (urljoin : string → string → result string)
    (env : oracle) (schedule : list nat) : Pool.world :=
  Pool.run env (Selenium.crawl_url urlparse urljoin 5 3) 5 schedule
    (Pool.initial (MkTask "https://www.rbo.org.uk/" None 0)).

(* ===================================================================== *)
(** ** Vocabulary for traces and for the pool *)
(* ===================================================================== *)

(** What a task may do once it holds the claim on [url]: no further claim,
    and no page load other than of [url]. *)
Definition after_claim (url : string) (e : event) : Prop :=
  match e with
  | EvAsk (TryClaim _) _ => False
  | EvHttpGet u _ | EvDriverGet u _ => u = url
  | _ => True
  end.

(** Events that touch neither the network nor the visited set by a claim. *)
Definition quiet (e : event) : Prop :=
  match e with
  | EvDo _ | EvAsk (IsVisited _) _ => True
  | _ => False
  end.

(** The events of the retry loop: sleeps, prints and loads of [url]. *)
Definition fetch_event (url : string) (e : event) : Prop :=
  match e with
  | EvDo (Sleep _) | EvDo (Print _) => True
  | EvHttpGet u _ => u = url
  | _ => False
  end.

(** The events of the scan of a page: records and prints. *)
Definition report_event (e : event) : Prop :=
  match e with
  | EvDo (RecordBroken _ _) | EvDo (Print _) => True
  | _ => False
  end.

(** [well_claimed t tr]: a trace of the call [t] is empty, or starts with
    the check-and-insert of the call's URL and, only if that succeeded,
    goes on without a second claim and with loads of that URL only. *)
Definition well_claimed (t : task) (tr : list event) : Prop :=
  tr = [] ∨
  ∃ b rest, tr = EvAsk (TryClaim (task_url t)) b :: rest
            ∧ Forall (after_claim (task_url t)) rest
            ∧ (b = false → rest = []).

(** [e] loads the page [u]. *)
Definition is_load (u : string) (e : event) : Prop :=
  match e with
  | EvHttpGet v _ | EvDriverGet v _ => v = u
  | _ => False
  end.

(** How the value of [fetch_url_with_retry] relates to the answer of its
    last [session.get]. *)
Definition fetch_outcome (tr : list event) (res : result (option response))
    : Prop :=
  match res with
  | Ok None => tr = []
  | Ok (Some r) =>
    last_get tr = Some (Ok r) ∧ Http.raise_for_status r = None
  | Raise e =>
    last_get tr = Some (Raise e)
    ∨ ∃ r, last_get tr = Some (Ok r) ∧ Http.raise_for_status r = Some e
  end.

(** A link the crawl follows up: neither [mailto:] nor [tel:]. *)
Definition crawlable (href : string) : bool :=
  negb (Http.is_mailto_link href) && negb (Http.is_tel_link href).

(** The visited-set tests of a trace, with their answers. *)
Definition visited_checks (tr : list event) : list (string * bool) :=
  omap (λ e, match e with
             | EvAsk (IsVisited u) b => Some (u, b)
             | _ => None
             end) tr.

(** The calls submitted for [links_to_crawl] when the visited-set tests
    answer [seen]. *)
Definition dispatched (current_depth : Z)
    (links_to_crawl : list (string * string)) (seen : list bool)
    : list task :=
  omap (λ '((link_url, origin), b),
          if b : bool then None
          else Some (MkTask link_url (Some origin) (current_depth + 1)))
       (zip links_to_crawl seen).

Section PoolInvariant.

Context (body : task → prog unit).

(** The actions thread [i] has performed are the beginning of a run of
    its call, and what it still has to do is the rest of that run. *)
Definition thread_ok (l : list (nat * event)) (i : nat) (th : Pool.thread)
    : Prop :=
  match Pool.state th with
  | Pool.Queued => Pool.events_of i l = []
  | Pool.Running p =>
    ∀ tr u, runs p tr u →
            runs (body (Pool.thread_task th)) (Pool.events_of i l ++ tr) u
  | Pool.Finished => runs (body (Pool.thread_task th)) (Pool.events_of i l) tt
  end.

(** What every step of the pool keeps true: each thread follows its call;
    only existing threads are in the log; the visited set is the set of
    URLs claimed in the log; no URL was claimed twice; and every load in
    the log comes after the claim of its URL by the same thread. *)
Record invariant (w : Pool.world) : Prop := {
  inv_threads :
    ∀ i th, Pool.threads w !! i = Some th → thread_ok (Pool.log w) i th;
  inv_log_ids :
    ∀ i e, (i, e) ∈ Pool.log w → i < length (Pool.threads w);
  inv_claimed_visited :
    ∀ u i, i ∈ Pool.claimers u (Pool.log w) → u ∈ Pool.visited w;
  inv_visited_claimed :
    ∀ u, u ∈ Pool.visited w → ∃ i, i ∈ Pool.claimers u (Pool.log w);
  inv_claim_once :
    ∀ u, length (Pool.claimers u (Pool.log w)) ≤ 1;
  inv_claim_first :
    ∀ u l1 i e l2,
      Pool.log w = l1 ++ (i, e) :: l2 → is_load u e →
      i ∈ Pool.claimers u l1
}.

End PoolInvariant.

(** For every URL the check-and-insert has succeeded at most once. *)
Definition claimed_once (w : Pool.world) : Prop :=
  ∀ u, length (Pool.claimers u (Pool.log w)) ≤ 1.

(** Before a thread loads a URL, its own claim of that URL has succeeded. *)
Definition claim_precedes_load (w : Pool.world) : Prop :=
  ∀ u l1 i e l2,
    Pool.log w = l1 ++ (i, e) :: l2 → is_load u e → i ∈ Pool.claimers u l1.

(** No two threads load the same URL. *)
Definition single_fetcher (w : Pool.world) : Prop :=
  ∀ u i j,
    i ∈ Pool.fetchers u (Pool.log w) → j ∈ Pool.fetchers u (Pool.log w) →
    i = j.

(** The visited set holds exactly the URLs some thread has claimed. *)
Definition visited_are_claimed (w : Pool.world) : Prop :=
  ∀ u, u ∈ Pool.visited w ↔ ∃ i, Pool.claimers u (Pool.log w) = [i].

(** No URL is claimed twice, a URL is loaded only by the thread that
    claimed it and only after the claim, and it is requested at most
    [budget] times (the attempts of that thread's one fetch). *)
Definition deduplicated (budget : nat) (w : Pool.world) : Prop :=
  claimed_once w ∧ visited_are_claimed w ∧ claim_precedes_load w
  ∧ single_fetcher w
  ∧ ∀ u, length (Pool.fetchers u (Pool.log w)) ≤ budget.

(* ===================================================================== *)
(** ** A concrete site for the examples *)
(* ===================================================================== *)

Module Example.

Definition is_alpha (c : ascii) : bool :=
  let n := nat_of_ascii c in
  ((65 <=? n)%nat && (n <=? 90)%nat) || ((97 <=? n)%nat && (n <=? 122)%nat).

Definition is_scheme_char (c : ascii) : bool :=
  let n := nat_of_ascii c in
  is_alpha c || ((48 <=? n)%nat && (n <=? 57)%nat)
  || (n =? 43)%nat || (n =? 45)%nat || (n =? 46)%nat.

Fixpoint all_chars (f : ascii → bool) (s : string) : bool :=
  match s with
  | EmptyString => true
  | String c s' => f c && all_chars f s'
  end.

Fixpoint has_char (x : ascii) (s : string) : bool :=
  match s with
  | EmptyString => false
  | String c s' => bool_decide (c = x) || has_char x s'
  end.

(** [url.partition(":")] when there is a colon. *)
Fixpoint split_colon (s : string) : option (string * string) :=
  match s with
  | EmptyString => None
  | String c s' =>
    if bool_decide (c = ":"%char) then Some (EmptyString, s')
    else match split_colon s' with
         | Some (a, b) => Some (String c a, b)
         | None => None
         end
  end.

(** The netloc: everything up to the first of [/], [?], [#]. *)
Fixpoint take_netloc (s : string) : string :=
  match s with
  | EmptyString => EmptyString
  | String c s' =>
    if has_char c "/?#" then EmptyString else String c (take_netloc s')
  end.

Definition drop2 (s : string) : string :=
  match s with
  | String _ (String _ s') => s'
  | _ => EmptyString
  end.

(** The scheme and netloc [urllib.parse.urlsplit] computes for a URL of
    printable ASCII without control characters: the scheme is what stands
    before the first colon when that is a letter followed by scheme
    characters, the netloc follows [//], and unbalanced brackets in the
    netloc raise [ValueError]. *)
Definition urlparse (url : string) : result parsed_url :=
  let '(scheme, rest) :=
    match split_colon url with
    | Some (String c0 pre, post) =>
      if is_alpha c0 && all_chars is_scheme_char pre
      then (PyStr.lower (String c0 pre), post)
      else (EmptyString, url)
    | _ => (EmptyString, url)
    end in
  if String.prefix "//" rest then
    let netloc := take_netloc (drop2 rest) in
    if xorb (has_char "[" netloc) (has_char "]" netloc)
    then Raise (MkExn ExValueError "Invalid IPv6 URL")
    else Ok (MkParsed scheme netloc)
  else Ok (MkParsed scheme EmptyString).

(** [urllib.parse.urljoin] on the hrefs of the examples: every href below
    carries a scheme other than the one of its page, and urljoin returns
    such a URL unchanged (after parsing both, which may raise). *)
Definition urljoin (base url : string) : result string :=
  if negb (PyStr.truthy base) then Ok url
  else if negb (PyStr.truthy url) then Ok base
  else
    match urlparse base, urlparse url with
    | Raise e, _ | Ok _, Raise e => Raise e
    | Ok _, Ok _ => Ok url
    end.

(** The page bodies of the examples are written as the hrefs of their
    anchors, separated by blanks; this is what [find_all("a", href=True)]
    yields on the HTML they stand for. *)
Definition find_all_a_href (content : string) : result (list string) :=
  Ok (String.words content).

(** A site that answers [session.get(url)] by [pages url]; in a run of one
    task alone every claim succeeds and nothing is visited yet. *)
Definition site (pages : string → result response) : oracle :=
  MkOracle
    (λ _ q, match q with TryClaim _ => true | IsVisited _ => false end)
    (λ _ url, pages url)
    (λ _, Ok tt) (λ _ _, Ok tt) (λ _, Ok []).

(** A browser in which every page shows the anchors [links]. *)
Definition browser (links : list element) : oracle :=
  MkOracle
    (λ _ q, match q with TryClaim _ => true | IsVisited _ => false end)
    (λ _ _, Raise (MkExn ExRequest "no network"))
    (λ _, Ok tt) (λ _ _, Ok tt) (λ _, Ok links).

Definition page (status : Z) (reason url content : string) : result response :=
  Ok (MkResponse status reason url content).

(** [crawl_url] of [crawler.py] as [main] sets it up for the seed
    [https://ex.test/]. *)
Definition crawl_url : task → prog unit :=
  Http.crawl_url urlparse urljoin find_all_a_href "ex.test" Http.MAX_WORKERS 3.

Definition seed : task := MkTask "https://ex.test/" None 0.

(** A seed page with two anchors to the same page. *)
Definition twice_linked (url : string) : result response :=
  if String.eqb url "https://ex.test/"
  then page 200 "OK" url "http://ex.test/a http://ex.test/a"
  else page 200 "OK" url "".

(** The schedule that lets the only thread of a one-page crawl run to its
    end. *)
Definition alone : list nat := replicate 16 0.

(** The seed runs up to its wait, then the two submitted calls take turns,
    then the seed returns. *)
Definition racing : list nat :=
  replicate 12 0 ++ concat (replicate 12 [2; 1]) ++ [0; 0; 0].

End Example.


(* ===================================================================== *)
(** ** Further vocabulary *)
(* ===================================================================== *)

(** The number of rate-limiting sleeps ([random.uniform]) of a trace. *)
Definition rate_limit_sleeps (tr : list event) : nat :=
  length (omap (λ e, match e with
                     | EvDo (Sleep (Uniform lo hi)) => Some (lo, hi)
                     | _ => None
                     end) tr).

(** [t'] is a call that the call [t] may submit: its origin is the URL of
    [t], it is one level deeper, and its URL is syntactically valid. *)
Definition child_of_call (urlparse : string → result parsed_url)
    (t t' : task) : Prop :=
  origin_url t' = Some (task_url t)
  ∧ current_depth t' = (current_depth t + 1)%Z
  ∧ Http.is_valid_url urlparse (task_url t') = true.

(** A pair of [links_to_crawl] as the scans build them for the page [url]. *)
Definition link_of_page (urlparse : string → result parsed_url)
    (url : string) (link : string * string) : Prop :=
  link.2 = url ∧ Http.is_valid_url urlparse link.1 = true.

(** The drivers a trace created and the calls of [driver.quit()]. *)
Definition created_drivers (tr : list event) : list unit :=
  omap (λ e, match e with EvCreateDriver (Ok _) => Some tt | _ => None end) tr.

Definition quit_calls (tr : list event) : list unit :=
  omap (λ e, match e with EvDo DriverQuit => Some tt | _ => None end) tr.

(** The exceptions the browser raised in a trace: in [create_driver()], in
    [driver.get] or its wait, or in [find_elements]. *)
Definition driver_errors (tr : list event) : list exn :=
  omap (λ e, match e with
             | EvCreateDriver (Raise x) | EvDriverGet _ (Raise x)
             | EvFindLinks (Raise x) => Some x
             | _ => None
             end) tr.

(** The lists of anchors [find_elements] returned in a trace. *)
Definition found_links (tr : list event) : list (list element) :=
  omap (λ e, match e with EvFindLinks (Ok l) => Some l | _ => None end) tr.

(** The absolute URL [crawler_selenium.py] gets from an anchor, if any:
    none when [get_attribute] raises or gives no href or an empty one,
    when the href is a [mailto:] link, or when [urljoin] raises. *)
Definition selenium_resolution (urljoin : string → string → result string)
    (url : string) (link : element) : option string :=
  match get_attribute_href link with
  | Ok (Some href) =>
    if PyStr.truthy href && negb (Http.is_mailto_link href) then
      match urljoin url href with
      | Ok absolute_url => Some absolute_url
      | Raise _ => None
      end
    else None
  | _ => None
  end.

(** The events of the submit loop: tests of the visited set and submits. *)
Definition dispatch_event (e : event) : Prop :=
  match e with
  | EvAsk (IsVisited _) _ | EvDo (Submit _) => True
  | _ => False
  end.

(** The actions of a log, oldest first, whoever performed them. *)
Definition actions (l : list (nat * event)) : list event := map snd l.

(** The lines a trace prints: what [print] is given, and the line
    [write_broken_link_to_file] echoes for every record. *)
Definition printed (tr : list event) : list string :=
  omap (λ e, match e with
             | EvDo (Print s) => Some s
             | EvDo (RecordBroken o d) => Some (Pool.broken_link_line o d)
             | _ => None
             end) tr.

(** The URLs whose check-and-insert succeeded, in order. *)
Definition claimed (tr : list event) : list string :=
  omap (λ e, match e with
             | EvAsk (TryClaim u) true => Some u
             | _ => None
             end) tr.

(** Whether a trace has submitted a call to its executor and not waited
    for the executor since; [b] is the answer before the trace. *)
Definition outstanding_from (b : bool) (tr : list event) : bool :=
  foldl (λ b e, match e with
                | EvDo (Submit _) => true
                | EvDo WaitAll => false
                | _ => b
                end) b tr.

Definition outstanding (tr : list event) : bool := outstanding_from false tr.

(** What the action [e] of thread [i] does to the shared state: a command
    has its effect (and the wait for the executor is only performed when
    every call submitted by [i] has returned), a question is answered from
    the visited set, and the network and the browser leave the shared
    state alone. *)
Definition effect (i : nat) (e : event) (w w1 : Pool.world) : Prop :=
  match e with
  | EvDo c =>
    w1 = Pool.exec_cmd i c w
    ∧ (c = WaitAll → Pool.all_children_finished w i = true)
  | EvAsk q b => b = Pool.answer_query q w ∧ w1 = Pool.exec_query q w
  | _ => w1 = w
  end.

(** The threads are a tree under [root]: thread 0 is the call [main]
    makes, every other thread was submitted by an earlier thread, and that
    submit is in the log. *)
Definition tree (root : task) (w : Pool.world) : Prop :=
  ∀ j th, Pool.threads w !! j = Some th →
    match Pool.parent th with
    | None => j = 0 ∧ Pool.thread_task th = root
    | Some i =>
      i < j ∧ EvDo (Submit (Pool.thread_task th))
              ∈ Pool.events_of i (Pool.log w)
    end.

(** A thread that has nothing outstanding has no call that is still
    queued or running. *)
Definition joined (w : Pool.world) : Prop :=
  ∀ i, outstanding (Pool.events_of i (Pool.log w)) = false →
       ∀ j th, Pool.threads w !! j = Some th →
               Pool.parent th = Some i →
               Pool.state th = Pool.Finished.

(** The output file, the set of broken links and the console hold what
    the log says was recorded and printed. *)
Definition sink (w : Pool.world) : Prop :=
  Pool.output_file w
  = map (λ '(o, d), Pool.broken_link_line o d)
      (records (actions (Pool.log w)))
  ∧ Pool.broken_links w = list_to_set (records (actions (Pool.log w)))
  ∧ Pool.console w = printed (actions (Pool.log w)).

(** The visited set holds the URLs claimed in the log, each claimed
    once. *)
Definition registry (w : Pool.world) : Prop :=
  NoDup (claimed (actions (Pool.log w)))
  ∧ Pool.visited w = list_to_set (claimed (actions (Pool.log w))).

(** The threads of a crawl are a tree of in-scope calls: thread 0 is the
    call [main] makes, and every other thread was submitted by an earlier
    thread whose call was within the depth limit and in the domain, for a
    valid URL found on that call's page, one level deeper. *)
Definition family (urlparse : string → result parsed_url)
    (in_domain : string → bool) (max_depth : Z) (root : task)
    (w : Pool.world) : Prop :=
  ∀ j th', Pool.threads w !! j = Some th' →
    match Pool.parent th' with
    | None => j = 0 ∧ Pool.thread_task th' = root
    | Some i =>
      i < j
      ∧ ∃ th, Pool.threads w !! i = Some th
              ∧ child_of_call urlparse (Pool.thread_task th)
                  (Pool.thread_task th')
              ∧ (current_depth (Pool.thread_task th) ≤ max_depth)%Z
              ∧ in_domain (task_url (Pool.thread_task th)) = true
    end.

(** Every page load in the log is the load of its thread's own URL, by a
    call within the depth limit, of a URL in the domain. *)
Definition loads_in_scope (in_domain : string → bool) (max_depth : Z)
    (w : Pool.world) : Prop :=
  ∀ i e u, (i, e) ∈ Pool.log w → is_load u e →
    in_domain u = true
    ∧ ∃ th, Pool.threads w !! i = Some th
            ∧ task_url (Pool.thread_task th) = u
            ∧ (current_depth (Pool.thread_task th) ≤ max_depth)%Z.

(** What an attempt of the retry loop makes of the answer to its request:
    [raise_for_status] turns a response with an error status into an
    exception. *)
Definition attempt_outcome (got : result response) : result response :=
  match got with
  | Ok response =>
    match Http.raise_for_status response with
    | Some e => Raise e
    | None => Ok response
    end
  | Raise e => Raise e
  end.

(** A pass of the retry loop: the rate-limiting sleep, then the request
    with its answer. *)
Definition attempt_events (url : string) (answer : result response)
    : list event :=
  [EvDo (Sleep (Uniform Http.MIN_DELAY Http.MAX_DELAY)); EvHttpGet url answer].

(** The traces of the retry loop from pass [attempt] on: the passes that
    are retried, each followed by its message and by the back-off of
    [2^attempt] seconds, and then the pass that ends the loop. *)
Fixpoint retry_trace (url : string) (attempt : nat)
    (retried : list (result response * string)) (final : result response)
    : list event :=
  match retried with
  | [] => attempt_events url final
  | (answer, message) :: rest =>
    attempt_events url answer
    ++ [EvDo (Print message);
        EvDo (Sleep (Seconds (inject_Z (2 ^ Z.of_nat attempt))))]
    ++ retry_trace url (S attempt) rest final
  end.

(* ===================================================================== *)
(** ** Facts about strings *)
(* ===================================================================== *)

Lemma append_cons (c : ascii) (s t : string) :
  String c s +:+ t = String c (s +:+ t).
Proof. reflexivity. Qed.

Lemma prefix_app (d s : string) :
  String.prefix d s = true ↔ ∃ post, s = d +:+ post.
Proof.
  revert s; induction d as [|c d IH]; intros s; simpl.
  - destruct s; split; eauto.
  - destruct s as [|c' s]; simpl.
    + split; [done | intros [post H]; discriminate].
    + setoid_rewrite append_cons.
      destruct (Ascii.ascii_dec c c') as [->|Hne].
      * rewrite IH. split; intros [post H]; exists post; congruence.
      * split; [done | intros [post H]; congruence].
Qed.

Lemma contains_nil (d : string) :
  PyStr.contains d "" = String.prefix d "" || false.
Proof. reflexivity. Qed.

Lemma contains_cons (d : string) (c : ascii) (s : string) :
  PyStr.contains d (String c s)
  = String.prefix d (String c s) || PyStr.contains d s.
Proof. reflexivity. Qed.

Lemma contains_occurs_in (d s : string) :
  PyStr.contains d s = true ↔ PyStr.occurs_in d s.
Proof.
  unfold PyStr.occurs_in.
  induction s as [|c s IH].
  - rewrite contains_nil, orb_false_r, prefix_app. split.
    + intros [post H]. by exists ""%string, post.
    + intros ([|c pre] & post & H); [eauto | discriminate].
  - rewrite contains_cons, orb_true_iff, prefix_app, IH. split.
    + intros [[post H] | (pre & post & H)].
      * by exists ""%string, post.
      * exists (String c pre), post. rewrite append_cons. by rewrite H.
    + intros ([|c' pre] & post & H).
      * left. eauto.
      * right. exists pre, post. rewrite append_cons in H. congruence.
Qed.

Lemma occurs_in_middle (pre d post : string) :
  PyStr.occurs_in d (pre +:+ d +:+ post).
Proof. by exists pre, post. Qed.

Lemma string_app_assoc (a b c : string) : (a +:+ b) +:+ c = a +:+ b +:+ c.
Proof.
  induction a as [|x a IH]; [done|]. rewrite !append_cons. by rewrite IH.
Qed.

(* ===================================================================== *)
(** ** Facts about runs *)
(* ===================================================================== *)

Lemma runs_bind_inv {A B} (p : prog A) (f : A → prog B) tr b :
  runs (bind p f) tr b →
  ∃ tr1 a tr2, tr = tr1 ++ tr2 ∧ runs p tr1 a ∧ runs (f a) tr2 b.
Proof.
  revert tr; induction p as [a|c k IH|q k IH|u k IH|k IH|u k IH|k IH];
    simpl; intros tr H.
  - exists [], a, tr. eauto using runs_Ret.
  - inversion H; subst.
    destruct (IH _ ltac:(eassumption)) as (tr1 & a & tr2 & -> & ? & ?).
    exists (EvDo c :: tr1), a, tr2. eauto using runs_Do.
  - inversion H; subst.
    destruct (IH _ _ ltac:(eassumption)) as (tr1 & a & tr2 & -> & ? & ?).
    exists (EvAsk q b0 :: tr1), a, tr2. eauto using runs_Ask.
  - inversion H; subst.
    destruct (IH _ _ ltac:(eassumption)) as (tr1 & a & tr2 & -> & ? & ?).
    exists (EvHttpGet u o :: tr1), a, tr2. eauto using runs_HttpGet.
  - inversion H; subst.
    destruct (IH _ _ ltac:(eassumption)) as (tr1 & a & tr2 & -> & ? & ?).
    exists (EvCreateDriver o :: tr1), a, tr2. eauto using runs_CreateDriver.
  - inversion H; subst.
    destruct (IH _ _ ltac:(eassumption)) as (tr1 & a & tr2 & -> & ? & ?).
    exists (EvDriverGet u o :: tr1), a, tr2. eauto using runs_DriverGet.
  - inversion H; subst.
    destruct (IH _ _ ltac:(eassumption)) as (tr1 & a & tr2 & -> & ? & ?).
    exists (EvFindLinks o :: tr1), a, tr2. eauto using runs_FindLinks.
Qed.

Lemma runs_bind {A B} (p : prog A) (f : A → prog B) tr1 a tr2 b :
  runs p tr1 a → runs (f a) tr2 b → runs (bind p f) (tr1 ++ tr2) b.
Proof.
  induction 1; simpl; intros; eauto using runs.
Qed.

(** A task gives one result per trace. *)
Lemma runs_deterministic {A} (p : prog A) tr a a' :
  runs p tr a → runs p tr a' → a = a'.
Proof.
  induction 1; inversion 1; subst; eauto.
Qed.

(** Every task runs to the end, whatever the answers. *)
Lemma exec_runs {A} (o : oracle) (p : prog A) (n : nat) :
  runs p (exec o n p).1 (exec o n p).2.
Proof.
  revert n; induction p as [a|c k IH|q k IH|u k IH|k IH|u k IH|k IH];
    intros n; simpl.
  - constructor.
  - specialize (IH (S n)). destruct (exec o (S n) k). by constructor.
  - specialize (IH (ask o n q) (S n)).
    destruct (exec o (S n) (k _)). by constructor.
  - specialize (IH (session_get o n u) (S n)).
    destruct (exec o (S n) (k _)). by constructor.
  - specialize (IH (create_driver o n) (S n)).
    destruct (exec o (S n) (k _)). by constructor.
  - specialize (IH (driver_get o n u) (S n)).
    destruct (exec o (S n) (k _)). by constructor.
  - specialize (IH (find_elements o n) (S n)).
    destruct (exec o (S n) (k _)). by constructor.
Qed.

Ltac head_of t :=
  lazymatch t with
  | ?f _ => head_of f
  | _ => t
  end.

(** Invert the runs of a task whose next action is known. *)
Ltac inv_runs :=
  repeat match goal with
  | H : runs ?p _ _ |- _ =>
    let h := head_of p in
    is_constructor h; inversion H; subst; clear H
  end.

Lemma omap_nil_Forall {A B} (f : A → option B) (P : A → Prop) (l : list A) :
  (∀ x, P x → f x = None) → Forall P l → omap f l = [].
Proof.
  intros Hf; induction 1 as [|x l Hx _ IH]; simpl; [done|].
  rewrite (Hf x Hx). exact IH.
Qed.

Lemma quiet_after_claim url e : quiet e → after_claim url e.
Proof. by destruct e as [|[]| | | |]. Qed.

Lemma fetch_event_after_claim url e : fetch_event url e → after_claim url e.
Proof. by destruct e as [[]|[]| | | |]. Qed.

Lemma last_cons_Some {A} (y x : A) (l : list A) :
  last l = Some x → last (y :: l) = Some x.
Proof. by destruct l. Qed.

Lemma last_get_cons e tr x :
  last_get tr = Some x → last_get (e :: tr) = Some x.
Proof.
  unfold last_get; intros H. destruct e; simpl; try done.
  apply last_cons_Some, H.
Qed.

Lemma last_get_app_quiet tr1 tr2 :
  Forall quiet tr2 → last_get (tr1 ++ tr2) = last_get tr1.
Proof.
  intros H. unfold last_get. rewrite omap_app.
  rewrite (omap_nil_Forall _ quiet tr2); [by rewrite app_nil_r| |done].
  by intros [|[]| | | |].
Qed.

Lemma records_app tr1 tr2 : records (tr1 ++ tr2) = records tr1 ++ records tr2.
Proof. apply omap_app. Qed.

Lemma submitted_app tr1 tr2 :
  submitted (tr1 ++ tr2) = submitted tr1 ++ submitted tr2.
Proof. apply omap_app. Qed.

Lemma fetches_app tr1 tr2 : fetches (tr1 ++ tr2) = fetches tr1 ++ fetches tr2.
Proof. apply omap_app. Qed.

Lemma records_fetch_events url tr : Forall (fetch_event url) tr → records tr = [].
Proof. apply omap_nil_Forall. by intros [[]|[]| | | |]. Qed.

Lemma fetches_quiet tr : Forall quiet tr → fetches tr = [].
Proof. apply omap_nil_Forall. by intros [|[]| | | |]. Qed.

(* ===================================================================== *)
(** ** The retry loop of crawler.py *)
(* ===================================================================== *)

Section HttpFacts.

Context (urlparse : string → result parsed_url).
Context (urljoin : string → string → result string).
Context (find_all_a_href : string → result (list string)).

Lemma fetch_attempts_runs url retries remaining :
  ∀ attempt tr res,
    (retries - attempt = Z.of_nat remaining)%Z →
    runs (Http.fetch_attempts url retries attempt remaining) tr res →
    Forall (fetch_event url) tr
    ∧ length (fetches tr) ≤ remaining
    ∧ fetch_outcome tr res
    ∧ (res = Ok None → remaining = 0).
Proof.
  induction remaining as [|n IH]; intros attempt tr res Hsum Hrun.
  - simpl in Hrun. inv_runs. by repeat split.
  - simpl in Hrun. inv_runs.
    assert (Hnext : (attempt <? retries - 1)%Z = true →
      ∀ s tr', runs (Http.fetch_attempts url retries (attempt + 1) n) tr' res →
        Forall (fetch_event url)
          (EvDo (Sleep (Uniform Http.MIN_DELAY Http.MAX_DELAY))
           :: EvHttpGet url o :: EvDo (Print s)
           :: EvDo (Sleep (Seconds (inject_Z (2 ^ attempt)))) :: tr')
        ∧ length (fetches
            (EvDo (Sleep (Uniform Http.MIN_DELAY Http.MAX_DELAY))
             :: EvHttpGet url o :: EvDo (Print s)
             :: EvDo (Sleep (Seconds (inject_Z (2 ^ attempt)))) :: tr')) ≤ S n
        ∧ fetch_outcome
            (EvDo (Sleep (Uniform Http.MIN_DELAY Http.MAX_DELAY))
             :: EvHttpGet url o :: EvDo (Print s)
             :: EvDo (Sleep (Seconds (inject_Z (2 ^ attempt)))) :: tr') res
        ∧ (res = Ok None → S n = 0)).
    { intros Hlt s tr' Hrun'. apply Z.ltb_lt in Hlt.
      destruct (IH (attempt + 1)%Z tr' res ltac:(lia) Hrun')
        as (Hall & Hlen & Hout & Hnone).
      assert (n ≠ 0) by lia.
      split; [repeat constructor; done|].
      split; [simpl in *; lia|].
      split; [|intros ->; exfalso; auto].
      destruct res as [[r|]|e]; simpl in *.
      - destruct Hout as [Hl Hr]. split; [|done].
        by do 4 apply last_get_cons.
      - exfalso; auto.
      - destruct Hout as [Hl | (r & Hl & Hr)].
        + left. by do 4 apply last_get_cons.
        + right. exists r. split; [|done]. by do 4 apply last_get_cons. }
    assert (Hstop : ∀ res0,
      res0 ≠ Ok None →
      fetch_outcome [EvDo (Sleep (Uniform Http.MIN_DELAY Http.MAX_DELAY));
                     EvHttpGet url o] res0 →
      Forall (fetch_event url)
        [EvDo (Sleep (Uniform Http.MIN_DELAY Http.MAX_DELAY)); EvHttpGet url o]
      ∧ length (fetches [EvDo (Sleep (Uniform Http.MIN_DELAY Http.MAX_DELAY));
                         EvHttpGet url o]) ≤ S n
      ∧ fetch_outcome [EvDo (Sleep (Uniform Http.MIN_DELAY Http.MAX_DELAY));
                       EvHttpGet url o] res0
      ∧ (res0 = Ok None → S n = 0)).
    { intros res0 Hne Hout. split; [repeat constructor; done|].
      split; [simpl; lia|]. split; [done|]. by intros ->. }
    destruct o as [r|e].
    + destruct (Http.raise_for_status r) as [e|] eqn:Hrfs.
      * destruct (is_requests_timeout e);
          [|destruct (is_request_exception e)];
          try destruct (attempt <? retries - 1)%Z eqn:Hlt;
          inv_runs; try (by eapply Hnext);
          (apply Hstop; [done|]; right; exists r; by split).
      * inv_runs. apply Hstop; [done|]. by split.
    + destruct (is_requests_timeout e);
        [|destruct (is_request_exception e)];
        try destruct (attempt <? retries - 1)%Z eqn:Hlt;
        inv_runs; try (by eapply Hnext);
        (apply Hstop; [done|]; by left).
Qed.

Lemma scan_links_skips url hrefs acc :
  Http.scan_links urlparse urljoin url hrefs acc
  = Http.scan_links urlparse urljoin url (List.filter crawlable hrefs) acc.
Proof.
  revert acc; induction hrefs as [|href rest IH]; intros acc; [done|].
  simpl. unfold crawlable at 1.
  destruct (Http.is_mailto_link href) eqn:Hm; simpl; [apply IH|].
  destruct (Http.is_tel_link href) eqn:Ht; simpl; [apply IH|].
  rewrite Hm, Ht.
  destruct (urljoin url href); [|done].
  destruct (Http.is_valid_url urlparse a); by rewrite IH.
Qed.

Lemma scan_links_quiet url hrefs :
  ∀ acc tr res,
    runs (Http.scan_links urlparse urljoin url hrefs acc) tr res →
    Forall quiet tr.
Proof.
  induction hrefs as [|href rest IH]; intros acc tr res Hrun; simpl in Hrun.
  - inv_runs. constructor.
  - destruct (Http.is_mailto_link href); [by eapply IH|].
    destruct (Http.is_tel_link href); [by eapply IH|].
    destruct (urljoin url href) as [a|e]; [|inv_runs; constructor].
    destruct (Http.is_valid_url urlparse a); [by eapply IH|].
    inv_runs. repeat constructor. by eapply IH.
Qed.

(** The scan of a page whose crawlable hrefs all resolve: the invalid
    resolutions are recorded, in page order, and the valid ones are kept,
    in page order, each with the page as origin. *)
Lemma scan_links_resolved url hrefs :
  ∀ resolved acc tr res,
    Forall2 (λ href a, urljoin url href = Ok a)
      (List.filter crawlable hrefs) resolved →
    runs (Http.scan_links urlparse urljoin url hrefs acc) tr res →
    res = Ok (acc ++ map (λ a, (a, url))
                (List.filter (Http.is_valid_url urlparse) resolved))
    ∧ records tr
      = map (λ a, (url, "Invalid URL: " +:+ a))
          (List.filter (λ a, negb (Http.is_valid_url urlparse a)) resolved).
Proof.
  induction hrefs as [|href rest IH]; intros resolved acc tr res Hres Hrun.
  - simpl in *. inversion Hres; subst. inv_runs. by rewrite app_nil_r.
  - simpl in Hrun, Hres. unfold crawlable at 1 in Hres.
    destruct (Http.is_mailto_link href); simpl in Hres; [by eapply IH|].
    destruct (Http.is_tel_link href); simpl in Hres; [by eapply IH|].
    inversion Hres as [|? a ? resolved' Ha Hrest]; subst.
    rewrite Ha in Hrun. simpl.
    destruct (Http.is_valid_url urlparse a); simpl.
    + destruct (IH _ _ _ _ Hrest Hrun) as [-> Hrec].
      split; [by rewrite <- app_assoc | done].
    + inv_runs. destruct (IH _ _ _ _ Hrest ltac:(eassumption)) as [-> Hrec].
      split; [done|]. by rewrite <- Hrec.
Qed.

Lemma submit_links_runs current_depth links_to_crawl :
  ∀ tr u,
    runs (Http.submit_links current_depth links_to_crawl) tr u →
    Forall quiet tr ∧ records tr = []
    ∧ ∃ seen, length seen = length links_to_crawl
              ∧ visited_checks tr = zip (map fst links_to_crawl) seen
              ∧ submitted tr = dispatched current_depth links_to_crawl seen.
Proof.
  induction links_to_crawl as [|[link_url origin] rest IH];
    intros tr u Hrun; simpl in Hrun.
  - inv_runs. repeat split; [constructor|]. by exists [].
  - inv_runs. destruct b; inv_runs.
    + destruct (IH _ _ ltac:(eassumption)) as (Hq & Hr & seen & Hl & Hv & Hs).
      repeat split; [by constructor | done |].
      exists (true :: seen).
      split; [simpl; lia|].
      split; [exact (f_equal (cons (link_url, true)) Hv) | exact Hs].
    + destruct (IH _ _ ltac:(eassumption)) as (Hq & Hr & seen & Hl & Hv & Hs).
      repeat split; [by repeat constructor | done |].
      exists (false :: seen).
      split; [simpl; lia|].
      split; [exact (f_equal (cons (link_url, false)) Hv)|].
      exact (f_equal (cons (MkTask link_url (Some origin)
                              (current_depth + 1))) Hs).
Qed.

Lemma on_exception_runs t e tr u :
  runs (Http.on_exception t e) tr u →
  Forall quiet tr
  ∧ records tr = [(Http.origin_or (origin_url t) (task_url t),
                   task_url t +:+ " - Error: " +:+ exn_str e)]
  ∧ submitted tr = [].
Proof.
  unfold Http.on_exception. intros. inv_runs.
  repeat split; by repeat constructor.
Qed.

Lemma on_fetched_quiet max_workers t fetched tr out :
  runs (Http.on_fetched urlparse urljoin find_all_a_href max_workers t
          fetched) tr out →
  Forall quiet tr.
Proof.
  unfold Http.on_fetched. intros Hrun.
  destruct fetched as [[r|]|e]; [|inv_runs; constructor..].
  destruct (status_code r =? 200)%Z.
  - destruct (find_all_a_href (content r)); [|inv_runs; constructor].
    apply runs_bind_inv in Hrun as (tr1 & scanned & tr2 & -> & H1 & H2).
    apply Forall_app. split; [by eapply scan_links_quiet|].
    destruct scanned; [|inv_runs; constructor].
    destruct (max_workers <=? 0)%Z; [inv_runs; constructor|].
    apply runs_bind_inv in H2 as (tr3 & ? & tr4 & -> & H3 & H4).
    apply Forall_app. split; [by eapply submit_links_runs|].
    inv_runs. by repeat constructor.
  - destruct (400 <=? status_code r)%Z; inv_runs; by repeat constructor.
Qed.

(** A call of [crawl_url] claims its URL before anything else, loads no
    other URL, and calls [session.get] at most [MAX_RETRIES] times. *)
Lemma fetch_url_with_retry_runs url retries tr res :
  runs (Http.fetch_url_with_retry url retries) tr res →
  Forall (fetch_event url) tr
  ∧ length (fetches tr) ≤ Z.to_nat retries
  ∧ fetch_outcome tr res
  ∧ (res = Ok None → (retries ≤ 0)%Z).
Proof.
  unfold Http.fetch_url_with_retry. intros Hrun.
  destruct (Z.le_gt_cases retries 0) as [Hle|Hgt].
  - replace (Z.to_nat retries) with 0 in * by lia. simpl in Hrun.
    inv_runs. by repeat split.
  - apply fetch_attempts_runs in Hrun as (? & ? & ? & Hnone); [|lia].
    repeat split; try done. intros ->. specialize (Hnone eq_refl). lia.
Qed.

Lemma http_crawl_url_well_claimed target_domain max_workers max_depth t tr u :
  runs (Http.crawl_url urlparse urljoin find_all_a_href target_domain
          max_workers max_depth t) tr u →
  well_claimed t tr ∧ length (fetches tr) ≤ Z.to_nat Http.MAX_RETRIES.
Proof.
  unfold Http.crawl_url.
  pose proof (fetch_url_with_retry_runs (task_url t) Http.MAX_RETRIES)
    as Hfetch.
  revert Hfetch.
  generalize (Http.fetch_url_with_retry (task_url t) Http.MAX_RETRIES)
    as fetch.
  intros fetch Hfetch Hrun.
  destruct (max_depth <? current_depth t)%Z.
  { inv_runs. split; [by left | simpl; lia]. }
  inv_runs. destruct b; simpl in *.
  2:{ inv_runs. split; [|simpl; lia]. right. by exists false, []. }
  destruct (Http.is_target_domain urlparse (task_url t) target_domain);
    simpl in *.
  2:{ inv_runs. split; [|simpl; lia]. right. by exists true, []. }
  inv_runs.
  match goal with
  | H : runs (bind _ _) _ _ |- _ =>
    apply runs_bind_inv in H as (tr1 & out & tr2 & -> & H1 & H2)
  end.
  apply runs_bind_inv in H1 as (tr3 & res & tr4 & -> & H3 & H4).
  apply Hfetch in H3 as (Hf & Hlen & _ & _).
  apply on_fetched_quiet in H4.
  assert (Forall quiet tr2).
  { destruct out; [inv_runs; constructor|]. by eapply on_exception_runs. }
  split.
  - right. exists true, (EvDo (Print ("Crawling: " +:+ task_url t))
                         :: (tr3 ++ tr4) ++ tr2).
    repeat split; [|done].
    constructor; [done|]. rewrite !Forall_app. repeat split.
    + eapply Forall_impl; [done|]. apply fetch_event_after_claim.
    + eapply Forall_impl; [done|]. apply quiet_after_claim.
    + eapply Forall_impl; [done|]. apply quiet_after_claim.
  - change (length (fetches ((tr3 ++ tr4) ++ tr2))
            ≤ Z.to_nat Http.MAX_RETRIES).
    rewrite !fetches_app, !length_app.
    rewrite (fetches_quiet tr4), (fetches_quiet tr2) by done. simpl. lia.
Qed.

End HttpFacts.

(* ===================================================================== *)
(** ** The shape of a call in crawler_selenium.py *)
(* ===================================================================== *)

Section SeleniumFacts.

Context (urlparse : string → result parsed_url).
Context (urljoin : string → string → result string).

Lemma selenium_scan_links_quiet url links :
  ∀ acc tr res,
    runs (Selenium.scan_links urlparse urljoin url links acc) tr res →
    Forall quiet tr.
Proof.
  induction links as [|link rest IH]; intros acc tr res Hrun; simpl in Hrun.
  - inv_runs. constructor.
  - destruct (get_attribute_href link) as [[href|]|e];
      [|by eapply IH|inv_runs; constructor; [done|by eapply IH]].
    destruct (PyStr.truthy href); simpl in Hrun; [|by eapply IH].
    destruct (Http.is_mailto_link href); [by eapply IH|].
    destruct (urljoin url href) as [a|e];
      [|inv_runs; constructor; [done|by eapply IH]].
    destruct (Http.is_valid_url urlparse a); [by eapply IH|].
    inv_runs. repeat constructor. by eapply IH.
Qed.

Lemma selenium_on_exception_quiet t e tr u :
  runs (Selenium.on_exception t e) tr u → Forall quiet tr.
Proof.
  unfold Selenium.on_exception. intros.
  destruct (is_selenium_timeout e); inv_runs; by repeat constructor.
Qed.

Lemma selenium_try_block_runs max_workers t tr out :
  runs (Selenium.try_block urlparse urljoin max_workers t) tr out →
  Forall (after_claim (task_url t)) tr ∧ length (fetches tr) ≤ 1.
Proof.
  unfold Selenium.try_block. intros Hrun. inv_runs.
  destruct o as [[]|e]; [|inv_runs; split; [by repeat constructor|simpl; lia]].
  inv_runs.
  destruct o as [[]|e]; [|inv_runs; split; [by repeat constructor|simpl; lia]].
  inv_runs.
  destruct o as [links|e];
    [|inv_runs; split; [by repeat constructor|simpl; lia]].
  match goal with
  | H : runs (bind _ _) _ _ |- _ =>
    apply runs_bind_inv in H as (tr1 & links_to_crawl & tr2 & -> & H1 & H2)
  end.
  apply selenium_scan_links_quiet in H1.
  assert (Forall quiet tr2).
  { destruct (max_workers <=? 0)%Z; [inv_runs; constructor|].
    apply runs_bind_inv in H2 as (tr3 & ? & tr4 & -> & H3 & H4).
    apply Forall_app. split; [by eapply submit_links_runs|].
    inv_runs. by repeat constructor. }
  split.
  - repeat (constructor; [done|]). apply Forall_app.
    split; (eapply Forall_impl; [done|]; apply quiet_after_claim).
  - change (length (task_url t :: fetches (tr1 ++ tr2)) ≤ 1).
    rewrite fetches_app, !fetches_quiet by done. simpl. lia.
Qed.

(** A call of the selenium [crawl_url] claims its URL before anything
    else and loads no other URL, and that one at most once. *)
Lemma selenium_crawl_url_well_claimed max_workers max_depth t tr u :
  runs (Selenium.crawl_url urlparse urljoin max_workers max_depth t) tr u →
  well_claimed t tr ∧ length (fetches tr) ≤ 1.
Proof.
  unfold Selenium.crawl_url.
  pose proof (selenium_try_block_runs max_workers t) as Htry.
  revert Htry.
  generalize (Selenium.try_block urlparse urljoin max_workers t) as block.
  intros block Htry Hrun.
  destruct (max_depth <? current_depth t)%Z.
  { inv_runs. split; [by left | simpl; lia]. }
  inv_runs. destruct b; simpl in *.
  2:{ inv_runs. split; [|simpl; lia]. right. by exists false, []. }
  destruct (Selenium.is_rbo_domain urlparse (task_url t)); simpl in *.
  2:{ inv_runs. split; [|simpl; lia]. right. by exists true, []. }
  inv_runs.
  match goal with
  | H : runs (bind _ _) _ _ |- _ =>
    apply runs_bind_inv in H as (tr1 & [driver out] & tr2 & -> & H1 & H2)
  end.
  apply Htry in H1 as [Hf Hlen].
  apply runs_bind_inv in H2 as (tr3 & ? & tr4 & -> & H3 & H4).
  assert (Forall quiet tr3).
  { destruct out; [inv_runs; constructor|].
    by eapply selenium_on_exception_quiet. }
  assert (Forall quiet tr4).
  { destruct driver; inv_runs; by repeat constructor. }
  split.
  - right. exists true, (EvDo (Print ("Crawling: " +:+ task_url t))
                         :: tr1 ++ tr3 ++ tr4).
    repeat split; [|done].
    constructor; [done|]. rewrite !Forall_app. repeat split; [done|..];
      (eapply Forall_impl; [done|]; apply quiet_after_claim).
  - change (length (fetches (tr1 ++ tr3 ++ tr4)) ≤ 1).
    rewrite !fetches_app, !length_app.
    rewrite (fetches_quiet tr3), (fetches_quiet tr4) by done. simpl. lia.
Qed.

End SeleniumFacts.

(* ===================================================================== *)
(** ** Invariants of the pool *)
(* ===================================================================== *)

Lemma events_of_app i l1 l2 :
  Pool.events_of i (l1 ++ l2) = Pool.events_of i l1 ++ Pool.events_of i l2.
Proof. apply omap_app. Qed.

Lemma claimers_app u l1 l2 :
  Pool.claimers u (l1 ++ l2) = Pool.claimers u l1 ++ Pool.claimers u l2.
Proof. apply omap_app. Qed.

Lemma fetchers_app u l1 l2 :
  Pool.fetchers u (l1 ++ l2) = Pool.fetchers u l1 ++ Pool.fetchers u l2.
Proof. apply omap_app. Qed.

Lemma events_of_own i e : Pool.events_of i [(i, e)] = [e].
Proof. unfold Pool.events_of. simpl. by rewrite bool_decide_eq_true_2. Qed.

Lemma events_of_other i j e : j ≠ i → Pool.events_of i [(j, e)] = [].
Proof.
  intros. unfold Pool.events_of. simpl. by rewrite bool_decide_eq_false_2.
Qed.

Lemma events_of_nil_ids i l :
  (∀ j e, (j, e) ∈ l → j ≠ i) → Pool.events_of i l = [].
Proof.
  induction l as [|[j e] l IH]; intros H; [done|].
  change (Pool.events_of i ([(j, e)] ++ l) = []).
  rewrite events_of_app, events_of_other, IH; [done| |].
  - intros j' e' Hin. apply (H j' e'). by right.
  - apply (H j e). by left.
Qed.

Lemma claimers_events_of u i l :
  EvAsk (TryClaim u) true ∈ Pool.events_of i l → i ∈ Pool.claimers u l.
Proof.
  unfold Pool.events_of, Pool.claimers. rewrite !list_elem_of_omap.
  intros ([j e] & Hin & Hsome). exists (j, e). split; [done|].
  case_bool_decide; [|done]. simplify_eq. by rewrite bool_decide_eq_true_2.
Qed.

Lemma claimers_own_claim u i :
  Pool.claimers u [(i, EvAsk (TryClaim u) true)] = [i].
Proof. unfold Pool.claimers. simpl. by rewrite bool_decide_eq_true_2. Qed.

Lemma claimers_not_claim u i e :
  e ≠ EvAsk (TryClaim u) true → Pool.claimers u [(i, e)] = [].
Proof.
  intros Hne. unfold Pool.claimers. simpl.
  destruct e as [|[v|] []| | | |]; try done.
  case_bool_decide; [by subst|done].
Qed.

Lemma elem_of_fetchers u i l :
  i ∈ Pool.fetchers u l ↔ ∃ e, (i, e) ∈ l ∧ is_load u e.
Proof.
  unfold Pool.fetchers. rewrite list_elem_of_omap. split.
  - intros ([j e] & Hin & Hsome). exists e.
    destruct e; try done; case_bool_decide; by simplify_eq.
  - intros (e & Hin & Hload). exists (i, e). split; [done|].
    destruct e; try done; simpl in Hload; subst;
      by rewrite bool_decide_eq_true_2.
Qed.

Lemma snoc_split {A} (l l1 l2 : list A) (x y : A) :
  l ++ [x] = l1 ++ y :: l2 →
  (l1 = l ∧ y = x ∧ l2 = []) ∨ (∃ l2', l2 = l2' ++ [x] ∧ l = l1 ++ y :: l2').
Proof.
  destruct l2 as [|z l2 _] using rev_ind; intros H.
  - apply app_inj_tail in H as [-> ->]. by left.
  - right. exists l2.
    change (l ++ [x] = l1 ++ (y :: l2) ++ [z]) in H.
    rewrite app_assoc in H. apply app_inj_tail in H as [-> ->].
    done.
Qed.

Section PoolFacts.

Context (env : oracle) (body : task → prog unit) (max_workers : Z).
Context (budget : nat).

Local Abbreviation thread_ok := (thread_ok body).
Local Abbreviation invariant := (invariant body).

(** What the pool needs of the function it runs: every call claims its
    URL first and loads only that URL, at most [budget] times. *)
Hypothesis body_well_claimed :
  ∀ t tr u, runs (body t) tr u →
            well_claimed t tr ∧ length (fetches tr) ≤ budget.

Lemma invariant_initial root : invariant (Pool.initial root).
Proof.
  split; simpl.
  - intros [|i] th H; simplify_eq/=. done.
  - intros i e H. inversion H.
  - intros u i H. inversion H.
  - intros u H. by apply not_elem_of_empty in H.
  - intros u. lia.
  - intros u [|x l1] i e l2 H; discriminate.
Qed.

(** A thread that performs a load has claimed the URL before. *)
Lemma load_after_claim l i th p e k u :
  thread_ok l i th → Pool.state th = Pool.Running p →
  (∀ tr a, runs k tr a → runs p (e :: tr) a) →
  is_load u e →
  i ∈ Pool.claimers u l.
Proof.
  unfold thread_ok. intros Hok Hst Hk Hload. rewrite Hst in Hok.
  pose proof (exec_runs env k 0) as Hrun.
  apply Hk, Hok in Hrun.
  destruct (body_well_claimed _ _ _ Hrun) as [Hwc _].
  apply claimers_events_of.
  destruct Hwc as [Hnil | (b & rest & Heq & Hrest & Hb)].
  { by destruct (Pool.events_of i l). }
  destruct (Pool.events_of i l) as [|e0 evs] eqn:Hevs; simpl in Heq.
  { simplify_eq. by destruct Hload. }
  injection Heq as -> <-.
  assert (Hin : e ∈ evs ++ e :: (exec env 0 k).1).
  { apply elem_of_app. right. by left. }
  destruct b; [|by rewrite Hb in Hin; [inversion Hin|]].
  rewrite Forall_forall in Hrest. apply Hrest in Hin.
  destruct e; simpl in *; try done; subst; by left.
Qed.

(** Thread [i] performs [e] and goes on as [k]; the shared sets only
    grow, and a successful claim adds a URL that was not there. *)
Lemma invariant_emit w w1 i th p e k :
  invariant w →
  Pool.threads w !! i = Some th → Pool.state th = Pool.Running p →
  (∀ tr a, runs k tr a → runs p (e :: tr) a) →
  Pool.log w1 = Pool.log w →
  (Pool.threads w1 = Pool.threads w
   ∨ ∃ t, Pool.threads w1
          = Pool.threads w ++ [Pool.MkThread (Some i) t Pool.Queued]) →
  (∀ u, e = EvAsk (TryClaim u) true →
        (u ∉ Pool.visited w)
        ∧ Pool.visited w1 = {[ u ]} ∪ Pool.visited w) →
  ((∀ u, e ≠ EvAsk (TryClaim u) true) → Pool.visited w1 = Pool.visited w) →
  invariant (Pool.set_state i (Pool.Running k) (Pool.add_log i e w1)).
Proof.
  intros Hinv Hth Hst Hk Hlog Hthreads Hclaim Hother.
  assert (Hi : i < length (Pool.threads w)) by by eapply lookup_lt_Some.
  assert (Hpre : ∀ j, j < length (Pool.threads w) →
            Pool.threads w1 !! j = Pool.threads w !! j).
  { intros j Hj. destruct Hthreads as [->|[t ->]]; [done|].
    by rewrite lookup_app_l. }
  assert (Hcases : ∀ u, (e = EvAsk (TryClaim u) true) ∨
                        (e ≠ EvAsk (TryClaim u) true)).
  { intros u. destruct e as [|[v|] []| | | |]; try by right.
    destruct (decide (v = u)) as [->|]; [by left|right; congruence]. }
  assert (Hvis : Pool.visited w ⊆ Pool.visited w1).
  { destruct e as [|[v|] []| | | |];
      try (rewrite Hother; [done|by intros]).
    destruct (Hclaim v eq_refl) as [_ ->]. apply union_subseteq_r. }
  split; simpl; rewrite ?Hlog.
  - intros j th' Hj.
    destruct (decide (i = j)) as [<-|Hne].
    + rewrite list_lookup_alter_eq, Hpre, Hth in Hj by done.
      simplify_eq/=. unfold thread_ok; simpl.
      rewrite events_of_app, events_of_own. intros tr a Hrun.
      rewrite <- app_assoc. simpl.
      pose proof (inv_threads body w Hinv i th Hth) as Hok.
      unfold thread_ok in Hok. rewrite Hst in Hok. by apply Hok, Hk.
    + rewrite list_lookup_alter_ne in Hj by done.
      unfold thread_ok.
      rewrite events_of_app, events_of_other, app_nil_r by done.
      destruct (decide (j < length (Pool.threads w))) as [Hlt|Hge].
      * rewrite Hpre in Hj by done. by apply (inv_threads body w Hinv).
      * destruct Hthreads as [Heq|[t Heq]]; rewrite Heq in Hj.
        { apply lookup_lt_Some in Hj. lia. }
        rewrite lookup_app_r in Hj by lia.
        destruct (j - length (Pool.threads w)) as [|n]; simplify_eq/=.
        apply events_of_nil_ids. intros j' e' Hin ->.
        apply (inv_log_ids body w Hinv) in Hin. lia.
  - intros j e' Hin. rewrite length_alter.
    assert (length (Pool.threads w) ≤ length (Pool.threads w1)).
    { destruct Hthreads as [->|[t ->]]; [done|]. rewrite length_app. lia. }
    apply elem_of_app in Hin as [Hin|Hin].
    + apply (inv_log_ids body w Hinv) in Hin. lia.
    + apply list_elem_of_singleton in Hin. simplify_eq. lia.
  - intros u j. rewrite claimers_app. intros Hin.
    apply elem_of_app in Hin as [Hin|Hin].
    + apply Hvis. by eapply (inv_claimed_visited body w Hinv).
    + destruct (Hcases u) as [->|Hne].
      * destruct (Hclaim u eq_refl) as [_ ->].
        apply elem_of_union. left. by apply elem_of_singleton.
      * rewrite claimers_not_claim in Hin by done. inversion Hin.
  - intros u Hu. setoid_rewrite claimers_app.
    destruct (Hcases u) as [->|Hne].
    + exists i. rewrite claimers_own_claim. apply elem_of_app. right. by left.
    + assert (Hold : u ∈ Pool.visited w).
      { destruct e as [|[v|] []| | | |];
          try (rewrite Hother in Hu; [done|by intros]).
        destruct (Hclaim v eq_refl) as [_ Heq]. rewrite Heq in Hu.
        apply elem_of_union in Hu as [Hu|Hu]; [|done].
        apply elem_of_singleton in Hu. congruence. }
      destruct (inv_visited_claimed body w Hinv u Hold) as [j Hj].
      exists j. apply elem_of_app. by left.
  - intros u. rewrite claimers_app, length_app.
    pose proof (inv_claim_once body w Hinv u).
    destruct (Hcases u) as [->|Hne].
    + rewrite claimers_own_claim. simpl.
      destruct (Hclaim u eq_refl) as [Hfresh _].
      destruct (Pool.claimers u (Pool.log w)) as [|j l] eqn:Hcl; [simpl; lia|].
      exfalso. apply Hfresh, (inv_claimed_visited body w Hinv u j).
      rewrite Hcl. by left.
    + rewrite claimers_not_claim by done. simpl. lia.
  - intros u l1 j e' l2 Hsplit Hload.
    apply snoc_split in Hsplit as [(-> & ? & ->)|(l2' & -> & Hsplit)].
    + simplify_eq.
      eapply load_after_claim; [by apply (inv_threads body w Hinv)|done..].
    + by eapply (inv_claim_first body w Hinv).
Qed.

(** Thread [i] changes state without performing an action. *)
Lemma invariant_set_state w i th s :
  invariant w →
  Pool.threads w !! i = Some th →
  thread_ok (Pool.log w) i
    (Pool.MkThread (Pool.parent th) (Pool.thread_task th) s) →
  invariant (Pool.set_state i s w).
Proof.
  intros Hinv Hth Hok. split; simpl.
  - intros j th' Hj. destruct (decide (i = j)) as [<-|Hne].
    + rewrite list_lookup_alter_eq, Hth in Hj. by simplify_eq/=.
    + rewrite list_lookup_alter_ne in Hj by done.
      by apply (inv_threads body w Hinv).
  - intros j e Hin. rewrite length_alter. by eapply (inv_log_ids body w Hinv).
  - apply (inv_claimed_visited body w Hinv).
  - apply (inv_visited_claimed body w Hinv).
  - apply (inv_claim_once body w Hinv).
  - apply (inv_claim_first body w Hinv).
Qed.

Lemma invariant_step w i w' :
  invariant w → Pool.step env body max_workers w i = Some w' → invariant w'.
Proof.
  intros Hinv. unfold Pool.step.
  destruct (Pool.threads w !! i) as [th|] eqn:Hth; [|done].
  pose proof (inv_threads body w Hinv i th Hth) as Hok.
  destruct (Pool.state th) as [|p|] eqn:Hst; [| |done].
  { destruct (Pool.can_start _ _ _ _); [|done].
    intros [= <-]. eapply invariant_set_state; [done..|].
    unfold thread_ok in *; simpl. rewrite Hst in Hok. by rewrite Hok. }
  destruct p as [[]|c k|q k|u k|k|u k|k].
  - intros [= <-]. eapply invariant_set_state; [done..|].
    unfold thread_ok in *; simpl. rewrite Hst in Hok.
    rewrite <- (app_nil_r (Pool.events_of i _)). apply Hok. constructor.
  - destruct (match c with WaitAll => _ | _ => true end); [|done].
    intros [= <-].
    eapply invariant_emit; [done..| by intros; constructor | | | |].
    + by destruct c.
    + destruct c; eauto.
    + by intros.
    + by destruct c.
  - intros [= <-].
    eapply invariant_emit; [done..| by intros; constructor | | | |].
    + destruct q; simpl; [by case_bool_decide|done].
    + left. destruct q; simpl; [by case_bool_decide|done].
    + intros u Heq. destruct q as [v|v]; [|done]. simpl in *.
      case_bool_decide as Hv; [done|]. by simplify_eq.
    + intros Hne. destruct q as [v|v]; [|done]. simpl in *.
      case_bool_decide as Hv; [done|]. by destruct (Hne v).
  - intros [= <-].
    eapply invariant_emit; [done..| by intros; constructor | | | |];
      by eauto.
  - intros [= <-].
    eapply invariant_emit; [done..| by intros; constructor | | | |];
      by eauto.
  - intros [= <-].
    eapply invariant_emit; [done..| by intros; constructor | | | |];
      by eauto.
  - intros [= <-].
    eapply invariant_emit; [done..| by intros; constructor | | | |];
      by eauto.
Qed.

Lemma invariant_run schedule :
  ∀ w, invariant w → invariant (Pool.run env body max_workers schedule w).
Proof.
  induction schedule as [|i rest IH]; intros w Hinv; [done|].
  simpl. apply IH.
  destruct (Pool.step env body max_workers w i) eqn:Hstep; [|done].
  by eapply invariant_step.
Qed.

(** The visited set never loses a URL. *)
Lemma visited_step w i w' :
  Pool.step env body max_workers w i = Some w' →
  Pool.visited w ⊆ Pool.visited w'.
Proof.
  unfold Pool.step.
  destruct (Pool.threads w !! i) as [th|]; [|done].
  destruct (Pool.state th) as [|p|]; [| |done].
  { destruct (Pool.can_start _ _ _ _); [|done]. by intros [= <-]. }
  destruct p as [[]|c k|q k|u k|k|u k|k]; try by intros [= <-].
  - destruct (match c with WaitAll => _ | _ => true end); [|done].
    intros [= <-]. by destruct c.
  - intros [= <-]. destruct q; simpl; [|done].
    case_bool_decide; [done|apply union_subseteq_r].
Qed.

Lemma visited_run schedule :
  ∀ w, Pool.visited w
       ⊆ Pool.visited (Pool.run env body max_workers schedule w).
Proof.
  induction schedule as [|i rest IH]; intros w; [done|].
  simpl. etrans; [|apply IH].
  destruct (Pool.step env body max_workers w i) eqn:Hstep; [|done].
  by eapply visited_step.
Qed.

(** In a world that satisfies the invariant, every load of [u] was made
    by the one thread whose claim of [u] succeeded. *)
Lemma fetchers_claimers w u i :
  invariant w → i ∈ Pool.fetchers u (Pool.log w) →
  i ∈ Pool.claimers u (Pool.log w).
Proof.
  intros Hinv Hin. apply elem_of_fetchers in Hin as (e & Hin & Hload).
  apply list_elem_of_split in Hin as (l1 & l2 & Heq).
  pose proof (inv_claim_first body w Hinv u l1 i e l2 Heq Hload) as Hc.
  rewrite Heq, claimers_app. apply elem_of_app. by left.
Qed.

(** A thread never makes more loads than one call may make. *)
Lemma thread_budget w i :
  invariant w → length (fetches (Pool.events_of i (Pool.log w))) ≤ budget.
Proof.
  intros Hinv.
  destruct (Pool.threads w !! i) as [th|] eqn:Hth.
  - pose proof (inv_threads body w Hinv i th Hth) as Hok. unfold thread_ok in Hok.
    destruct (Pool.state th) as [|p|].
    + rewrite Hok. simpl. lia.
    + pose proof (exec_runs env p 0) as Hrun. apply Hok in Hrun.
      apply body_well_claimed in Hrun as [_ Hlen].
      rewrite fetches_app, length_app in Hlen. lia.
    + by apply body_well_claimed in Hok as [_ Hlen].
  - rewrite events_of_nil_ids; [simpl; lia|].
    intros j e Hin ->. apply (inv_log_ids body w Hinv) in Hin.
    apply lookup_ge_None in Hth. lia.
Qed.

End PoolFacts.

(* ===================================================================== *)
(** ** The URL classifier *)
(* ===================================================================== *)

(** C8. For every URL and target domain, [is_target_domain] (and
    [is_rbo_domain], whose target is fixed to rbo.org.uk) is true exactly
    when the URL parses and the target occurs as a contiguous block of the
    parsed netloc; when [urlparse] raises, both return false. *)
Theorem C8_domain_membership_is_substring
    (urlparse : string → result parsed_url) (url target_domain : string) :
  (Http.is_target_domain urlparse url target_domain = true
   ↔ ∃ parsed, urlparse url = Ok parsed
               ∧ PyStr.occurs_in target_domain (netloc parsed))
  ∧ (Selenium.is_rbo_domain urlparse url = true
     ↔ ∃ parsed, urlparse url = Ok parsed
                 ∧ PyStr.occurs_in "rbo.org.uk" (netloc parsed))
  ∧ (∀ e, urlparse url = Raise e →
          Http.is_target_domain urlparse url target_domain = false
          ∧ Selenium.is_rbo_domain urlparse url = false).
Proof.
  unfold Http.is_target_domain, Selenium.is_rbo_domain.
  destruct (urlparse url) as [parsed|e]; repeat split.
  - intros H. exists parsed. split; [done|]. by apply contains_occurs_in.
  - intros (p & [= <-] & H). by apply contains_occurs_in.
  - intros H. exists parsed. split; [done|]. by apply contains_occurs_in.
  - intros (p & [= <-] & H). by apply contains_occurs_in.
  - discriminate.
  - discriminate.
  - discriminate.
  - by intros (p & ? & _).
  - discriminate.
  - by intros (p & ? & _).
Qed.

(** Subdomains match, and so does an unrelated host that merely contains
    the target. *)
Example is_target_domain_permissive :
  Http.is_target_domain Example.urlparse "https://www.ex.test/a" "ex.test" = true
  ∧ Http.is_target_domain Example.urlparse
      "https://notex.test.evil.org/" "ex.test" = true
  ∧ Http.is_target_domain Example.urlparse "https://other.org/" "ex.test" = false
  ∧ Http.is_target_domain Example.urlparse "//[bad" "ex.test" = false.
Proof. by vm_compute. Qed.

(* ===================================================================== *)
(** ** The gates of [crawl_url] *)
(* ===================================================================== *)

(** C6. A call whose depth exceeds [max_depth] does nothing at all, in both
    scripts: its only run is the empty one, so it makes no claim, no load,
    no record and submits nothing. *)
Theorem C6_beyond_max_depth_is_noop
    (urlparse : string → result parsed_url)
    (urljoin : string → string → result string)
    (find_all_a_href : string → result (list string))
    (target_domain : string) (max_workers max_depth : Z) (t : task) :
  (max_depth < current_depth t)%Z →
  (runs (Http.crawl_url urlparse urljoin find_all_a_href target_domain
           max_workers max_depth t) [] tt
   ∧ runs (Selenium.crawl_url urlparse urljoin max_workers max_depth t) [] tt)
  ∧ ∀ tr u,
      runs (Http.crawl_url urlparse urljoin find_all_a_href target_domain
              max_workers max_depth t) tr u
      ∨ runs (Selenium.crawl_url urlparse urljoin max_workers max_depth t) tr u →
      tr = [] ∧ claim_attempts tr = [] ∧ fetches tr = []
      ∧ records tr = [] ∧ submitted tr = [].
Proof.
  intros Hdepth. apply Z.ltb_lt in Hdepth.
  unfold Http.crawl_url, Selenium.crawl_url. rewrite Hdepth.
  split; [split; constructor|].
  intros tr u [H|H]; inv_runs; by repeat split.
Qed.

Lemma C6_witness :
  (3 < current_depth (MkTask "https://ex.test/deep" (Some "https://ex.test/") 4))%Z
  ∧ runs (Example.crawl_url
            (MkTask "https://ex.test/deep" (Some "https://ex.test/") 4)) [] tt
  ∧ runs (Selenium.crawl_url Example.urlparse Example.urljoin 5 3
            (MkTask "https://ex.test/deep" (Some "https://ex.test/") 4)) [] tt.
Proof.
  split; [simpl; lia|].
  apply (C6_beyond_max_depth_is_noop Example.urlparse Example.urljoin
           Example.find_all_a_href "ex.test" Http.MAX_WORKERS 3
           (MkTask "https://ex.test/deep" (Some "https://ex.test/") 4)).
  simpl; lia.
Defined.

(** C7 as stated fails: a call beyond the depth limit whose URL is outside
    the target domain returns before the check-and-insert, so its URL is
    never claimed. *)
Lemma C7_counterexample :
  ∃ t : task,
    Http.is_target_domain Example.urlparse (task_url t) "ex.test" = false
    ∧ runs (Example.crawl_url t) [] tt
    ∧ ∀ tr u, runs (Example.crawl_url t) tr u → claim_attempts tr = [].
Proof.
  exists (MkTask "https://other.org/" (Some "https://ex.test/") 4).
  split; [by vm_compute|]. split; [constructor|].
  intros tr u H. unfold Example.crawl_url, Http.crawl_url in H. simpl in H.
  by inv_runs.
Qed.

(** C7, amended. A call within the depth limit whose URL is outside the
    target domain performs exactly one action, the check-and-insert of its
    URL in the visited set (after which the URL is in the set, whether this
    call or an earlier one put it there), and returns: it loads nothing,
    records nothing and submits nothing. *)
Theorem C7_out_of_domain_claimed_then_dropped
    (urlparse : string → result parsed_url)
    (urljoin : string → string → result string)
    (find_all_a_href : string → result (list string))
    (target_domain : string) (max_workers max_depth : Z) (t : task) :
  (current_depth t ≤ max_depth)%Z →
  Http.is_target_domain urlparse (task_url t) target_domain = false →
  (∀ b, runs (Http.crawl_url urlparse urljoin find_all_a_href target_domain
                max_workers max_depth t) [EvAsk (TryClaim (task_url t)) b] tt)
  ∧ (∀ tr u,
       runs (Http.crawl_url urlparse urljoin find_all_a_href target_domain
               max_workers max_depth t) tr u →
       (∃ b, tr = [EvAsk (TryClaim (task_url t)) b])
       ∧ claim_attempts tr = [task_url t]
       ∧ fetches tr = [] ∧ records tr = [] ∧ submitted tr = [])
  ∧ (∀ w, task_url t
          ∈ Pool.visited (Pool.exec_query (TryClaim (task_url t)) w)).
Proof.
  intros Hdepth Hdom. apply Z.ltb_ge in Hdepth.
  unfold Http.crawl_url. rewrite Hdepth, Hdom. simpl.
  split; [|split].
  - intros []; repeat constructor.
  - intros tr u H. inv_runs. destruct b; simpl in *; inv_runs; eauto 10.
  - intros w. simpl. case_bool_decide; [done|].
    simpl. apply elem_of_union. left. by apply elem_of_singleton.
Qed.

Lemma C7_witness :
  (current_depth (MkTask "https://other.org/" (Some "https://ex.test/") 1) ≤ 3)%Z
  ∧ Http.is_target_domain Example.urlparse "https://other.org/" "ex.test"
    = false
  ∧ ∀ b, runs (Example.crawl_url
                 (MkTask "https://other.org/" (Some "https://ex.test/") 1))
           [EvAsk (TryClaim "https://other.org/") b] tt.
Proof.
  split; [simpl; lia|]. split; [by vm_compute|].
  apply (C7_out_of_domain_claimed_then_dropped Example.urlparse
           Example.urljoin Example.find_all_a_href "ex.test" Http.MAX_WORKERS 3
           (MkTask "https://other.org/" (Some "https://ex.test/") 1));
    [simpl; lia | by vm_compute].
Defined.

(* ===================================================================== *)
(** ** The fetcher *)
(* ===================================================================== *)

(** C9. With [retries >= 1], [fetch_url_with_retry] always ends, and ends
    by returning a response or by raising; with [retries <= 0] the loop body
    never runs, the function returns [None] without any action, and the
    caller's [response.status_code] then raises on that [None]. *)
Theorem C9_fetch_returns_none_without_retries
    (urlparse : string → result parsed_url)
    (urljoin : string → string → result string)
    (find_all_a_href : string → result (list string))
    (url : string) (retries max_workers : Z) (t : task) :
  ((1 ≤ retries)%Z →
     (∀ o : oracle,
        let res := (exec o 0 (Http.fetch_url_with_retry url retries)).2 in
        (∃ r, res = Ok (Some r)) ∨ (∃ e, res = Raise e))
     ∧ ∀ tr res, runs (Http.fetch_url_with_retry url retries) tr res →
                 (∃ r, res = Ok (Some r)) ∨ (∃ e, res = Raise e))
  ∧ ((retries ≤ 0)%Z →
       ∀ tr res, runs (Http.fetch_url_with_retry url retries) tr res ↔
                 tr = [] ∧ res = Ok None)
  ∧ (∀ tr out,
       runs (Http.on_fetched urlparse urljoin find_all_a_href max_workers t
               (Ok None)) tr out ↔
       tr = []
       ∧ out = Raise (MkExn ExAttributeError
                        "'NoneType' object has no attribute 'status_code'")).
Proof.
  split; [|split].
  - intros Hpos.
    assert (Hres : ∀ tr res,
              runs (Http.fetch_url_with_retry url retries) tr res →
              (∃ r, res = Ok (Some r)) ∨ (∃ e, res = Raise e)).
    { intros tr res Hrun.
      apply fetch_url_with_retry_runs in Hrun as (_ & _ & _ & Hnone).
      destruct res as [[r|]|e]; eauto. specialize (Hnone eq_refl). lia. }
    split; [|done]. intros o. eapply Hres, (exec_runs o _ 0).
  - intros Hle tr res. unfold Http.fetch_url_with_retry.
    replace (Z.to_nat retries) with 0 by lia. simpl. split.
    + intros H. by inv_runs.
    + intros [-> ->]. constructor.
  - intros tr out. simpl. split.
    + intros H. by inv_runs.
    + intros [-> ->]. constructor.
Qed.

Lemma C9_witness :
  (1 ≤ 3)%Z ∧ (0 ≤ 0)%Z
  ∧ (∀ tr res, runs (Http.fetch_url_with_retry "https://ex.test/" 3) tr res →
               (∃ r, res = Ok (Some r)) ∨ (∃ e, res = Raise e))
  ∧ (∀ tr res, runs (Http.fetch_url_with_retry "https://ex.test/" 0) tr res ↔
               tr = [] ∧ res = Ok None).
Proof.
  split; [lia|]. split; [lia|]. split.
  - apply (C9_fetch_returns_none_without_retries Example.urlparse
             Example.urljoin Example.find_all_a_href "https://ex.test/" 3 5
             Example.seed). lia.
  - apply (C9_fetch_returns_none_without_retries Example.urlparse
             Example.urljoin Example.find_all_a_href "https://ex.test/" 0 5
             Example.seed). lia.
Defined.

(** C1 fails on the code. [raise_for_status] turns a response with a status
    in 400..599 into an [HTTPError], the loop's [except RequestException]
    catches it, and the request is sent again after the back-off: against a
    server that answers 404 every time, [fetch_url_with_retry] sends three
    requests, sleeps 1 and then 2 seconds between them, and raises. *)
Theorem C1_error_status_is_retried :
  let url := "https://ex.test/missing"%string in
  let not_found := MkResponse 404 "Not Found" url "" in
  let run := exec (Example.site (λ _, Ok not_found)) 0
               (Http.fetch_url_with_retry url Http.MAX_RETRIES) in
  omap (λ e, match e with EvHttpGet _ o => Some o | _ => None end) run.1
  = [Ok not_found; Ok not_found; Ok not_found]
  ∧ backoffs run.1 = [inject_Z 1; inject_Z 2]
  ∧ run.2 = Raise (MkExn ExHTTPError
              "404 Client Error: Not Found for url: https://ex.test/missing").
Proof. by vm_compute. Qed.

(** Only a status outside 400..599 ends the loop at once. *)
Lemma fetch_returns_at_once url retries n attempt r tr res :
  Http.raise_for_status r = None →
  runs (Http.fetch_attempts url retries attempt (S n))
    (EvDo (Sleep (Uniform Http.MIN_DELAY Http.MAX_DELAY))
     :: EvHttpGet url (Ok r) :: tr) res →
  tr = [] ∧ res = Ok (Some r).
Proof.
  intros Hrfs Hrun. simpl in Hrun. inv_runs. rewrite Hrfs in *. by inv_runs.
Qed.

(** A status in 400..599 on an attempt that is not the last one is followed
    by the back-off of [2 ^ attempt] seconds and the next attempt. *)
Lemma fetch_retries_error_status url retries n attempt r tr res :
  (400 ≤ status_code r < 600)%Z → (attempt < retries - 1)%Z →
  runs (Http.fetch_attempts url retries attempt (S n))
    (EvDo (Sleep (Uniform Http.MIN_DELAY Http.MAX_DELAY))
     :: EvHttpGet url (Ok r) :: tr) res →
  ∃ msg tr',
    tr = EvDo (Print msg) :: EvDo (Sleep (Seconds (inject_Z (2 ^ attempt))))
         :: tr'
    ∧ runs (Http.fetch_attempts url retries (attempt + 1) n) tr' res.
Proof.
  intros Hstatus Hlt Hrun. apply Z.ltb_lt in Hlt.
  simpl in Hrun. inv_runs. unfold Http.raise_for_status in *.
  destruct ((400 <=? status_code r)%Z && (status_code r <? 500)%Z) eqn:Hc;
    [|destruct ((500 <=? status_code r)%Z && (status_code r <? 600)%Z) eqn:Hs].
  - simpl in *. rewrite Hlt in *. inv_runs. eauto.
  - simpl in *. rewrite Hlt in *. inv_runs. eauto.
  - apply andb_false_iff in Hc, Hs. lia.
Qed.

(* ===================================================================== *)
(** ** What [crawl_url] does with the fetched response *)
(* ===================================================================== *)

Lemma last_get_skip_do c tr : last_get (EvDo c :: tr) = last_get tr.
Proof. reflexivity. Qed.

Lemma last_get_skip_ask q b tr : last_get (EvAsk q b :: tr) = last_get tr.
Proof. reflexivity. Qed.

Lemma records_quiet_fetch url tr1 tr2 :
  Forall (fetch_event url) tr1 → records (tr1 ++ tr2) = records tr2.
Proof. intros H. by rewrite records_app, (records_fetch_events url). Qed.

Lemma append_empty_r (s : string) : s +:+ "" = s.
Proof. induction s as [|c s IH]; [done|]. by rewrite append_cons, IH. Qed.

Lemma occurs_in_suffix (a b d : string) : PyStr.occurs_in d (a +:+ b +:+ d).
Proof.
  exists (a +:+ b), ""%string. by rewrite append_empty_r, string_app_assoc.
Qed.

(** The decimal status code is part of the message of the [HTTPError]. *)
Lemma raise_for_status_message r e :
  Http.raise_for_status r = Some e →
  (400 ≤ status_code r < 600)%Z
  ∧ ∃ rest, exn_str e = pretty (status_code r) +:+ rest.
Proof.
  unfold Http.raise_for_status.
  destruct ((400 <=? status_code r)%Z && (status_code r <? 500)%Z) eqn:Hc;
    [|destruct ((500 <=? status_code r)%Z && (status_code r <? 600)%Z) eqn:Hs];
    intros [= <-]; simpl.
  - apply andb_true_iff in Hc. split; [lia|eauto].
  - apply andb_true_iff in Hs. split; [lia|eauto].
Qed.

(** A complete run of [crawl_url] (crawler.py) that reached the fetch: the
    trace of the retry loop, the value the loop gave, and the trace of the
    rest of the call. *)
Lemma http_crawl_url_fetched
    (urlparse : string → result parsed_url)
    (urljoin : string → string → result string)
    (find_all_a_href : string → result (list string))
    (target_domain : string) (max_workers max_depth : Z) (t : task) tr u x :
  runs (Http.crawl_url urlparse urljoin find_all_a_href target_domain
          max_workers max_depth t) tr u →
  last_get tr = Some x →
  ∃ tr1 fetched tr2 out tr3,
    tr = EvAsk (TryClaim (task_url t)) true
         :: EvDo (Print ("Crawling: " +:+ task_url t)) :: tr1 ++ tr2 ++ tr3
    ∧ Forall (fetch_event (task_url t)) tr1
    ∧ fetch_outcome tr1 fetched
    ∧ last_get tr1 = Some x
    ∧ runs (Http.on_fetched urlparse urljoin find_all_a_href max_workers t
              fetched) tr2 out
    ∧ runs (match out with
            | Ok _ => Ret tt
            | Raise e => Http.on_exception t e
            end) tr3 tt.
Proof.
  unfold Http.crawl_url.
  pose proof (fetch_url_with_retry_runs (task_url t) Http.MAX_RETRIES)
    as Hfetch.
  revert Hfetch.
  generalize (Http.fetch_url_with_retry (task_url t) Http.MAX_RETRIES)
    as fetch.
  intros fetch Hfetch Hrun Hlast.
  destruct (max_depth <? current_depth t)%Z; [by inv_runs|].
  inv_runs. destruct b; simpl in *; [|by inv_runs].
  destruct (Http.is_target_domain urlparse (task_url t) target_domain);
    simpl in *; [|by inv_runs].
  inv_runs.
  match goal with
  | H : runs (bind _ _) _ _ |- _ =>
    apply runs_bind_inv in H as (tr12 & out & tr3 & -> & H12 & H3)
  end.
  apply runs_bind_inv in H12 as (tr1 & fetched & tr2 & -> & H1 & H2).
  destruct (Hfetch _ _ H1) as (Hf & _ & Hout & _).
  destruct u.
  exists tr1, fetched, tr2, out, tr3. rewrite <- app_assoc.
  repeat split; try done.
  rewrite last_get_skip_ask, last_get_skip_do in Hlast.
  rewrite !last_get_app_quiet in Hlast; [done| |].
  - by eapply on_fetched_quiet.
  - destruct out; [inv_runs; constructor|]. by eapply on_exception_runs.
Qed.

(** C2. Whenever a call of [crawl_url] ends its fetch on a response whose
    status code is at least 400, the call makes exactly one broken-link
    record; its origin is [origin_url] when that is given (and not empty),
    else the URL itself; its detail contains the decimal status code: it is
    [<url> - Status: <code>] when the response was returned to [crawl_url],
    and [<url> - Error: <code> ...], the text of the [HTTPError], when
    [raise_for_status] raised (codes 400..599). *)
Theorem C2_error_status_recorded_once
    (urlparse : string → result parsed_url)
    (urljoin : string → string → result string)
    (find_all_a_href : string → result (list string))
    (target_domain : string) (max_workers max_depth : Z) (t : task)
    (tr : list event) (r : response) :
  runs (Http.crawl_url urlparse urljoin find_all_a_href target_domain
          max_workers max_depth t) tr tt →
  last_get tr = Some (Ok r) →
  (400 ≤ status_code r)%Z →
  ∃ origin detail,
    records tr = [(origin, detail)]
    ∧ (origin_url t = None → origin = task_url t)
    ∧ (∀ o, origin_url t = Some o → o ≠ ""%string → origin = o)
    ∧ PyStr.occurs_in (pretty (status_code r)) detail
    ∧ (Http.raise_for_status r = None →
       detail = task_url t +:+ " - Status: " +:+ pretty (status_code r))
    ∧ (∀ e, Http.raise_for_status r = Some e →
            detail = task_url t +:+ " - Error: " +:+ exn_str e).
Proof.
  intros Hrun Hlast Hstatus.
  destruct (http_crawl_url_fetched _ _ _ _ _ _ _ _ _ _ Hrun Hlast)
    as (tr1 & fetched & tr2 & out & tr3 & -> & Hf & Hout & Hl1 & H2 & H3).
  exists (Http.origin_or (origin_url t) (task_url t)).
  assert (Horigin :
    (origin_url t = None →
     Http.origin_or (origin_url t) (task_url t) = task_url t)
    ∧ (∀ o, origin_url t = Some o → o ≠ ""%string →
            Http.origin_or (origin_url t) (task_url t) = o)).
  { split; [by intros ->|]. intros o -> Hne. simpl. by destruct o. }
  destruct Horigin as [Hnone Hsome].
  change (records (EvAsk (TryClaim (task_url t)) true
                   :: EvDo (Print ("Crawling: " +:+ task_url t))
                   :: tr1 ++ tr2 ++ tr3))
    with (records (tr1 ++ tr2 ++ tr3)).
  rewrite (records_quiet_fetch (task_url t)) by done.
  destruct fetched as [[r'|]|e]; simpl in Hout.
  - (* the response was returned *)
    destruct Hout as [Hl Hrfs]. rewrite Hl in Hl1. simplify_eq.
    unfold Http.on_fetched in H2.
    assert (Hne : (status_code r =? 200)%Z = false) by lia.
    assert (Hge : (400 <=? status_code r)%Z = true) by lia.
    rewrite Hne, Hge in H2. inv_runs.
    eexists. split; [reflexivity|]. repeat split; try done.
    + apply occurs_in_suffix.
    + intros e He. congruence.
  - (* the loop fell through: no request was made *)
    subst tr1. discriminate.
  - (* the last attempt raised *)
    destruct Hout as [Hl | (r' & Hl & Hrfs)]; rewrite Hl in Hl1; simplify_eq.
    simpl in H2. inv_runs. unfold Http.on_exception in H3. inv_runs.
    eexists. split; [reflexivity|]. repeat split; try done.
    + destruct (raise_for_status_message _ _ Hrfs) as (_ & rest & ->).
      rewrite <- string_app_assoc. apply occurs_in_middle.
    + intros Hn. congruence.
    + intros e' He. congruence.
Qed.

Lemma C2_witness :
  let t := MkTask "https://ex.test/b" (Some "https://ex.test/a") 2 in
  let gone := MkResponse 404 "Not Found" "https://ex.test/b" "" in
  let tr := (exec (Example.site (λ _, Ok gone)) 0 (Example.crawl_url t)).1 in
  runs (Example.crawl_url t) tr tt
  ∧ last_get tr = Some (Ok gone)
  ∧ (400 ≤ status_code gone)%Z
  ∧ ∃ origin detail,
      records tr = [(origin, detail)]
      ∧ (origin_url t = None → origin = task_url t)
      ∧ (∀ o, origin_url t = Some o → o ≠ ""%string → origin = o)
      ∧ PyStr.occurs_in (pretty (status_code gone)) detail
      ∧ (Http.raise_for_status gone = None →
         detail = task_url t +:+ " - Status: " +:+ pretty (status_code gone))
      ∧ (∀ e, Http.raise_for_status gone = Some e →
              detail = task_url t +:+ " - Error: " +:+ exn_str e).
Proof.
  intros t gone tr.
  assert (Hrun : runs (Example.crawl_url t) tr tt).
  { exact (exec_runs (Example.site (λ _, Ok gone)) (Example.crawl_url t) 0). }
  assert (Hlast : last_get tr = Some (Ok gone)) by (by vm_compute).
  assert (Hstatus : (400 ≤ status_code gone)%Z) by (simpl; lia).
  split; [exact Hrun|]. split; [exact Hlast|]. split; [exact Hstatus|].
  exact (C2_error_status_recorded_once Example.urlparse Example.urljoin
           Example.find_all_a_href "ex.test" Http.MAX_WORKERS 3 t tr gone
           Hrun Hlast Hstatus).
Defined.

(** The two shapes of the record: a 404 is reported with the text of the
    [HTTPError], a status the requests library does not raise on (here 600)
    with [Status:]. *)
Example error_status_records :
  let t := MkTask "https://ex.test/b" (Some "https://ex.test/a") 2 in
  records (exec (Example.site (λ u, Example.page 404 "Not Found" u "")) 0
             (Example.crawl_url t)).1
  = [("https://ex.test/a"%string,
      "https://ex.test/b - Error: 404 Client Error: Not Found for url: https://ex.test/b"%string)]
  ∧ records (exec (Example.site (λ u, Example.page 600 "" u "")) 0
               (Example.crawl_url t)).1
    = [("https://ex.test/a"%string, "https://ex.test/b - Status: 600"%string)].
Proof. by vm_compute. Qed.

Lemma scan_links_reports
    (urlparse : string → result parsed_url)
    (urljoin : string → string → result string) url hrefs :
  ∀ acc tr res,
    runs (Http.scan_links urlparse urljoin url hrefs acc) tr res →
    Forall report_event tr.
Proof.
  induction hrefs as [|href rest IH]; intros acc tr res Hrun; simpl in Hrun.
  - inv_runs. constructor.
  - destruct (Http.is_mailto_link href); [by eapply IH|].
    destruct (Http.is_tel_link href); [by eapply IH|].
    destruct (urljoin url href) as [a|e]; [|inv_runs; constructor].
    destruct (Http.is_valid_url urlparse a); [by eapply IH|].
    inv_runs. repeat constructor. by eapply IH.
Qed.

Lemma visited_checks_app tr1 tr2 :
  visited_checks (tr1 ++ tr2) = visited_checks tr1 ++ visited_checks tr2.
Proof. apply omap_app. Qed.

Lemma claim_attempts_app tr1 tr2 :
  claim_attempts (tr1 ++ tr2) = claim_attempts tr1 ++ claim_attempts tr2.
Proof. apply omap_app. Qed.

Lemma fetch_events_no_dispatch url tr :
  Forall (fetch_event url) tr →
  submitted tr = [] ∧ visited_checks tr = [] ∧ claim_attempts tr = [].
Proof.
  intros H. repeat split;
    (eapply omap_nil_Forall; [|exact H]); by intros [[]|[]| | | |].
Qed.

Lemma report_events_no_dispatch tr :
  Forall report_event tr →
  submitted tr = [] ∧ visited_checks tr = [] ∧ claim_attempts tr = [].
Proof.
  intros H. repeat split;
    (eapply omap_nil_Forall; [|exact H]); by intros [[]|[]| | | |].
Qed.

Lemma quiet_no_claim tr : Forall quiet tr → claim_attempts tr = [].
Proof. apply omap_nil_Forall. by intros [|[]| | | |]. Qed.

Lemma map_fst_pair {A B} (b : B) (l : list A) :
  map fst (map (λ a, (a, b)) l) = l.
Proof. induction l as [|a l IH]; [done|]. simpl. by rewrite IH. Qed.

(** C3 as stated fails, in four ways.  A page answered with status 201
    lies in 200..399 and parses, yet [crawl_url] looks at status 200 only:
    its one valid link is neither tested against the visited set nor
    submitted.  On pages answered with status 200: a valid link to a URL
    that is already in the visited set (here the link of a page back to
    the page that led to it) is tested and not submitted; an href on which
    [urljoin] raises ends the scan, so that the valid link found before it
    is neither tested nor submitted and the page itself is recorded as
    broken; and a call with [max_workers = 0] cannot create its executor,
    submits nothing and records the page as broken. *)
Lemma C3_counterexample :
  let created := MkResponse 201 "Created" "https://ex.test/" "http://ex.test/a" in
  let tr := (exec (Example.site (λ _, Ok created)) 0
               (Example.crawl_url Example.seed)).1 in
  let back_linked (url : string) :=
    if String.eqb url "https://ex.test/"
    then Example.page 200 "OK" url "http://ex.test/a"
    else Example.page 200 "OK" url "https://ex.test/" in
  let w := Pool.run (Example.site back_linked) Example.crawl_url
             Http.MAX_WORKERS
             (replicate 12 0 ++ replicate 16 1 ++ replicate 3 0)
             (Pool.initial Example.seed) in
  let broken := MkResponse 200 "OK" "https://ex.test/"
                  "http://ex.test/a http://[bad" in
  let tr_raise := (exec (Example.site (λ _, Ok broken)) 0
                     (Example.crawl_url Example.seed)).1 in
  let linked := MkResponse 200 "OK" "https://ex.test/" "http://ex.test/a" in
  let no_workers :=
    Http.crawl_url Example.urlparse Example.urljoin Example.find_all_a_href
      "ex.test" 0 3 in
  let tr_workers := (exec (Example.site (λ _, Ok linked)) 0
                       (no_workers Example.seed)).1 in
  ((200 ≤ status_code created ≤ 399)%Z
   ∧ Example.find_all_a_href (content created) = Ok ["http://ex.test/a"%string]
   ∧ crawlable "http://ex.test/a" = true
   ∧ Example.urljoin "https://ex.test/" "http://ex.test/a" = Ok "http://ex.test/a"%string
   ∧ Http.is_valid_url Example.urlparse "http://ex.test/a" = true
   ∧ runs (Example.crawl_url Example.seed) tr tt
   ∧ last_get tr = Some (Ok created)
   ∧ visited_checks tr = [] ∧ submitted tr = [] ∧ records tr = [])
  ∧ (Pool.finished w = true
     ∧ length (Pool.threads w) = 2
     ∧ last_get (Pool.events_of 1 (Pool.log w))
       = Some (Example.page 200 "OK" "http://ex.test/a" "https://ex.test/")
     ∧ Example.urljoin "http://ex.test/a" "https://ex.test/"
       = Ok "https://ex.test/"%string
     ∧ Http.is_valid_url Example.urlparse "https://ex.test/" = true
     ∧ visited_checks (Pool.events_of 1 (Pool.log w))
       = [("https://ex.test/"%string, true)]
     ∧ submitted (Pool.events_of 1 (Pool.log w)) = []
     ∧ records (actions (Pool.log w)) = [])
  ∧ (runs (Example.crawl_url Example.seed) tr_raise tt
     ∧ last_get tr_raise = Some (Ok broken)
     ∧ Example.find_all_a_href (content broken)
       = Ok ["http://ex.test/a"%string; "http://[bad"%string]
     ∧ Example.urljoin "https://ex.test/" "http://[bad"
       = Raise (MkExn ExValueError "Invalid IPv6 URL")
     ∧ visited_checks tr_raise = [] ∧ submitted tr_raise = []
     ∧ records tr_raise
       = [("https://ex.test/"%string,
           "https://ex.test/ - Error: Invalid IPv6 URL"%string)])
  ∧ (runs (no_workers Example.seed) tr_workers tt
     ∧ last_get tr_workers = Some (Ok linked)
     ∧ visited_checks tr_workers = [] ∧ submitted tr_workers = []
     ∧ records tr_workers
       = [("https://ex.test/"%string,
           "https://ex.test/ - Error: max_workers must be greater than 0"%string)]).
Proof.
  intros created tr back_linked w broken tr_raise linked no_workers
    tr_workers.
  split; [|split; [|split]].
  - split; [simpl; lia|].
    do 4 (split; [vm_compute; reflexivity|]).
    split.
    { exact (exec_runs (Example.site (λ _, Ok created))
               (Example.crawl_url Example.seed) 0). }
    repeat split; vm_compute; reflexivity.
  - repeat split; vm_compute; reflexivity.
  - split.
    { exact (exec_runs (Example.site (λ _, Ok broken))
               (Example.crawl_url Example.seed) 0). }
    repeat split; vm_compute; reflexivity.
  - split.
    { exact (exec_runs (Example.site (λ _, Ok linked))
               (no_workers Example.seed) 0). }
    repeat split; vm_compute; reflexivity.
Qed.

(** C3, amended. Whenever a call of [crawl_url] ends its fetch on a
    response with status exactly 200 whose body parses, [urljoin] raises on
    no href of the page that is neither [mailto:] nor [tel:], and
    [max_workers] is positive, then, with [resolved] the resolutions in
    page order: the syntactically invalid ones are recorded as broken, in
    order, with the page as origin and detail [Invalid URL: <resolved>];
    the valid ones are tested against the visited set, in order, and each
    one not yet in the set is submitted as a call with the page as origin
    at depth + 1; the call then waits for the submitted calls. *)
Theorem C3_page_with_status_200_is_expanded
    (urlparse : string → result parsed_url)
    (urljoin : string → string → result string)
    (find_all_a_href : string → result (list string))
    (target_domain : string) (max_workers max_depth : Z) (t : task)
    (tr : list event) (r : response) (hrefs resolved : list string) :
  runs (Http.crawl_url urlparse urljoin find_all_a_href target_domain
          max_workers max_depth t) tr tt →
  last_get tr = Some (Ok r) →
  status_code r = 200%Z →
  find_all_a_href (content r) = Ok hrefs →
  Forall2 (λ href a, urljoin (task_url t) href = Ok a)
    (List.filter crawlable hrefs) resolved →
  (0 < max_workers)%Z →
  let valid := List.filter (Http.is_valid_url urlparse) resolved in
  let invalid :=
    List.filter (λ a, negb (Http.is_valid_url urlparse a)) resolved in
  records tr = map (λ a, (task_url t, "Invalid URL: " +:+ a)) invalid
  ∧ (∃ seen, length seen = length valid
             ∧ visited_checks tr = zip valid seen
             ∧ submitted tr
               = dispatched (current_depth t)
                   (map (λ a, (a, task_url t)) valid) seen)
  ∧ claim_attempts tr = [task_url t]
  ∧ fetches tr = replicate (length (fetches tr)) (task_url t)
  ∧ last tr = Some (EvDo WaitAll).
Proof.
  intros Hrun Hlast Hstatus Hparse Hres Hworkers valid invalid.
  destruct (http_crawl_url_fetched _ _ _ _ _ _ _ _ _ _ Hrun Hlast)
    as (tr1 & fetched & tr2 & out & tr3 & -> & Hf & Hout & Hl1 & H2 & H3).
  assert (fetched = Ok (Some r)) as ->.
  { destruct fetched as [[r'|]|e]; simpl in Hout.
    - destruct Hout as [Hl _]. rewrite Hl in Hl1. by simplify_eq.
    - subst tr1. discriminate.
    - destruct Hout as [Hl | (r' & Hl & Hrfs)]; rewrite Hl in Hl1;
        simplify_eq.
      apply raise_for_status_message in Hrfs as [? _]. lia. }
  unfold Http.on_fetched in H2. rewrite Hstatus, Hparse in H2. simpl in H2.
  apply runs_bind_inv in H2 as (trs & scanned & tr2' & -> & Hscan & H2).
  pose proof (scan_links_reports _ _ _ _ _ _ _ Hscan) as Hreports.
  destruct (scan_links_resolved _ _ _ _ _ _ _ _ Hres Hscan) as [-> Hrec].
  replace (max_workers <=? 0)%Z with false in H2 by lia.
  apply runs_bind_inv in H2 as (trd & ? & trw & -> & Hsub & H2).
  inv_runs.
  destruct (submit_links_runs _ _ _ _ Hsub)
    as (Hq & Hr & seen & Hlen & Hchecks & Hdisp).
  destruct (fetch_events_no_dispatch _ _ Hf) as (Hs1 & Hv1 & Hc1).
  destruct (report_events_no_dispatch _ Hreports) as (Hs2 & Hv2 & Hc2).
  simpl in Hlen, Hchecks, Hdisp.
  rewrite length_map in Hlen. rewrite map_fst_pair in Hchecks.
  repeat split.
  - change (records (tr1 ++ (trs ++ trd ++ [EvDo WaitAll]) ++ [])
            = map (λ a, (task_url t, "Invalid URL: " +:+ a)) invalid).
    rewrite (records_quiet_fetch (task_url t)) by done.
    rewrite !records_app, Hrec, Hr. simpl. by rewrite !app_nil_r.
  - exists seen. split; [done|]. split.
    + change (visited_checks (tr1 ++ (trs ++ trd ++ [EvDo WaitAll]) ++ [])
              = zip valid seen).
      rewrite !visited_checks_app, Hv1, Hv2, Hchecks. simpl.
      by rewrite !app_nil_r.
    + change (submitted (tr1 ++ (trs ++ trd ++ [EvDo WaitAll]) ++ [])
              = dispatched (current_depth t)
                  (map (λ a, (a, task_url t)) valid) seen).
      rewrite !submitted_app, Hs1, Hs2, Hdisp. simpl. by rewrite !app_nil_r.
  - change (task_url t
            :: claim_attempts (tr1 ++ (trs ++ trd ++ [EvDo WaitAll]) ++ [])
            = [task_url t]).
    rewrite !claim_attempts_app, Hc1, Hc2, (quiet_no_claim trd) by done.
    done.
  - change (fetches (tr1 ++ (trs ++ trd ++ [EvDo WaitAll]) ++ [])
            = replicate
                (length (fetches (tr1 ++ (trs ++ trd ++ [EvDo WaitAll]) ++ [])))
                (task_url t)).
    rewrite !fetches_app, (fetches_quiet trd) by done.
    rewrite (fetches_quiet trs)
      by (eapply Forall_impl; [exact Hreports|]; by intros [[]|[]| | | |]).
    simpl. rewrite !app_nil_r. clear -Hf.
    induction Hf as [|e l He _ IH]; [done|].
    destruct e as [[]|[]| | | |]; simpl in *; try done. by rewrite He, <- IH.
  - rewrite app_nil_r, !app_comm_cons, !app_assoc. apply last_snoc.
Qed.

Lemma C3_witness :
  let home := MkResponse 200 "OK" "https://ex.test/"
    "mailto:x@ex.test http://ex.test/a javascript:void(0) tel:+441234567" in
  let hrefs := ["mailto:x@ex.test"; "http://ex.test/a"; "javascript:void(0)";
                "tel:+441234567"]%string in
  let resolved := ["http://ex.test/a"; "javascript:void(0)"]%string in
  let tr := (exec (Example.site (λ _, Ok home)) 0
               (Example.crawl_url Example.seed)).1 in
  (runs (Example.crawl_url Example.seed) tr tt
   ∧ last_get tr = Some (Ok home)
   ∧ status_code home = 200%Z
   ∧ Example.find_all_a_href (content home) = Ok hrefs
   ∧ Forall2 (λ href a, Example.urljoin "https://ex.test/" href = Ok a)
       (List.filter crawlable hrefs) resolved
   ∧ (0 < Http.MAX_WORKERS)%Z)
  ∧ records tr
    = [("https://ex.test/"%string, "Invalid URL: javascript:void(0)"%string)]
  ∧ submitted tr = [MkTask "http://ex.test/a" (Some "https://ex.test/") 1].
Proof.
  intros home hrefs resolved tr.
  assert (Hrun : runs (Example.crawl_url Example.seed) tr tt).
  { exact (exec_runs (Example.site (λ _, Ok home))
             (Example.crawl_url Example.seed) 0). }
  assert (Hlast : last_get tr = Some (Ok home)) by (by vm_compute).
  assert (Hstatus : status_code home = 200%Z) by reflexivity.
  assert (Hparse : Example.find_all_a_href (content home) = Ok hrefs)
    by (by vm_compute).
  assert (Hres : Forall2
            (λ href a, Example.urljoin "https://ex.test/" href = Ok a)
            (List.filter crawlable hrefs) resolved).
  { vm_compute List.filter. repeat constructor. }
  assert (Hworkers : (0 < Http.MAX_WORKERS)%Z) by (vm_compute; reflexivity).
  split; [repeat split; assumption|].
  pose proof (C3_page_with_status_200_is_expanded Example.urlparse
                Example.urljoin Example.find_all_a_href "ex.test"
                Http.MAX_WORKERS 3 Example.seed tr home hrefs resolved
                Hrun Hlast Hstatus Hparse Hres Hworkers) as [Hrec _].
  split; [exact Hrec|]. by vm_compute.
Defined.

(* ===================================================================== *)
(** ** Links that are never followed *)
(* ===================================================================== *)

(** An anchor of the rendered page whose href is a [mailto:] link. *)
Lemma selenium_scan_links_skips_mailto
    (urlparse : string → result parsed_url)
    (urljoin : string → string → result string) url href rest acc :
  Http.is_mailto_link href = true →
  Selenium.scan_links urlparse urljoin url (MkElement (Ok (Some href)) :: rest)
    acc
  = Selenium.scan_links urlparse urljoin url rest acc.
Proof.
  intros Hm. simpl. rewrite Hm. by destruct (PyStr.truthy href).
Qed.

(** C5 fails on [crawler_selenium.py].  In [crawler.py] the scan of a page
    is the scan of the page without its [mailto:] and [tel:] hrefs, so such
    an href is never resolved, recorded or submitted (and only submitted
    links are ever claimed or loaded).  [crawler_selenium.py] skips
    [mailto:] hrefs in the same way but has no test for [tel:]: a [tel:]
    href is resolved, found to have no netloc, and recorded as broken. *)
Theorem C5_selenium_records_tel_links :
  (∀ urlparse urljoin url hrefs acc,
     Http.scan_links urlparse urljoin url hrefs acc
     = Http.scan_links urlparse urljoin url (List.filter crawlable hrefs) acc)
  ∧ (∀ urlparse urljoin url href rest acc,
       Http.is_mailto_link href = true →
       Selenium.scan_links urlparse urljoin url
         (MkElement (Ok (Some href)) :: rest) acc
       = Selenium.scan_links urlparse urljoin url rest acc)
  ∧ (let phone := "tel:+441234567"%string in
     let seed := MkTask "https://www.rbo.org.uk/" None 0 in
     let tr := (exec (Example.browser [MkElement (Ok (Some phone))]) 0
                  (Selenium.crawl_url Example.urlparse Example.urljoin 5 3
                     seed)).1 in
     Http.is_tel_link phone = true
     ∧ crawlable phone = false
     ∧ records tr
       = [("https://www.rbo.org.uk/"%string,
           "Invalid URL: tel:+441234567"%string)]).
Proof.
  split; [|split].
  - intros. apply scan_links_skips.
  - intros. by apply selenium_scan_links_skips_mailto.
  - by vm_compute.
Qed.

(** The same page in [crawler.py]: nothing is recorded. *)
Example http_skips_tel_links :
  let home := MkResponse 200 "OK" "https://ex.test/"
                "tel:+441234567 MAILTO:x@ex.test" in
  let tr := (exec (Example.site (λ _, Ok home)) 0
               (Example.crawl_url Example.seed)).1 in
  records tr = [] ∧ submitted tr = [] ∧ visited_checks tr = [].
Proof. by vm_compute. Qed.

(* ===================================================================== *)
(** ** The broken-link sink *)
(* ===================================================================== *)

(** C10. A page answered with status 200 that carries the invalid href
    [javascript:void(0)] twice: when the crawl is over, the output file has
    the line twice and the console echoes it twice, while [broken_links]
    has one element.  In general the record action appends the line whether
    or not the pair is already in the set. *)
Theorem C10_duplicate_discovery_written_twice :
  let home := MkResponse 200 "OK" "https://ex.test/"
                "javascript:void(0) javascript:void(0)" in
  let line := "{https://ex.test/ >> Invalid URL: javascript:void(0)}"%string in
  let w := Pool.run (Example.site (λ _, Ok home)) Example.crawl_url
             Http.MAX_WORKERS Example.alone (Pool.initial Example.seed) in
  (http_main Example.urlparse Example.urljoin Example.find_all_a_href
     (Example.site (λ _, Ok home)) "https://ex.test/" Example.alone = Some w
   ∧ Pool.finished w = true
   ∧ Example.find_all_a_href (content home)
     = Ok ["javascript:void(0)"; "javascript:void(0)"]%string
   ∧ Http.is_valid_url Example.urlparse "javascript:void(0)" = false
   ∧ Pool.output_file w = [line; line]
   ∧ List.filter (String.eqb line) (Pool.console w) = [line; line]
   ∧ Pool.broken_links w
     = {[ ("https://ex.test/"%string,
           "Invalid URL: javascript:void(0)"%string) ]}
   ∧ size (Pool.broken_links w) = 1)
  ∧ (∀ i origin detail w,
       (origin, detail) ∈ Pool.broken_links w →
       let w' := Pool.exec_cmd i (RecordBroken origin detail) w in
       Pool.broken_links w' = Pool.broken_links w
       ∧ Pool.output_file w'
         = Pool.output_file w ++ [Pool.broken_link_line origin detail]
       ∧ Pool.console w'
         = Pool.console w ++ [Pool.broken_link_line origin detail]).
Proof.
  intros home line w. split.
  - repeat split; vm_compute; reflexivity.
  - intros i origin detail w0 Hin. simpl. repeat split.
    apply set_eq. intros x. rewrite elem_of_union, elem_of_singleton.
    split; [by intros [->|]|by right].
Qed.

(* ===================================================================== *)
(** ** The visited registry over a whole run *)
(* ===================================================================== *)

Lemma fetchers_single_load u j e : is_load u e → Pool.fetchers u [(j, e)] = [j].
Proof.
  intros H. unfold Pool.fetchers.
  destruct e; try done; simpl in *; subst; by rewrite bool_decide_eq_true_2.
Qed.

Lemma fetchers_single_other u j e :
  ¬ is_load u e → Pool.fetchers u [(j, e)] = [].
Proof.
  intros H. unfold Pool.fetchers.
  destruct e; try done; simpl in *; by rewrite bool_decide_eq_false_2.
Qed.

Lemma is_load_dec u e : is_load u e ∨ ¬ is_load u e.
Proof.
  destruct e as [c|q b|v o|o|v o|o]; simpl;
    [right; tauto | right; tauto | | right; tauto | | right; tauto];
    destruct (decide (v = u)); eauto.
Qed.

Lemma fetches_load u e tr : is_load u e → fetches (e :: tr) = u :: fetches tr.
Proof. destruct e; try done; simpl; by intros ->. Qed.

Lemma fetches_cons_le e tr : length (fetches tr) ≤ length (fetches (e :: tr)).
Proof. destruct e; simpl; lia. Qed.

(** When every load of [u] is made by thread [i], there are no more loads
    of [u] than loads made by [i]. *)
Lemma fetchers_length_le u i l :
  (∀ j, j ∈ Pool.fetchers u l → j = i) →
  length (Pool.fetchers u l) ≤ length (fetches (Pool.events_of i l)).
Proof.
  induction l as [|[j e] l IH]; intros Hall; [done|].
  change ((j, e) :: l) with ([(j, e)] ++ l) in *.
  rewrite fetchers_app, events_of_app, length_app.
  assert (Hl : length (Pool.fetchers u l)
               ≤ length (fetches (Pool.events_of i l))).
  { apply IH. intros j' Hj'. apply Hall. rewrite fetchers_app.
    apply elem_of_app. by right. }
  destruct (is_load_dec u e) as [Hload|Hnot].
  - assert (j = i) as ->.
    { apply Hall. rewrite fetchers_app, fetchers_single_load by done.
      apply elem_of_app. left. by left. }
    rewrite fetchers_single_load, events_of_own by done.
    change (fetches ([e] ++ Pool.events_of i l))
      with (fetches (e :: Pool.events_of i l)).
    rewrite (fetches_load u) by done. simpl. lia.
  - rewrite fetchers_single_other by done.
    destruct (decide (j = i)) as [->|Hne].
    + rewrite events_of_own. etrans; [exact Hl|].
      apply (fetches_cons_le e).
    + rewrite events_of_other by done. exact Hl.
Qed.

(** Every world the pool reaches from [main]'s first call is deduplicated,
    for any function that claims before it loads. *)
Lemma invariant_deduplicated body budget w :
  (∀ t tr u, runs (body t) tr u →
             well_claimed t tr ∧ length (fetches tr) ≤ budget) →
  ∀ env : oracle, invariant body w → deduplicated budget w.
Proof.
  intros Hbody env Hinv.
  assert (Hsingle : single_fetcher w).
  { intros u i j Hi Hj.
    apply (fetchers_claimers body w u _ Hinv) in Hi, Hj.
    pose proof (inv_claim_once body w Hinv u) as Hlen.
    destruct (Pool.claimers u (Pool.log w)) as [|x [|y l]];
      [inversion Hi| |simpl in Hlen; lia].
    apply list_elem_of_singleton in Hi, Hj. congruence. }
  split; [exact (inv_claim_once body w Hinv)|].
  split; [|split; [exact (inv_claim_first body w Hinv)|split; [done|]]].
  - intros u. pose proof (inv_claim_once body w Hinv u) as Hlen. split.
    + intros Hu. destruct (inv_visited_claimed body w Hinv u Hu) as [i Hi].
      destruct (Pool.claimers u (Pool.log w)) as [|x [|y l]];
        [inversion Hi|eauto|simpl in Hlen; lia].
    + intros [i Hi]. apply (inv_claimed_visited body w Hinv u i).
      rewrite Hi. by left.
  - intros u.
    destruct (Pool.fetchers u (Pool.log w)) as [|i l] eqn:Hf; [simpl; lia|].
    rewrite <- Hf. etrans.
    + apply (fetchers_length_le u i). intros j Hj. apply (Hsingle u); [done|].
      rewrite Hf. by left.
    + by apply (thread_budget env body budget Hbody).
Qed.

(** The same for every run of the pool from the first call. *)
Lemma run_deduplicated (env : oracle) body budget max_workers root schedule :
  (∀ t tr u, runs (body t) tr u →
             well_claimed t tr ∧ length (fetches tr) ≤ budget) →
  deduplicated budget
    (Pool.run env body max_workers schedule (Pool.initial root)).
Proof.
  intros Hbody. apply (invariant_deduplicated body _ _ Hbody env).
  apply (invariant_run env body max_workers _ Hbody), invariant_initial.
Qed.

(** C4. In every state a run of either script reaches from [main]'s first
    call, under every schedule and whatever the servers answer: for every
    URL the check-and-insert has succeeded at most once; the visited set
    is exactly the set of URLs claimed; every load of a URL comes after the
    successful claim of that URL by the same thread, so no two calls load
    the same URL, and the URL is requested at most once by the browser and
    at most [MAX_RETRIES] times (the attempts of one fetch) by the HTTP
    client; and the visited set never loses a URL as the run goes on. *)
Theorem C4_every_url_claimed_once
    (urlparse : string → result parsed_url)
    (urljoin : string → string → result string)
    (find_all_a_href : string → result (list string))
    (env : oracle) (target_domain : string)
    (max_workers max_depth : Z) (root : task) (schedule : list nat) :
  let http := Http.crawl_url urlparse urljoin find_all_a_href target_domain
                max_workers max_depth in
  let selenium := Selenium.crawl_url urlparse urljoin max_workers max_depth in
  let w_http := Pool.run env http max_workers schedule (Pool.initial root) in
  let w_selenium :=
    Pool.run env selenium max_workers schedule (Pool.initial root) in
  (deduplicated (Z.to_nat Http.MAX_RETRIES) w_http
   ∧ ∀ more, Pool.visited w_http
             ⊆ Pool.visited (Pool.run env http max_workers more w_http))
  ∧ (deduplicated 1 w_selenium
     ∧ ∀ more, Pool.visited w_selenium
               ⊆ Pool.visited
                   (Pool.run env selenium max_workers more w_selenium)).
Proof.
  intros http selenium w_http w_selenium.
  split; (split; [|intros more; apply visited_run]).
  - apply run_deduplicated. intros t tr u.
    apply http_crawl_url_well_claimed.
  - apply run_deduplicated. intros t tr u.
    apply selenium_crawl_url_well_claimed.
Qed.

(** The runs [main] starts, in both scripts. *)
Corollary main_deduplicated urlparse urljoin find_all_a_href env schedule :
  (∀ start_url w,
     http_main urlparse urljoin find_all_a_href env start_url schedule
     = Some w →
     deduplicated (Z.to_nat Http.MAX_RETRIES) w)
  ∧ deduplicated 1 (selenium_main urlparse urljoin env schedule).
Proof.
  split.
  - intros start_url w. unfold http_main.
    destruct (urlparse start_url) as [parsed|]; [|done]. intros [= <-].
    apply run_deduplicated. intros t tr u.
    apply http_crawl_url_well_claimed.
  - apply run_deduplicated. intros t tr u.
    apply selenium_crawl_url_well_claimed.
Qed.

(** Two calls racing on one URL: the seed page links twice to the same
    page, both links pass the test before the submit, and of the two calls
    only the first to reach the check-and-insert claims and loads it. *)
Example race_on_one_url :
  let w := Pool.run (Example.site Example.twice_linked) Example.crawl_url
             Http.MAX_WORKERS Example.racing (Pool.initial Example.seed) in
  Pool.finished w = true
  ∧ length (Pool.threads w) = 3
  ∧ Pool.events_of 2 (Pool.log w) = [EvAsk (TryClaim "http://ex.test/a") false]
  ∧ Pool.claimers "http://ex.test/a" (Pool.log w) = [1]
  ∧ Pool.fetchers "http://ex.test/a" (Pool.log w) = [1].
Proof. repeat split; vm_compute; reflexivity. Qed.

(* ===================================================================== *)
(** ** More on the URL classifier *)
(* ===================================================================== *)

Lemma lower_app (a b : string) :
  PyStr.lower (a +:+ b) = PyStr.lower a +:+ PyStr.lower b.
Proof.
  induction a as [|c a IH]; [done|].
  rewrite append_cons. simpl. by rewrite IH.
Qed.

Lemma lower_ascii_idemp (c : ascii) :
  PyStr.lower_ascii (PyStr.lower_ascii c) = PyStr.lower_ascii c.
Proof. destruct c as [[] [] [] [] [] [] [] []]; reflexivity. Qed.

Lemma lower_idemp (s : string) : PyStr.lower (PyStr.lower s) = PyStr.lower s.
Proof.
  induction s as [|c s IH]; [done|]. simpl. by rewrite lower_ascii_idemp, IH.
Qed.

Lemma lower_split (s a b : string) :
  PyStr.lower s = a +:+ b →
  ∃ p rest, s = p +:+ rest ∧ PyStr.lower p = a ∧ PyStr.lower rest = b.
Proof.
  revert s; induction a as [|c a IH]; intros s H.
  - by exists ""%string, s.
  - destruct s as [|c' s]; [discriminate|].
    rewrite append_cons in H. simpl in H. injection H as Hc Hs.
    destruct (IH _ Hs) as (p & rest & -> & <- & <-).
    exists (String c' p), rest. rewrite append_cons. simpl. by rewrite Hc.
Qed.

(** A string starts with [prefix] up to the case of ASCII letters. *)
Lemma startswith_lower_iff (url prefix : string) :
  PyStr.startswith (PyStr.lower url) (PyStr.lower prefix) = true
  ↔ ∃ p rest, url = p +:+ rest ∧ PyStr.lower p = PyStr.lower prefix.
Proof.
  unfold PyStr.startswith. rewrite prefix_app. split.
  - intros [post H]. apply lower_split in H as (p & rest & -> & ? & _). eauto.
  - intros (p & rest & -> & H). exists (PyStr.lower rest).
    by rewrite lower_app, H.
Qed.

(** X1. [is_mailto_link] and [is_tel_link] hold exactly of the strings that
    begin with some spelling, in upper or lower case letters, of [mailto:]
    and of [tel:]; they do not depend on the case of the string, and no
    string satisfies both. *)
Theorem X1_scheme_tests_ignore_case (url : string) :
  (Http.is_mailto_link url = true
   ↔ ∃ p rest, url = p +:+ rest ∧ PyStr.lower p = "mailto:"%string)
  ∧ (Http.is_tel_link url = true
     ↔ ∃ p rest, url = p +:+ rest ∧ PyStr.lower p = "tel:"%string)
  ∧ Http.is_mailto_link (PyStr.lower url) = Http.is_mailto_link url
  ∧ Http.is_tel_link (PyStr.lower url) = Http.is_tel_link url
  ∧ Http.is_mailto_link url && Http.is_tel_link url = false.
Proof.
  unfold Http.is_mailto_link, Http.is_tel_link.
  split; [apply (startswith_lower_iff url "mailto:")|].
  split; [apply (startswith_lower_iff url "tel:")|].
  rewrite lower_idemp. split; [done|]. split; [done|].
  unfold PyStr.startswith.
  destruct (String.prefix "mailto:" (PyStr.lower url)) eqn:Hm; [|done].
  destruct (String.prefix "tel:" (PyStr.lower url)) eqn:Ht; [|done].
  apply prefix_app in Hm as [x Hx]. apply prefix_app in Ht as [y Hy].
  rewrite Hx in Hy. discriminate Hy.
Qed.

(* ===================================================================== *)
(** ** The schedule of the retry loop *)
(* ===================================================================== *)

Lemma backoff_seq_shift (attempt : Z) (k : nat) :
  map (λ i, inject_Z (2 ^ (attempt + Z.of_nat i))) (seq 0 (S k))
  = inject_Z (2 ^ attempt)
    :: map (λ i, inject_Z (2 ^ (attempt + 1 + Z.of_nat i))) (seq 0 k).
Proof.
  simpl. rewrite Z.add_0_r. f_equal.
  rewrite <- seq_shift, map_map. apply map_ext. intros i.
  do 2 f_equal. lia.
Qed.

Lemma fetch_attempts_schedule url retries remaining :
  ∀ attempt tr res,
    (retries - attempt = Z.of_nat remaining)%Z →
    runs (Http.fetch_attempts url retries attempt remaining) tr res →
    backoffs tr
    = map (λ i, inject_Z (2 ^ (attempt + Z.of_nat i)))
        (seq 0 (length (fetches tr) - 1))
    ∧ rate_limit_sleeps tr = length (fetches tr)
    ∧ length (fetches tr) ≤ remaining
    ∧ (remaining ≠ 0 → 1 ≤ length (fetches tr))
    ∧ (∀ e, res = Raise e → is_request_exception e = true →
            length (fetches tr) = remaining).
Proof.
  induction remaining as [|n IH]; intros attempt tr res Hsum Hrun.
  - simpl in Hrun. inv_runs. by repeat split.
  - simpl in Hrun. inv_runs.
    assert (Hstop : ∀ res0 : result (option response),
      ((attempt <? retries - 1)%Z = false ∨
       ∀ e, res0 = Raise e → is_request_exception e = false) →
      backoffs [EvDo (Sleep (Uniform Http.MIN_DELAY Http.MAX_DELAY));
                EvHttpGet url o] = []
      ∧ rate_limit_sleeps [EvDo (Sleep (Uniform Http.MIN_DELAY Http.MAX_DELAY));
                           EvHttpGet url o] = 1
      ∧ 1 ≤ S n ∧ (S n ≠ 0 → 1 ≤ 1)
      ∧ (∀ e, res0 = Raise e → is_request_exception e = true → 1 = S n)).
    { intros res0 Hlast. repeat split; try done; try lia.
      intros e -> He. destruct Hlast as [Hlt|Hno]; [lia|].
      rewrite (Hno e eq_refl) in He. discriminate. }
    assert (Hnext : (attempt <? retries - 1)%Z = true →
      ∀ s tr', runs (Http.fetch_attempts url retries (attempt + 1) n) tr' res →
        let tr := EvDo (Sleep (Uniform Http.MIN_DELAY Http.MAX_DELAY))
                  :: EvHttpGet url o :: EvDo (Print s)
                  :: EvDo (Sleep (Seconds (inject_Z (2 ^ attempt)))) :: tr' in
        backoffs tr
        = map (λ i, inject_Z (2 ^ (attempt + Z.of_nat i)))
            (seq 0 (length (fetches tr) - 1))
        ∧ rate_limit_sleeps tr = length (fetches tr)
        ∧ length (fetches tr) ≤ S n
        ∧ (S n ≠ 0 → 1 ≤ length (fetches tr))
        ∧ (∀ e, res = Raise e → is_request_exception e = true →
                length (fetches tr) = S n)).
    { intros Hlt s tr' Hrun' tr0. apply Z.ltb_lt in Hlt.
      destruct (IH (attempt + 1)%Z tr' res ltac:(lia) Hrun')
        as (Hb & Hr & Hle & Hpos & Hall).
      specialize (Hpos ltac:(lia)).
      change (length (fetches tr0)) with (S (length (fetches tr'))).
      change (backoffs tr0) with (inject_Z (2 ^ attempt) :: backoffs tr').
      change (rate_limit_sleeps tr0) with (S (rate_limit_sleeps tr')).
      replace (S (length (fetches tr')) - 1)
        with (S (length (fetches tr') - 1)) by lia.
      rewrite backoff_seq_shift, Hb, Hr.
      repeat split; try done; try lia.
      intros e He1 He2. by rewrite (Hall e He1 He2). }
    destruct o as [r|e].
    + destruct (Http.raise_for_status r) as [e|] eqn:Hrfs.
      * destruct (is_requests_timeout e) eqn:Ht;
          [|destruct (is_request_exception e) eqn:Hr];
          try destruct (attempt <? retries - 1)%Z eqn:Hlt;
          inv_runs; try (by eapply Hnext);
          apply Hstop; eauto.
        right. by intros ? [= <-].
      * inv_runs. apply Hstop. right. discriminate.
    + destruct (is_requests_timeout e) eqn:Ht;
        [|destruct (is_request_exception e) eqn:Hr];
        try destruct (attempt <? retries - 1)%Z eqn:Hlt;
        inv_runs; try (by eapply Hnext);
        apply Hstop; eauto.
      right. by intros ? [= <-].
Qed.

(** The trace of the loop, pass by pass. *)
Lemma fetch_attempts_shape url retries remaining :
  ∀ (n : nat) tr res,
    (retries - Z.of_nat n = Z.of_nat remaining)%Z →
    runs (Http.fetch_attempts url retries (Z.of_nat n) remaining) tr res →
    (remaining = 0 ∧ tr = [] ∧ res = Ok None)
    ∨ ∃ retried final,
        tr = retry_trace url n retried final
        ∧ length retried < remaining
        ∧ Forall (λ a, ∃ e, attempt_outcome a.1 = Raise e
                            ∧ is_request_exception e = true) retried
        ∧ res = match attempt_outcome final with
                | Ok r => Ok (Some r)
                | Raise e => Raise e
                end.
Proof.
  induction remaining as [|m IH]; intros n tr res Hsum Hrun.
  - simpl in Hrun. inv_runs. by left.
  - right. simpl in Hrun. inv_runs.
    assert (Hstop : ∀ res0,
      res0 = match attempt_outcome o with
             | Ok r => Ok (Some r)
             | Raise e => Raise e
             end →
      ∃ retried final,
        [EvDo (Sleep (Uniform Http.MIN_DELAY Http.MAX_DELAY)); EvHttpGet url o]
        = retry_trace url n retried final
        ∧ length retried < S m
        ∧ Forall (λ a, ∃ e, attempt_outcome a.1 = Raise e
                            ∧ is_request_exception e = true) retried
        ∧ res0 = match attempt_outcome final with
                 | Ok r => Ok (Some r)
                 | Raise e => Raise e
                 end).
    { intros res0 ->. exists [], o. repeat split; [simpl; lia|constructor]. }
    assert (Hnext : ∀ e s tr',
      attempt_outcome o = Raise e → is_request_exception e = true →
      (Z.of_nat n <? retries - 1)%Z = true →
      runs (Http.fetch_attempts url retries (Z.of_nat n + 1) m) tr' res →
      ∃ retried final,
        EvDo (Sleep (Uniform Http.MIN_DELAY Http.MAX_DELAY))
        :: EvHttpGet url o :: EvDo (Print s)
        :: EvDo (Sleep (Seconds (inject_Z (2 ^ Z.of_nat n)))) :: tr'
        = retry_trace url n retried final
        ∧ length retried < S m
        ∧ Forall (λ a, ∃ e, attempt_outcome a.1 = Raise e
                            ∧ is_request_exception e = true) retried
        ∧ res = match attempt_outcome final with
                | Ok r => Ok (Some r)
                | Raise e => Raise e
                end).
    { intros e s tr' Hout He Hlt Hrun'. apply Z.ltb_lt in Hlt.
      replace (Z.of_nat n + 1)%Z with (Z.of_nat (S n)) in Hrun' by lia.
      destruct (IH (S n) tr' res ltac:(lia) Hrun')
        as [(-> & _)|(retried & final & -> & Hlen & Hall & Hres)]; [lia|].
      exists ((o, s) :: retried), final.
      split; [done|]. split; [simpl; lia|]. split; [|done].
      constructor; [|done]. by exists e. }
    destruct o as [r|e]; simpl in *.
    + destruct (Http.raise_for_status r) as [e|] eqn:Hrfs.
      * destruct (is_requests_timeout e) eqn:Ht;
          [|destruct (is_request_exception e) eqn:Hr];
          try destruct (Z.of_nat n <? retries - 1)%Z eqn:Hlt;
          inv_runs; try (by apply Hstop);
          eapply Hnext; try done.
        by destruct e as [[] ?].
      * inv_runs. by apply Hstop.
    + destruct (is_requests_timeout e) eqn:Ht;
        [|destruct (is_request_exception e) eqn:Hr];
        try destruct (Z.of_nat n <? retries - 1)%Z eqn:Hlt;
        inv_runs; try (by apply Hstop);
        eapply Hnext; try done.
      by destruct e as [[] ?].
Qed.

(** X2. Every run of [fetch_url_with_retry] with [retries <= 0] does
    nothing and returns [None]; every other run is a sequence of passes of
    the loop, each the rate-limiting sleep immediately followed by the
    request: fewer than [retries] passes are retried, each of them on an
    exception of the requests library (an error status included, which
    [raise_for_status] turns into one), and pass [i] (from 0) is then
    followed by its message and by a back-off sleep of [2^i] seconds; the
    last pass ends with the request, whose outcome is the result of the
    call.  So [k] requests give the back-offs 1, 2, ..., [2^(k-2)], there
    are as many rate-limiting sleeps as requests, at most [retries]
    requests are made, and when the call raises an exception of the
    requests library, exactly [retries] requests were made. *)
Theorem X2_backoff_schedule (url : string) (retries : Z)
    (tr : list event) (res : result (option response)) :
  runs (Http.fetch_url_with_retry url retries) tr res →
  (((retries ≤ 0)%Z ∧ tr = [] ∧ res = Ok None)
   ∨ ∃ retried final,
       tr = retry_trace url 0 retried final
       ∧ (Z.of_nat (length retried) < retries)%Z
       ∧ Forall (λ a, ∃ e, attempt_outcome a.1 = Raise e
                           ∧ is_request_exception e = true) retried
       ∧ res = match attempt_outcome final with
               | Ok r => Ok (Some r)
               | Raise e => Raise e
               end)
  ∧ backoffs tr
    = map (λ i, inject_Z (2 ^ Z.of_nat i)) (seq 0 (length (fetches tr) - 1))
  ∧ rate_limit_sleeps tr = length (fetches tr)
  ∧ length (fetches tr) ≤ Z.to_nat retries
  ∧ (∀ e, res = Raise e → is_request_exception e = true →
          Z.of_nat (length (fetches tr)) = retries).
Proof.
  unfold Http.fetch_url_with_retry. intros Hrun.
  destruct (Z.le_gt_cases retries 0) as [Hle|Hgt].
  - replace (Z.to_nat retries) with 0 in * by lia. simpl in Hrun. inv_runs.
    split; [by left|]. by repeat split.
  - split.
    + assert (Hsum : (retries - Z.of_nat 0 = Z.of_nat (Z.to_nat retries))%Z)
        by lia.
      destruct (fetch_attempts_shape url retries (Z.to_nat retries) 0 tr res
                  Hsum Hrun)
        as [(? & _)|(retried & final & -> & Hlen & Hall & ->)]; [lia|].
      right. exists retried, final. repeat split; [lia|done].
    + apply fetch_attempts_schedule in Hrun as (Hb & Hr & Hlen & _ & Hall);
        [|lia].
      repeat split; try done. intros e He1 He2.
      rewrite (Hall e He1 He2). lia.
Qed.

(** Four attempts that all time out: three passes are retried, with
    back-offs of 1, 2 and 4 seconds, and the fourth raises. *)
Lemma X2_witness :
  let timeout := MkExn ExTimeout "timed out" in
  let run := exec (Example.site (λ _, Raise timeout)) 0
               (Http.fetch_url_with_retry "https://ex.test/" 4) in
  runs (Http.fetch_url_with_retry "https://ex.test/" 4) run.1 run.2
  ∧ (∃ retried final,
       run.1 = retry_trace "https://ex.test/" 0 retried final
       ∧ length retried = 3 ∧ run.2 = Raise timeout)
  ∧ backoffs run.1 = [inject_Z 1; inject_Z 2; inject_Z 4]
  ∧ length (fetches run.1) = 4.
Proof.
  intros timeout run.
  assert (Hrun : runs (Http.fetch_url_with_retry "https://ex.test/" 4)
                   run.1 run.2).
  { apply (exec_runs _ _ 0). }
  split; [exact Hrun|].
  destruct (X2_backoff_schedule "https://ex.test/" 4 run.1 run.2 Hrun)
    as (Hshape & Hb & _ & _ & _).
  split.
  - destruct Hshape as [(? & _)|(retried & final & Htr & _ & _ & _)]; [lia|].
    exists retried, final. split; [exact Htr|]. split; [|vm_compute; reflexivity].
    apply (f_equal (λ l, length (backoffs l))) in Htr.
    assert (Hlen : ∀ n l, length (backoffs
              (retry_trace "https://ex.test/" n l final)) = length l).
    { intros n l. revert n. induction l as [|[a m] l IH]; intros n; [done|].
      simpl. f_equal. apply IH. }
    rewrite Hlen in Htr. rewrite <- Htr. vm_compute. reflexivity.
  - split; [rewrite Hb|]; vm_compute; reflexivity.
Defined.

(* ===================================================================== *)
(** ** More on what [crawl_url] does with the outcome of the fetch *)
(* ===================================================================== *)

Lemma list_omap_app {A B} (f : A → option B) (l1 l2 : list A) :
  list_omap A B f (l1 ++ l2) = list_omap A B f l1 ++ list_omap A B f l2.
Proof. apply (omap_app f). Qed.

(** Evaluates the projections of traces built from known events. *)
Ltac trace_simpl :=
  unfold records, submitted, visited_checks, claim_attempts, fetches,
    created_drivers, quit_calls, driver_errors, found_links in *;
  unfold omap in *; simpl in *;
  repeat (rewrite ?list_omap_app in *; simpl in * );
  rewrite ?app_nil_r in *.

Section HttpOutcomes.

Context (urlparse : string → result parsed_url).
Context (urljoin : string → string → result string).
Context (find_all_a_href : string → result (list string)).
Context (target_domain : string) (max_workers max_depth : Z).

Local Abbreviation crawl :=
  (Http.crawl_url urlparse urljoin find_all_a_href target_domain max_workers
     max_depth).

(** X3. Whenever the last request of a call of [crawl_url] raised (a
    timeout or any other failure of the transport, after the retries), the
    call makes exactly one broken-link record, with origin
    [origin_url or url] and detail [<url> - Error: <str(e)>], and submits
    nothing. *)
Theorem X3_transport_failure_recorded_once (t : task) (tr : list event)
    (e : exn) :
  runs (crawl t) tr tt →
  last_get tr = Some (Raise e) →
  records tr = [(Http.origin_or (origin_url t) (task_url t),
                 task_url t +:+ " - Error: " +:+ exn_str e)]
  ∧ submitted tr = [] ∧ visited_checks tr = [].
Proof.
  intros Hrun Hlast.
  destruct (http_crawl_url_fetched _ _ _ _ _ _ _ _ _ _ Hrun Hlast)
    as (tr1 & fetched & tr2 & out & tr3 & -> & Hf & Hout & Hl1 & H2 & H3).
  assert (fetched = Raise e) as ->.
  { destruct fetched as [[r|]|e']; simpl in Hout.
    - destruct Hout as [Hl _]. rewrite Hl in Hl1. discriminate.
    - subst tr1. discriminate.
    - destruct Hout as [Hl | (r & Hl & _)]; rewrite Hl in Hl1; by simplify_eq. }
  simpl in H2. inv_runs. unfold Http.on_exception in H3. inv_runs.
  destruct (fetch_events_no_dispatch _ _ Hf) as (Hs & Hv & _).
  pose proof (records_fetch_events _ _ Hf) as Hr.
  trace_simpl. by rewrite Hs, Hv, Hr.
Qed.

(** X4. A response whose status is neither 200 nor at least 400 (201..399,
    or below 200) is dropped without a trace: the call records nothing,
    tests no link against the visited set and submits nothing. *)
Theorem X4_other_statuses_are_dropped (t : task) (tr : list event)
    (r : response) :
  runs (crawl t) tr tt →
  last_get tr = Some (Ok r) →
  status_code r ≠ 200%Z → (status_code r < 400)%Z →
  records tr = [] ∧ submitted tr = [] ∧ visited_checks tr = [].
Proof.
  intros Hrun Hlast Hne Hlt.
  destruct (http_crawl_url_fetched _ _ _ _ _ _ _ _ _ _ Hrun Hlast)
    as (tr1 & fetched & tr2 & out & tr3 & -> & Hf & Hout & Hl1 & H2 & H3).
  assert (fetched = Ok (Some r)) as ->.
  { destruct fetched as [[r'|]|e]; simpl in Hout.
    - destruct Hout as [Hl _]. rewrite Hl in Hl1. by simplify_eq.
    - subst tr1. discriminate.
    - destruct Hout as [Hl | (r' & Hl & Hrfs)]; rewrite Hl in Hl1;
        simplify_eq.
      apply raise_for_status_message in Hrfs as [? _]. lia. }
  unfold Http.on_fetched in H2.
  replace (status_code r =? 200)%Z with false in H2 by lia.
  replace (400 <=? status_code r)%Z with false in H2 by lia.
  inv_runs.
  destruct (fetch_events_no_dispatch _ _ Hf) as (Hs & Hv & _).
  pose proof (records_fetch_events _ _ Hf) as Hr.
  trace_simpl. by rewrite Hs, Hv, Hr.
Qed.

Lemma scan_links_raises url pre :
  ∀ resolved acc href post e tr res,
    Forall2 (λ h a, urljoin url h = Ok a) (List.filter crawlable pre)
      resolved →
    crawlable href = true → urljoin url href = Raise e →
    runs (Http.scan_links urlparse urljoin url (pre ++ href :: post) acc) tr
      res →
    res = Raise e
    ∧ Forall report_event tr
    ∧ records tr
      = map (λ a, (url, "Invalid URL: " +:+ a))
          (List.filter (λ a, negb (Http.is_valid_url urlparse a)) resolved).
Proof.
  induction pre as [|h pre IH];
    intros resolved acc href post e tr res Hres Hc Hraise Hrun.
  - simpl in *. inversion Hres; subst. unfold crawlable in Hc.
    apply andb_true_iff in Hc as [Hm Ht].
    apply negb_true_iff in Hm, Ht. rewrite Hm, Ht, Hraise in Hrun.
    inv_runs. by repeat split.
  - simpl in Hrun, Hres. unfold crawlable at 1 in Hres.
    destruct (Http.is_mailto_link h); simpl in Hres; [by eapply IH|].
    destruct (Http.is_tel_link h); simpl in Hres; [by eapply IH|].
    inversion Hres as [|? a ? resolved' Ha Hrest]; subst.
    rewrite Ha in Hrun. simpl.
    destruct (Http.is_valid_url urlparse a); simpl; [by eapply IH|].
    inv_runs.
    destruct (IH _ _ _ _ _ _ _ Hrest Hc Hraise ltac:(eassumption))
      as (-> & Hall & Hrec).
    split; [done|]. split; [by repeat constructor|]. by rewrite <- Hrec.
Qed.

(** X5. In [crawler.py] an href on which [urljoin] raises ends the scan of
    the page: the invalid links before it are already recorded, the page
    itself is then recorded as broken with the text of the exception, and
    no link of the page is submitted, not even the valid ones before it. *)
Theorem X5_urljoin_error_abandons_page (t : task) (tr : list event)
    (r : response) (pre post resolved : list string) (href : string)
    (e : exn) :
  runs (crawl t) tr tt →
  last_get tr = Some (Ok r) →
  status_code r = 200%Z →
  find_all_a_href (content r) = Ok (pre ++ href :: post) →
  Forall2 (λ h a, urljoin (task_url t) h = Ok a) (List.filter crawlable pre)
    resolved →
  crawlable href = true →
  urljoin (task_url t) href = Raise e →
  records tr
  = map (λ a, (task_url t, "Invalid URL: " +:+ a))
      (List.filter (λ a, negb (Http.is_valid_url urlparse a)) resolved)
    ++ [(Http.origin_or (origin_url t) (task_url t),
         task_url t +:+ " - Error: " +:+ exn_str e)]
  ∧ submitted tr = [] ∧ visited_checks tr = [].
Proof.
  intros Hrun Hlast Hstatus Hparse Hres Hc Hraise.
  destruct (http_crawl_url_fetched _ _ _ _ _ _ _ _ _ _ Hrun Hlast)
    as (tr1 & fetched & tr2 & out & tr3 & -> & Hf & Hout & Hl1 & H2 & H3).
  assert (fetched = Ok (Some r)) as ->.
  { destruct fetched as [[r'|]|e']; simpl in Hout.
    - destruct Hout as [Hl _]. rewrite Hl in Hl1. by simplify_eq.
    - subst tr1. discriminate.
    - destruct Hout as [Hl | (r' & Hl & Hrfs)]; rewrite Hl in Hl1;
        simplify_eq.
      apply raise_for_status_message in Hrfs as [? _]. lia. }
  unfold Http.on_fetched in H2. rewrite Hstatus, Hparse in H2. simpl in H2.
  apply runs_bind_inv in H2 as (trs & scanned & tr2' & -> & Hscan & H2).
  destruct (scan_links_raises _ _ _ _ _ _ _ _ _ Hres Hc Hraise Hscan)
    as (-> & Hreports & Hrec).
  inv_runs. unfold Http.on_exception in H3. inv_runs.
  destruct (fetch_events_no_dispatch _ _ Hf) as (Hs1 & Hv1 & _).
  destruct (report_events_no_dispatch _ Hreports) as (Hs2 & Hv2 & _).
  pose proof (records_fetch_events _ _ Hf) as Hr1.
  trace_simpl. by rewrite Hs1, Hv1, Hr1, Hs2, Hv2, Hrec.
Qed.

End HttpOutcomes.

(* ===================================================================== *)
(** ** The calls a call submits *)
(* ===================================================================== *)

Section Children.

Context (urlparse : string → result parsed_url).
Context (urljoin : string → string → result string).
Context (find_all_a_href : string → result (list string)).

Lemma scan_links_links url hrefs :
  ∀ acc tr links,
    runs (Http.scan_links urlparse urljoin url hrefs acc) tr (Ok links) →
    Forall (link_of_page urlparse url) acc →
    Forall (link_of_page urlparse url) links.
Proof.
  induction hrefs as [|href rest IH]; intros acc tr links Hrun Hacc;
    simpl in Hrun.
  - by inv_runs.
  - destruct (Http.is_mailto_link href); [by eapply IH|].
    destruct (Http.is_tel_link href); [by eapply IH|].
    destruct (urljoin url href) as [a|e]; [|by inv_runs].
    destruct (Http.is_valid_url urlparse a) eqn:Hv.
    + eapply IH; [done|]. apply Forall_app. split; [done|].
      by repeat constructor.
    + inv_runs. by eapply IH.
Qed.

Lemma selenium_scan_links_links url links :
  ∀ acc tr found,
    runs (Selenium.scan_links urlparse urljoin url links acc) tr found →
    Forall (link_of_page urlparse url) acc →
    Forall (link_of_page urlparse url) found.
Proof.
  induction links as [|link rest IH]; intros acc tr found Hrun Hacc;
    simpl in Hrun.
  - by inv_runs.
  - destruct (get_attribute_href link) as [[href|]|e];
      [|by eapply IH|inv_runs; by eapply IH].
    destruct (PyStr.truthy href); simpl in Hrun; [|by eapply IH].
    destruct (Http.is_mailto_link href); [by eapply IH|].
    destruct (urljoin url href) as [a|e]; [|inv_runs; by eapply IH].
    destruct (Http.is_valid_url urlparse a) eqn:Hv.
    + eapply IH; [done|]. apply Forall_app. split; [done|].
      by repeat constructor.
    + inv_runs. by eapply IH.
Qed.

Lemma selenium_scan_links_reports url links :
  ∀ acc tr found,
    runs (Selenium.scan_links urlparse urljoin url links acc) tr found →
    Forall report_event tr.
Proof.
  induction links as [|link rest IH]; intros acc tr found Hrun; simpl in Hrun.
  - inv_runs. constructor.
  - destruct (get_attribute_href link) as [[href|]|e];
      [|by eapply IH|inv_runs; constructor; [done|by eapply IH]].
    destruct (PyStr.truthy href); simpl in Hrun; [|by eapply IH].
    destruct (Http.is_mailto_link href); [by eapply IH|].
    destruct (urljoin url href) as [a|e];
      [|inv_runs; constructor; [done|by eapply IH]].
    destruct (Http.is_valid_url urlparse a); [by eapply IH|].
    inv_runs. repeat constructor. by eapply IH.
Qed.

Lemma submit_links_submitted current_depth links :
  ∀ tr u,
    runs (Http.submit_links current_depth links) tr u →
    ∀ t', t' ∈ submitted tr →
          ∃ link, link ∈ links
                  ∧ t' = MkTask link.1 (Some link.2) (current_depth + 1).
Proof.
  induction links as [|[link_url origin] rest IH]; intros tr u Hrun t' Hin;
    simpl in Hrun.
  - inv_runs. inversion Hin.
  - inv_runs. destruct b; inv_runs.
    + destruct (IH _ _ ltac:(eassumption) t' Hin) as (link & ? & ?).
      exists link. split; [by right|done].
    + change (t' ∈ MkTask link_url (Some origin) (current_depth + 1)
                   :: submitted tr) in Hin.
      apply elem_of_cons in Hin as [->|Hin].
      * exists (link_url, origin). split; [by left|done].
      * destruct (IH _ _ ltac:(eassumption) t' Hin) as (link & ? & ?).
        exists link. split; [by right|done].
Qed.

Lemma submitted_children url t links tr u :
  task_url t = url →
  Forall (link_of_page urlparse url) links →
  runs (Http.submit_links (current_depth t) links) tr u →
  ∀ t', t' ∈ submitted tr → child_of_call urlparse t t'.
Proof.
  intros <- Hlinks Hrun t' Hin.
  destruct (submit_links_submitted _ _ _ _ Hrun t' Hin) as (link & Hl & ->).
  rewrite Forall_forall in Hlinks. destruct (Hlinks link Hl) as [Ho Hv].
  repeat split; simpl; [by rewrite Ho|done].
Qed.

Lemma submitted_nil_Forall (P : event → Prop) tr :
  (∀ e, P e → ∀ t, e ≠ EvDo (Submit t)) → Forall P tr → submitted tr = [].
Proof.
  intros HP. apply omap_nil_Forall. intros e He.
  destruct e as [[]| | | | |]; try done. by destruct (HP _ He t).
Qed.

Lemma on_fetched_children max_workers t fetched tr out :
  runs (Http.on_fetched urlparse urljoin find_all_a_href max_workers t
          fetched) tr out →
  ∀ t', t' ∈ submitted tr → child_of_call urlparse t t'.
Proof.
  unfold Http.on_fetched. intros Hrun t' Hin.
  destruct fetched as [[r|]|e]; [|inv_runs; inversion Hin..].
  destruct (status_code r =? 200)%Z.
  - destruct (find_all_a_href (content r)); [|inv_runs; inversion Hin].
    apply runs_bind_inv in Hrun as (tr1 & scanned & tr2 & -> & H1 & H2).
    pose proof (scan_links_reports _ _ _ _ _ _ _ H1) as Hrep.
    destruct (report_events_no_dispatch _ Hrep) as (Hs & _ & _).
    rewrite submitted_app, Hs in Hin. simpl in Hin.
    destruct scanned as [links|]; [|inv_runs; inversion Hin].
    apply scan_links_links in H1; [|constructor].
    destruct (max_workers <=? 0)%Z; [inv_runs; inversion Hin|].
    apply runs_bind_inv in H2 as (tr3 & ? & tr4 & -> & H3 & H4).
    inv_runs. rewrite submitted_app in Hin. simpl in Hin.
    rewrite app_nil_r in Hin. by eapply submitted_children.
  - destruct (400 <=? status_code r)%Z; inv_runs; inversion Hin.
Qed.

Lemma try_block_children max_workers t tr out :
  runs (Selenium.try_block urlparse urljoin max_workers t) tr out →
  ∀ t', t' ∈ submitted tr → child_of_call urlparse t t'.
Proof.
  unfold Selenium.try_block. intros Hrun t' Hin. inv_runs.
  destruct o as [[]|e]; [|inv_runs; inversion Hin].
  inv_runs.
  destruct o as [[]|e]; [|inv_runs; inversion Hin].
  inv_runs.
  destruct o as [links|e]; [|inv_runs; inversion Hin].
  match goal with
  | H : runs (bind _ _) _ _ |- _ =>
    apply runs_bind_inv in H as (tr1 & found & tr2 & -> & H1 & H2)
  end.
  destruct (report_events_no_dispatch _
              (selenium_scan_links_reports _ _ _ _ _ H1)) as (Hs & _ & _).
  apply selenium_scan_links_links in H1; [|constructor].
  change (t' ∈ submitted (tr1 ++ tr2)) in Hin.
  rewrite submitted_app, Hs in Hin. simpl in Hin.
  destruct (max_workers <=? 0)%Z; [inv_runs; inversion Hin|].
  apply runs_bind_inv in H2 as (tr3 & ? & tr4 & -> & H3 & H4).
  inv_runs. rewrite submitted_app in Hin. simpl in Hin.
  rewrite app_nil_r in Hin. by eapply submitted_children.
Qed.

(** The ways a call of [crawl_url] ([crawler.py]) can go. *)
Lemma http_crawl_url_cases target_domain max_workers max_depth t tr u :
  runs (Http.crawl_url urlparse urljoin find_all_a_href target_domain
          max_workers max_depth t) tr u →
  (tr = [] ∧ (max_depth < current_depth t)%Z)
  ∨ ((current_depth t ≤ max_depth)%Z
     ∧ (tr = [EvAsk (TryClaim (task_url t)) false]
        ∨ (tr = [EvAsk (TryClaim (task_url t)) true]
           ∧ Http.is_target_domain urlparse (task_url t) target_domain
             = false)
        ∨ (Http.is_target_domain urlparse (task_url t) target_domain = true
           ∧ ∃ tr1 fetched tr2 out tr3,
               tr = EvAsk (TryClaim (task_url t)) true
                    :: EvDo (Print ("Crawling: " +:+ task_url t))
                    :: tr1 ++ tr2 ++ tr3
               ∧ Forall (fetch_event (task_url t)) tr1
               ∧ runs (Http.on_fetched urlparse urljoin find_all_a_href
                         max_workers t fetched) tr2 out
               ∧ runs (match out with
                       | Ok _ => Ret tt
                       | Raise e => Http.on_exception t e
                       end) tr3 tt))).
Proof.
  unfold Http.crawl_url.
  pose proof (fetch_url_with_retry_runs (task_url t) Http.MAX_RETRIES)
    as Hfetch.
  revert Hfetch.
  generalize (Http.fetch_url_with_retry (task_url t) Http.MAX_RETRIES)
    as fetch.
  intros fetch Hfetch Hrun.
  destruct (max_depth <? current_depth t)%Z eqn:Hd.
  { inv_runs. left. split; [done|lia]. }
  right. split; [lia|].
  inv_runs. destruct b; simpl in *; [|inv_runs; by left].
  destruct (Http.is_target_domain urlparse (task_url t) target_domain);
    simpl in *; [|inv_runs; right; by left].
  inv_runs. right. right. split; [done|].
  match goal with
  | H : runs (bind _ _) _ _ |- _ =>
    apply runs_bind_inv in H as (tr12 & out & tr3 & -> & H12 & H3)
  end.
  apply runs_bind_inv in H12 as (tr1 & fetched & tr2 & -> & H1 & H2).
  destruct (Hfetch _ _ H1) as (Hf & _ & _ & _). destruct u.
  exists tr1, fetched, tr2, out, tr3. by rewrite <- app_assoc.
Qed.

(** The ways a call of [crawl_url] ([crawler_selenium.py]) can go. *)
Lemma selenium_crawl_url_cases max_workers max_depth t tr u :
  runs (Selenium.crawl_url urlparse urljoin max_workers max_depth t) tr u →
  (tr = [] ∧ (max_depth < current_depth t)%Z)
  ∨ ((current_depth t ≤ max_depth)%Z
     ∧ (tr = [EvAsk (TryClaim (task_url t)) false]
        ∨ (tr = [EvAsk (TryClaim (task_url t)) true]
           ∧ Selenium.is_rbo_domain urlparse (task_url t) = false)
        ∨ (Selenium.is_rbo_domain urlparse (task_url t) = true
           ∧ ∃ tr1 driver out tr2,
               tr = EvAsk (TryClaim (task_url t)) true
                    :: EvDo (Print ("Crawling: " +:+ task_url t))
                    :: tr1 ++ tr2
                       ++ (if driver : bool then [EvDo DriverQuit] else [])
                       ++ [EvDo (Sleep (Seconds (Qmake 1 2)))]
               ∧ runs (Selenium.try_block urlparse urljoin max_workers t)
                   tr1 (driver, out)
               ∧ runs (match out with
                       | Ok _ => Ret tt
                       | Raise e => Selenium.on_exception t e
                       end) tr2 tt))).
Proof.
  unfold Selenium.crawl_url.
  generalize (Selenium.try_block urlparse urljoin max_workers t) as block.
  intros block Hrun.
  destruct (max_depth <? current_depth t)%Z eqn:Hd.
  { inv_runs. left. split; [done|lia]. }
  right. split; [lia|].
  inv_runs. destruct b; simpl in *; [|inv_runs; by left].
  destruct (Selenium.is_rbo_domain urlparse (task_url t));
    simpl in *; [|inv_runs; right; by left].
  inv_runs. right. right. split; [done|].
  match goal with
  | H : runs (bind _ _) _ _ |- _ =>
    apply runs_bind_inv in H as (tr1 & [driver out] & tr23 & -> & H1 & H23)
  end.
  apply runs_bind_inv in H23 as (tr2 & [] & tr3 & -> & H2 & H3).
  destruct u.
  exists tr1, driver, out, tr2. split; [|done].
  destruct driver; by inv_runs.
Qed.

Lemma http_submitted_in_scope target_domain max_workers max_depth t tr u t' :
  runs (Http.crawl_url urlparse urljoin find_all_a_href target_domain
          max_workers max_depth t) tr u →
  t' ∈ submitted tr →
  child_of_call urlparse t t'
  ∧ (current_depth t ≤ max_depth)%Z
  ∧ Http.is_target_domain urlparse (task_url t) target_domain = true.
Proof.
  intros Hrun Hin.
  apply http_crawl_url_cases in Hrun
    as [[-> _]|[Hd [->|[[-> _]|(Hdom & tr1 & f & tr2 & out & tr3 & -> & Hf
                                 & H2 & H3)]]]];
    try (by inversion Hin).
  split; [|done].
  destruct (fetch_events_no_dispatch _ _ Hf) as (Hs & _ & _).
  change (t' ∈ submitted (tr1 ++ tr2 ++ tr3)) in Hin.
  rewrite !submitted_app, Hs in Hin. simpl in Hin.
  assert (submitted tr3 = []) as Hs3.
  { destruct out; [by inv_runs|]. by eapply on_exception_runs. }
  rewrite Hs3, app_nil_r in Hin. by eapply on_fetched_children.
Qed.

Lemma selenium_submitted_in_scope max_workers max_depth t tr u t' :
  runs (Selenium.crawl_url urlparse urljoin max_workers max_depth t) tr u →
  t' ∈ submitted tr →
  child_of_call urlparse t t'
  ∧ (current_depth t ≤ max_depth)%Z
  ∧ Selenium.is_rbo_domain urlparse (task_url t) = true.
Proof.
  intros Hrun Hin.
  apply selenium_crawl_url_cases in Hrun
    as [[-> _]|[Hd [->|[[-> _]|(Hdom & tr1 & driver & out & tr2 & -> & H1
                                 & H2)]]]];
    try (by inversion Hin).
  split; [|done].
  change (t' ∈ submitted (tr1 ++ tr2
            ++ (if driver then [EvDo DriverQuit] else [])
            ++ [EvDo (Sleep (Seconds (Qmake 1 2)))])) in Hin.
  rewrite !submitted_app in Hin.
  assert (submitted tr2 = []) as Hs2.
  { destruct out; [by inv_runs|].
    unfold Selenium.on_exception in H2.
    destruct (is_selenium_timeout e); by inv_runs. }
  rewrite Hs2 in Hin. destruct driver; simpl in Hin;
    rewrite app_nil_r in Hin; by eapply try_block_children.
Qed.

(** A call loads its own URL only, and only when it is within the depth
    limit and its URL is in the target domain. *)
Lemma http_load_in_scope target_domain max_workers max_depth t tr u e v :
  runs (Http.crawl_url urlparse urljoin find_all_a_href target_domain
          max_workers max_depth t) tr u →
  e ∈ tr → is_load v e →
  v = task_url t
  ∧ (current_depth t ≤ max_depth)%Z
  ∧ Http.is_target_domain urlparse (task_url t) target_domain = true.
Proof.
  intros Hrun Hin Hload.
  destruct (http_crawl_url_well_claimed _ _ _ _ _ _ _ _ _ Hrun) as [Hwc _].
  split.
  - destruct Hwc as [->|(b & rest & -> & Hrest & _)]; [inversion Hin|].
    apply elem_of_cons in Hin as [->|Hin]; [done|].
    rewrite Forall_forall in Hrest. apply Hrest in Hin.
    destruct e; try done; simpl in *; congruence.
  - apply http_crawl_url_cases in Hrun
      as [[-> _]|[Hd [->|[[-> _]|(Hdom & _)]]]]; [inversion Hin| | |done];
      apply list_elem_of_singleton in Hin as ->; done.
Qed.

Lemma selenium_load_in_scope max_workers max_depth t tr u e v :
  runs (Selenium.crawl_url urlparse urljoin max_workers max_depth t) tr u →
  e ∈ tr → is_load v e →
  v = task_url t
  ∧ (current_depth t ≤ max_depth)%Z
  ∧ Selenium.is_rbo_domain urlparse (task_url t) = true.
Proof.
  intros Hrun Hin Hload.
  destruct (selenium_crawl_url_well_claimed _ _ _ _ _ _ _ Hrun) as [Hwc _].
  split.
  - destruct Hwc as [->|(b & rest & -> & Hrest & _)]; [inversion Hin|].
    apply elem_of_cons in Hin as [->|Hin]; [done|].
    rewrite Forall_forall in Hrest. apply Hrest in Hin.
    destruct e; try done; simpl in *; congruence.
  - apply selenium_crawl_url_cases in Hrun
      as [[-> _]|[Hd [->|[[-> _]|(Hdom & _)]]]]; [inversion Hin| | |done];
      apply list_elem_of_singleton in Hin as ->; done.
Qed.

(** X7. Every call that a call of [crawl_url] submits, in either script,
    has the submitting call's URL as origin, is one level deeper, and has a
    syntactically valid URL; and a call that submits anything is within the
    depth limit and has a URL of the target domain. *)
Theorem X7_submitted_calls (target_domain : string)
    (max_workers max_depth : Z) (t : task) :
  (∀ tr u t',
     runs (Http.crawl_url urlparse urljoin find_all_a_href target_domain
             max_workers max_depth t) tr u →
     t' ∈ submitted tr →
     child_of_call urlparse t t'
     ∧ (current_depth t ≤ max_depth)%Z
     ∧ Http.is_target_domain urlparse (task_url t) target_domain = true)
  ∧ (∀ tr u t',
       runs (Selenium.crawl_url urlparse urljoin max_workers max_depth t) tr u →
       t' ∈ submitted tr →
       child_of_call urlparse t t'
       ∧ (current_depth t ≤ max_depth)%Z
       ∧ Selenium.is_rbo_domain urlparse (task_url t) = true).
Proof.
  split; intros tr u t'.
  - apply http_submitted_in_scope.
  - apply selenium_submitted_in_scope.
Qed.

End Children.

(* ===================================================================== *)
(** ** More on crawler_selenium.py *)
(* ===================================================================== *)

Section SeleniumOutcomes.

Context (urlparse : string → result parsed_url).
Context (urljoin : string → string → result string).
Context (max_workers max_depth : Z).

Local Abbreviation crawl :=
  (Selenium.crawl_url urlparse urljoin max_workers max_depth).

Lemma omap_cons_Some {A B} (f : A → option B) x y l :
  f x = Some y → omap f (x :: l) = y :: omap f l.
Proof. intros H. change (omap f (x :: l)) with
  (match f x with Some y => y :: omap f l | None => omap f l end).
  by rewrite H. Qed.

Lemma omap_cons_None {A B} (f : A → option B) x l :
  f x = None → omap f (x :: l) = omap f l.
Proof. intros H. change (omap f (x :: l)) with
  (match f x with Some y => y :: omap f l | None => omap f l end).
  by rewrite H. Qed.

Lemma selenium_scan_links_resolved url links :
  ∀ acc tr found,
    runs (Selenium.scan_links urlparse urljoin url links acc) tr found →
    found = acc ++ map (λ a, (a, url))
              (List.filter (Http.is_valid_url urlparse)
                 (omap (selenium_resolution urljoin url) links))
    ∧ records tr
      = map (λ a, (url, "Invalid URL: " +:+ a))
          (List.filter (λ a, negb (Http.is_valid_url urlparse a))
             (omap (selenium_resolution urljoin url) links)).
Proof.
  induction links as [|link rest IH]; intros acc tr found Hrun.
  - simpl in Hrun. inv_runs. by rewrite app_nil_r.
  - simpl in Hrun.
    destruct (selenium_resolution urljoin url link) as [a|] eqn:Hres;
      unfold selenium_resolution in Hres;
      [rewrite (omap_cons_Some _ _ _ _ Hres)
      |rewrite (omap_cons_None _ _ _ Hres)];
      destruct (get_attribute_href link) as [[href|]|e]; try discriminate;
      try (destruct (PyStr.truthy href); simpl in *; try discriminate);
      try (destruct (Http.is_mailto_link href); simpl in *; try discriminate);
      try (destruct (urljoin url href) as [a'|e]; simplify_eq);
      try (simpl; destruct (Http.is_valid_url urlparse a) eqn:Hv; simpl);
      first
        [ destruct (IH _ _ _ Hrun) as [-> Hr];
          split; [by rewrite <- ?app_assoc|done]
        | inv_runs;
          match goal with
          | H : runs (Selenium.scan_links _ _ _ _ _) _ _ |- _ =>
            destruct (IH _ _ _ H) as [-> Hr]
          end;
          split; [done|by rewrite <- ?Hr] ].
Qed.

Lemma submit_links_dispatch_events current_depth links :
  ∀ tr u, runs (Http.submit_links current_depth links) tr u →
          Forall dispatch_event tr.
Proof.
  induction links as [|[link_url origin] rest IH]; intros tr u Hrun;
    simpl in Hrun.
  - inv_runs. constructor.
  - inv_runs. destruct b; inv_runs; repeat constructor; by eapply IH.
Qed.

(** Scanning and submitting never touch the driver. *)
Lemma no_driver_events (P : event → Prop) tr :
  (∀ e, P e → report_event e ∨ dispatch_event e) → Forall P tr →
  created_drivers tr = [] ∧ quit_calls tr = [] ∧ driver_errors tr = []
  ∧ found_links tr = [].
Proof.
  intros HP H. repeat split;
    (eapply omap_nil_Forall; [|exact H]);
    intros e He; destruct (HP e He) as [Hr|Hd];
    by destruct e as [[]|[]| | | |].
Qed.

Lemma dispatch_events_no_record tr :
  Forall dispatch_event tr → records tr = [].
Proof. apply omap_nil_Forall. by intros [[]|[]| | | |]. Qed.

(** The ways the [try] block of the selenium [crawl_url] can go. *)
Lemma try_block_cases t tr driver out :
  runs (Selenium.try_block urlparse urljoin max_workers t) tr (driver, out) →
  (∃ e, tr = [EvCreateDriver (Raise e)] ∧ driver = false ∧ out = Raise e)
  ∨ (driver = true
     ∧ ((∃ e, tr = [EvCreateDriver (Ok tt); EvDriverGet (task_url t) (Raise e)]
              ∧ out = Raise e)
        ∨ (∃ e, tr = [EvCreateDriver (Ok tt); EvDriverGet (task_url t) (Ok tt);
                      EvDo (Sleep (Seconds (inject_Z 2)));
                      EvFindLinks (Raise e)]
                ∧ out = Raise e)
        ∨ (∃ links trs found rest,
             tr = [EvCreateDriver (Ok tt); EvDriverGet (task_url t) (Ok tt);
                   EvDo (Sleep (Seconds (inject_Z 2)));
                   EvFindLinks (Ok links)] ++ trs ++ rest
             ∧ runs (Selenium.scan_links urlparse urljoin (task_url t) links [])
                 trs found
             ∧ (((max_workers ≤ 0)%Z ∧ rest = []
                 ∧ out = Raise (MkExn ExValueError
                                  "max_workers must be greater than 0"))
                ∨ ((0 < max_workers)%Z ∧ out = Ok tt
                   ∧ ∃ trd, rest = trd ++ [EvDo WaitAll]
                            ∧ runs (Http.submit_links (current_depth t) found)
                                trd tt))))).
Proof.
  unfold Selenium.try_block. intros Hrun. inv_runs.
  destruct o as [[]|e]; [|inv_runs; left; eauto].
  right. inv_runs.
  destruct o as [[]|e]; [|inv_runs; split; [done|]; left; eauto].
  inv_runs.
  destruct o as [links|e]; [|inv_runs; split; [done|]; right; left; eauto].
  match goal with
  | H : runs (bind _ _) _ _ |- _ =>
    apply runs_bind_inv in H as (trs & found & rest & -> & H1 & H2)
  end.
  destruct (max_workers <=? 0)%Z eqn:Hw.
  - inv_runs. split; [done|]. right. right.
    exists links, trs, found, []. repeat split; try done. left.
    split; [lia|done].
  - apply runs_bind_inv in H2 as (trd & [] & trw & -> & H3 & H4). inv_runs.
    split; [done|]. right. right.
    exists links, trs, found, (trd ++ [EvDo WaitAll]).
    repeat split; try done. right. split; [lia|]. split; [done|]. eauto.
Qed.

(** X10. When the browser fails in a call of the selenium [crawl_url]
    (creating the driver, loading the page or waiting for its body, or
    listing the anchors), the call makes exactly one broken-link record,
    with origin [origin_url or url]; the detail is
    [<url> - Error: Page load timeout] for a [TimeoutException], whatever
    its text, and [<url> - Error: <str(e)>] otherwise; nothing is submitted. *)
Theorem X10_browser_failure_recorded_once (t : task) (tr : list event)
    (e : exn) :
  runs (crawl t) tr tt →
  head (driver_errors tr) = Some e →
  records tr
  = [(Http.origin_or (origin_url t) (task_url t),
      task_url t +:+ " - Error: "
      +:+ (if is_selenium_timeout e then "Page load timeout"%string
           else exn_str e))]
  ∧ submitted tr = [].
Proof.
  intros Hrun Hfail.
  apply selenium_crawl_url_cases in Hrun
    as [[-> _]|[Hd [->|[[-> _]|(Hdom & tr1 & driver & out & tr2 & -> & H1
                                 & H2)]]]];
    try discriminate.
  apply try_block_cases in H1
    as [(e' & -> & -> & ->)
       |(-> & [(e' & -> & ->)|[(e' & -> & ->)
               |(links & trs & found & rest & -> & Hscan & Hrest)]])].
  - unfold Selenium.on_exception in H2. simpl in Hfail. simplify_eq.
    destruct (is_selenium_timeout e); inv_runs; by trace_simpl.
  - unfold Selenium.on_exception in H2. simpl in Hfail. simplify_eq.
    destruct (is_selenium_timeout e); inv_runs; by trace_simpl.
  - unfold Selenium.on_exception in H2. simpl in Hfail. simplify_eq.
    destruct (is_selenium_timeout e); inv_runs; by trace_simpl.
  - exfalso.
    destruct (no_driver_events report_event trs (λ e H, or_introl H)
                (selenium_scan_links_reports _ _ _ _ _ _ _ Hscan))
      as (_ & _ & He1 & _).
    assert (driver_errors rest = [] ∧ driver_errors tr2 = []) as [He2 He3].
    { destruct Hrest as [(_ & -> & ->)|(_ & -> & trd & -> & Hsub)].
      - split; [done|]. unfold Selenium.on_exception in H2.
        simpl in H2. by inv_runs.
      - inv_runs. split; [|done].
        destruct (no_driver_events dispatch_event trd (λ e H, or_intror H)
                    (submit_links_dispatch_events _ _ _ _ Hsub))
          as (_ & _ & He & _).
        unfold driver_errors in *. rewrite omap_app, He. done. }
    trace_simpl. rewrite He1, He2, He3 in Hfail. discriminate Hfail.
Qed.

(** X9. A call of the selenium [crawl_url] quits every driver it creates:
    it creates at most one, calls [driver.quit()] exactly once if it created
    one and never otherwise, and the quit is its last action before the
    closing sleep of half a second, whichever way the call went. *)
Theorem X9_driver_is_quit_once (t : task) (tr : list event) :
  runs (crawl t) tr tt →
  quit_calls tr = created_drivers tr
  ∧ length (created_drivers tr) ≤ 1
  ∧ (created_drivers tr ≠ [] →
     ∃ body, tr = body ++ [EvDo DriverQuit;
                           EvDo (Sleep (Seconds (Qmake 1 2)))]
             ∧ quit_calls body = []).
Proof.
  intros Hrun.
  apply selenium_crawl_url_cases in Hrun
    as [[-> _]|[Hd [->|[[-> _]|(Hdom & tr1 & driver & out & tr2 & -> & H1
                                 & H2)]]]];
    try (by repeat split; simpl; try lia).
  assert (Hhandler : created_drivers tr2 = [] ∧ quit_calls tr2 = []).
  { destruct out; [by inv_runs|]. unfold Selenium.on_exception in H2.
    destruct (is_selenium_timeout e); by inv_runs. }
  destruct Hhandler as [Hc2 Hq2].
  assert (Htry : quit_calls tr1 = []
                 ∧ created_drivers tr1 = if driver then [tt] else []).
  { apply try_block_cases in H1
      as [(e' & -> & -> & ->)
         |(-> & [(e' & -> & ->)|[(e' & -> & ->)
                 |(links & trs & found & rest & -> & Hscan & Hrest)]])];
      try done.
    destruct (no_driver_events report_event trs (λ e H, or_introl H)
                (selenium_scan_links_reports _ _ _ _ _ _ _ Hscan))
      as (Hc & Hq & _ & _).
    assert (created_drivers rest = [] ∧ quit_calls rest = []) as [Hcr Hqr].
    { destruct Hrest as [(_ & -> & _)|(_ & _ & trd & -> & Hsub)]; [done|].
      destruct (no_driver_events dispatch_event trd (λ e H, or_intror H)
                  (submit_links_dispatch_events _ _ _ _ Hsub))
        as (Hcd & Hqd & _ & _).
      unfold created_drivers, quit_calls in *.
      by rewrite !omap_app, Hcd, Hqd. }
    trace_simpl. by rewrite Hc, Hq, Hcr, Hqr. }
  destruct Htry as [Hq1 Hc1].
  destruct driver.
  - split; [|split].
    + trace_simpl. by rewrite Hq1, Hc1, Hq2, Hc2.
    + trace_simpl. rewrite Hc1, Hc2. simpl. lia.
    + intros _.
      exists (EvAsk (TryClaim (task_url t)) true
              :: EvDo (Print ("Crawling: " +:+ task_url t)) :: tr1 ++ tr2).
      split; [simpl; do 2 f_equal; by rewrite <- app_assoc|].
      trace_simpl. by rewrite Hq1, Hq2.
  - split; [|split].
    + trace_simpl. by rewrite Hq1, Hc1, Hq2, Hc2.
    + trace_simpl. rewrite Hc1, Hc2. simpl. lia.
    + intros Hne. exfalso. apply Hne. trace_simpl. by rewrite Hc1, Hc2.
Qed.

(** X6. When the browser has rendered the page of a call of the selenium
    [crawl_url] and listed its anchors, every anchor is handled on its own:
    anchors without an href, whose attribute cannot be read, with a
    [mailto:] href, or on whose href [urljoin] raises are passed over; of
    the others the syntactically invalid resolutions are recorded as
    broken, in page order, with the page as origin, and the valid ones are
    tested against the visited set, in page order, and submitted at
    depth + 1 with the page as origin if not yet in the set. *)
Theorem X6_rendered_page_is_expanded (t : task) (tr : list event)
    (links : list element) :
  runs (crawl t) tr tt →
  head (found_links tr) = Some links →
  (0 < max_workers)%Z →
  let resolved := omap (selenium_resolution urljoin (task_url t)) links in
  let valid := List.filter (Http.is_valid_url urlparse) resolved in
  let invalid :=
    List.filter (λ a, negb (Http.is_valid_url urlparse a)) resolved in
  records tr = map (λ a, (task_url t, "Invalid URL: " +:+ a)) invalid
  ∧ ∃ seen, length seen = length valid
            ∧ visited_checks tr = zip valid seen
            ∧ submitted tr
              = dispatched (current_depth t)
                  (map (λ a, (a, task_url t)) valid) seen.
Proof.
  intros Hrun Hfound Hworkers resolved valid invalid.
  apply selenium_crawl_url_cases in Hrun
    as [[-> _]|[Hd [->|[[-> _]|(Hdom & tr1 & driver & out & tr2 & -> & H1
                                 & H2)]]]];
    try discriminate.
  apply try_block_cases in H1
    as [(e' & -> & -> & ->)
       |(-> & [(e' & -> & ->)|[(e' & -> & ->)
               |(links' & trs & found & rest & -> & Hscan & Hrest)]])].
  - unfold Selenium.on_exception in H2.
    destruct (is_selenium_timeout e'); inv_runs; discriminate.
  - unfold Selenium.on_exception in H2.
    destruct (is_selenium_timeout e'); inv_runs; discriminate.
  - unfold Selenium.on_exception in H2.
    destruct (is_selenium_timeout e'); inv_runs; discriminate.
  - assert (links' = links) as -> by (simpl in Hfound; congruence).
    clear Hfound.
    destruct Hrest as [(? & _)|(_ & -> & trd & -> & Hsub)]; [lia|].
    inv_runs.
    pose proof (selenium_scan_links_reports _ _ _ _ _ _ _ Hscan) as Hrep.
    destruct (report_events_no_dispatch _ Hrep) as (Hs1 & Hv1 & _).
    destruct (selenium_scan_links_resolved _ _ _ _ _ Hscan) as [-> Hrec].
    destruct (submit_links_runs _ _ _ _ Hsub)
      as (_ & Hr & seen & Hlen & Hchecks & Hdisp).
    simpl in Hlen, Hchecks, Hdisp.
    rewrite length_map in Hlen. rewrite map_fst_pair in Hchecks.
    split.
    + trace_simpl. by rewrite Hrec, Hr, app_nil_r.
    + exists seen. split; [done|]. trace_simpl.
      by rewrite Hs1, Hv1, Hchecks, Hdisp.
Qed.

End SeleniumOutcomes.

(* ===================================================================== *)
(** ** The pool over a whole run: threads, sink and registry *)
(* ===================================================================== *)

Lemma actions_app l1 l2 : actions (l1 ++ l2) = actions l1 ++ actions l2.
Proof. apply map_app. Qed.

Lemma printed_app tr1 tr2 : printed (tr1 ++ tr2) = printed tr1 ++ printed tr2.
Proof. apply omap_app. Qed.

Lemma claimed_app tr1 tr2 : claimed (tr1 ++ tr2) = claimed tr1 ++ claimed tr2.
Proof. apply omap_app. Qed.

Lemma outstanding_from_app b tr1 tr2 :
  outstanding_from b (tr1 ++ tr2)
  = outstanding_from (outstanding_from b tr1) tr2.
Proof. apply foldl_app. Qed.

Lemma no_submit_outstanding tr :
  submitted tr = [] → outstanding_from false tr = false.
Proof.
  induction tr as [|e tr IH]; [done|].
  destruct e as [[]|[]| | | |]; try done.
Qed.

Lemma outstanding_wait b tr :
  outstanding_from b (tr ++ [EvDo WaitAll]) = false.
Proof. by rewrite outstanding_from_app. Qed.

Section Joins.

Context (urlparse : string → result parsed_url).
Context (urljoin : string → string → result string).
Context (find_all_a_href : string → result (list string)).

Lemma on_fetched_joins max_workers t fetched tr out :
  runs (Http.on_fetched urlparse urljoin find_all_a_href max_workers t
          fetched) tr out →
  outstanding_from false tr = false.
Proof.
  unfold Http.on_fetched. intros Hrun.
  destruct fetched as [[r|]|e]; [|by inv_runs..].
  destruct (status_code r =? 200)%Z.
  - destruct (find_all_a_href (content r)); [|by inv_runs].
    apply runs_bind_inv in Hrun as (tr1 & scanned & tr2 & -> & H1 & H2).
    pose proof (scan_links_reports _ _ _ _ _ _ _ H1) as Hrep.
    destruct (report_events_no_dispatch _ Hrep) as (Hs & _ & _).
    rewrite outstanding_from_app, (no_submit_outstanding _ Hs).
    destruct scanned as [links|]; [|by inv_runs].
    destruct (max_workers <=? 0)%Z; [by inv_runs|].
    apply runs_bind_inv in H2 as (tr3 & ? & tr4 & -> & H3 & H4).
    inv_runs. apply outstanding_wait.
  - destruct (400 <=? status_code r)%Z; by inv_runs.
Qed.

Lemma http_crawl_url_joins target_domain max_workers max_depth t tr :
  runs (Http.crawl_url urlparse urljoin find_all_a_href target_domain
          max_workers max_depth t) tr tt →
  outstanding tr = false.
Proof.
  intros Hrun.
  apply http_crawl_url_cases in Hrun
    as [[-> _]|[_ [->|[[-> _]|(_ & tr1 & fetched & tr2 & out & tr3 & ->
                               & H1 & H2 & H3)]]]]; try done.
  unfold outstanding.
  change (outstanding_from false (tr1 ++ tr2 ++ tr3) = false).
  destruct (fetch_events_no_dispatch _ _ H1) as (Hs1 & _ & _).
  rewrite !outstanding_from_app, (no_submit_outstanding _ Hs1),
    (on_fetched_joins _ _ _ _ _ H2).
  apply no_submit_outstanding.
  destruct out; [by inv_runs|].
  by apply on_exception_runs in H3 as (_ & _ & ?).
Qed.

Lemma selenium_crawl_url_joins max_workers max_depth t tr :
  runs (Selenium.crawl_url urlparse urljoin max_workers max_depth t) tr tt →
  outstanding tr = false.
Proof.
  intros Hrun.
  apply selenium_crawl_url_cases in Hrun
    as [[-> _]|[_ [->|[[-> _]|(_ & tr1 & driver & out & tr2 & -> & H1
                               & H2)]]]]; try done.
  unfold outstanding.
  change (outstanding_from false
            (tr1 ++ tr2 ++ (if driver then [EvDo DriverQuit] else [])
             ++ [EvDo (Sleep (Seconds (Qmake 1 2)))]) = false).
  assert (Htail : ∀ b, outstanding_from b
            (tr2 ++ (if driver then [EvDo DriverQuit] else [])
             ++ [EvDo (Sleep (Seconds (Qmake 1 2)))]) = b).
  { intros b. rewrite outstanding_from_app.
    assert (outstanding_from b tr2 = b) as ->.
    { destruct out; [by inv_runs|]. unfold Selenium.on_exception in H2.
      destruct (is_selenium_timeout e); by inv_runs. }
    by destruct driver. }
  rewrite outstanding_from_app, Htail.
  apply try_block_cases in H1
    as [(e' & -> & _)
       |(_ & [(e' & -> & _)|[(e' & -> & _)
              |(links & trs & found & rest & -> & Hscan & Hrest)]])];
    try done.
  change (outstanding_from false (trs ++ rest) = false).
  destruct (report_events_no_dispatch _
              (selenium_scan_links_reports _ _ _ _ _ _ _ Hscan))
    as (Hs & _ & _).
  rewrite outstanding_from_app, (no_submit_outstanding _ Hs).
  destruct Hrest as [(_ & -> & _)|(_ & _ & trd & -> & _)]; [done|].
  apply outstanding_wait.
Qed.

End Joins.

Lemma effect_threads i e w w1 :
  effect i e w w1 →
  Pool.log w1 = Pool.log w
  ∧ (Pool.threads w1 = Pool.threads w
     ∨ ∃ t, e = EvDo (Submit t)
            ∧ Pool.threads w1
              = Pool.threads w ++ [Pool.MkThread (Some i) t Pool.Queued]).
Proof.
  destruct e as [c|q b| | | |]; simpl; try (by intros ->; eauto).
  - intros [-> _]. destruct c; simpl; eauto.
  - intros [_ ->]. destruct q; simpl; [|by eauto].
    case_bool_decide; eauto.
Qed.

Section PoolShape.

Context (env : oracle) (body : task → prog unit) (max_workers : Z).

(** The three kinds of move of the pool. *)
Lemma step_cases w i w' :
  Pool.step env body max_workers w i = Some w' →
  ∃ th, Pool.threads w !! i = Some th
        ∧ ((Pool.state th = Pool.Queued
            ∧ w' = Pool.set_state i
                     (Pool.Running (body (Pool.thread_task th))) w)
           ∨ (Pool.state th = Pool.Running (Ret tt)
              ∧ w' = Pool.set_state i Pool.Finished w)
           ∨ (∃ p e k w1,
                Pool.state th = Pool.Running p
                ∧ effect i e w w1
                ∧ w' = Pool.set_state i (Pool.Running k)
                         (Pool.add_log i e w1))).
Proof.
  unfold Pool.step.
  destruct (Pool.threads w !! i) as [th|] eqn:Hth; [|done].
  intros Hstep. exists th. split; [done|].
  destruct (Pool.state th) as [|p|] eqn:Hst; [| |done].
  { destruct (Pool.can_start _ _ _ _); [|done].
    left. by simplify_eq. }
  right.
  destruct p as [[]|c k|q k|u k|k|u k|k].
  - left. by simplify_eq.
  - destruct (match c with WaitAll => _ | _ => true end) eqn:Hc; [|done].
    right. exists (Do c k), (EvDo c), k, (Pool.exec_cmd i c w).
    simplify_eq. repeat split. by intros ->.
  - right. exists (Ask q k), (EvAsk q (Pool.answer_query q w)),
      (k (Pool.answer_query q w)), (Pool.exec_query q w).
    by simplify_eq.
  - right. eexists (HttpGet u k), (EvHttpGet u _), (k _), w.
    by simplify_eq.
  - right. eexists (CreateDriver k), (EvCreateDriver _), (k _), w.
    by simplify_eq.
  - right. eexists (DriverGet u k), (EvDriverGet u _), (k _), w.
    by simplify_eq.
  - right. eexists (FindLinks k), (EvFindLinks _), (k _), w.
    by simplify_eq.
Qed.

(** A property of worlds that survives a change of state of a thread that
    has not returned, and an action of a running thread, survives every
    run. *)
Lemma run_preserves (P : Pool.world → Prop) :
  (∀ w i th s, P w → Pool.threads w !! i = Some th →
               Pool.state th ≠ Pool.Finished → P (Pool.set_state i s w)) →
  (∀ w i th p e w1, P w → Pool.threads w !! i = Some th →
                    Pool.state th = Pool.Running p → effect i e w w1 →
                    P (Pool.add_log i e w1)) →
  ∀ schedule w, P w → P (Pool.run env body max_workers schedule w).
Proof.
  intros Hstate Hemit.
  induction schedule as [|i rest IH]; intros w Hw; [done|].
  simpl. apply IH.
  destruct (Pool.step env body max_workers w i) as [w'|] eqn:Hstep; [|done].
  simpl.
  apply step_cases in Hstep
    as (th & Hth & [[Hst ->]|[[Hst ->]|(p & e & k & w1 & Hst & He & ->)]]).
  - eapply Hstate; [done..|]. by rewrite Hst.
  - eapply Hstate; [done..|]. by rewrite Hst.
  - eapply (Hstate _ _ th).
    + by eapply Hemit.
    + simpl. destruct (effect_threads _ _ _ _ He) as [_ [->|(t & _ & ->)]];
        [done|]. apply lookup_app_l_Some, Hth.
    + by rewrite Hst.
Qed.

Lemma tree_run root schedule :
  tree root (Pool.run env body max_workers schedule (Pool.initial root)).
Proof.
  apply run_preserves.
  - intros w i th s Hw Hth _ j th' Hj. simpl in Hj.
    destruct (decide (i = j)) as [<-|Hne].
    + rewrite list_lookup_alter_eq, Hth in Hj. simplify_eq/=.
      apply (Hw i th Hth).
    + rewrite list_lookup_alter_ne in Hj by done. apply (Hw j th' Hj).
  - intros w i th p e w1 Hw Hth Hst He j th' Hj.
    unfold Pool.add_log in *. cbn [Pool.log Pool.threads] in *.
    destruct (effect_threads _ _ _ _ He) as [Hlog Hthreads].
    rewrite Hlog.
    assert (Hold : ∀ th'', Pool.threads w !! j = Some th'' →
              match Pool.parent th'' with
              | Some i0 =>
                i0 < j ∧ EvDo (Submit (Pool.thread_task th''))
                         ∈ Pool.events_of i0 (Pool.log w ++ [(i, e)])
              | None => j = 0 ∧ Pool.thread_task th'' = root
              end).
    { intros th'' Hj'. specialize (Hw j th'' Hj').
      destruct (Pool.parent th''); [|done].
      destruct Hw as [? ?]. split; [done|].
      rewrite events_of_app. apply elem_of_app. by left. }
    destruct Hthreads as [Heq|(t & -> & Heq)]; rewrite Heq in Hj;
      [by apply Hold|].
    apply lookup_app_Some in Hj as [Hj|[Hlen Hj]]; [by apply Hold|].
    destruct (j - length (Pool.threads w)) as [|n] eqn:Hn; [|done].
    simplify_eq/=. apply lookup_lt_Some in Hth. split; [lia|].
    rewrite events_of_app, events_of_own. apply elem_of_app. right. by left.
  - intros [|j] th Hj; simplify_eq/=. done.
Qed.

Lemma joined_run schedule root :
  joined (Pool.run env body max_workers schedule (Pool.initial root)).
Proof.
  apply run_preserves.
  - intros w i th s Hw Hth Hst i' Hout j th' Hj Hp. simpl in *.
    destruct (decide (i = j)) as [<-|Hne].
    + rewrite list_lookup_alter_eq, Hth in Hj. simplify_eq/=.
      destruct Hst. by apply (Hw i' Hout i th).
    + rewrite list_lookup_alter_ne in Hj by done. by apply (Hw i' Hout j).
  - intros w i th p e w1 Hw Hth Hst He i' Hout j th' Hj Hp.
    unfold Pool.add_log in *. cbn [Pool.log Pool.threads] in *.
    destruct (effect_threads _ _ _ _ He) as [Hlog Hthreads].
    rewrite Hlog, events_of_app in Hout.
    destruct (decide (i = i')) as [<-|Hne].
    + rewrite events_of_own in Hout. unfold outstanding in Hout.
      rewrite outstanding_from_app in Hout.
      destruct e as [c|q b|u o|o|u o|o]; simpl in He, Hout;
        try (subst w1; by apply (Hw i Hout j)).
      * destruct He as [-> Hwait].
        destruct c; simpl in *; try done; try (by apply (Hw i Hout j)).
        specialize (Hwait eq_refl). unfold Pool.all_children_finished in Hwait.
        rewrite forallb_forall in Hwait.
        apply list_elem_of_lookup_2, list_elem_of_In, Hwait in Hj.
        unfold Pool.child_of in Hj. rewrite bool_decide_eq_true_2 in Hj by done.
        simpl in Hj. by destruct (Pool.state th').
      * destruct He as [_ ->].
        assert (Pool.threads (Pool.exec_query q w) = Pool.threads w) as Heq.
        { destruct q; simpl; [by case_bool_decide|done]. }
        rewrite Heq in Hj. by apply (Hw i Hout j).
    + rewrite events_of_other, app_nil_r in Hout by done.
      destruct Hthreads as [Heq|(t & -> & Heq)]; rewrite Heq in Hj;
        [by apply (Hw i' Hout j)|].
      apply lookup_app_Some in Hj as [Hj|[Hlen Hj]];
        [by apply (Hw i' Hout j)|].
      destruct (j - length (Pool.threads w)) as [|n] eqn:Hn; [|done].
      simplify_eq/=.
  - intros i _ [|j] th Hj Hp; simplify_eq/=.
Qed.

Lemma sink_run schedule root :
  sink (Pool.run env body max_workers schedule (Pool.initial root)).
Proof.
  apply run_preserves.
  - by intros w i th s Hw _ _.
  - intros w i th p e w1 (Hfile & Hset & Hcon) _ _ He.
    unfold sink. simpl.
    destruct (effect_threads _ _ _ _ He) as [Hlog _].
    rewrite Hlog, actions_app. change (actions [(i, e)]) with [e].
    rewrite records_app, printed_app, map_app, list_to_set_app_L.
    destruct e as [c|q b|u o|o|u o|o]; simpl in He;
      try (subst w1; simpl; by rewrite !app_nil_r, (right_id_L ∅ (∪))).
    + destruct He as [-> _]. destruct c; simpl;
        rewrite ?app_nil_r, ?(right_id_L ∅ (∪)); try done.
      * by rewrite Hcon.
      * rewrite Hfile, Hset, Hcon.
        split; [done|]. split; [apply (comm_L (∪))|done].
    + destruct He as [_ ->].
      change (records [EvAsk q b]) with (@nil (string * string)).
      change (printed [EvAsk q b]) with (@nil string).
      rewrite !app_nil_r. cbn [list_to_set map]. rewrite (right_id_L ∅ (∪)).
      destruct q; simpl; [by case_bool_decide|done].
  - done.
Qed.

Lemma registry_run schedule root :
  registry (Pool.run env body max_workers schedule (Pool.initial root)).
Proof.
  apply run_preserves.
  - by intros w i th s Hw _ _.
  - intros w i th p e w1 [Hnd Hvis] _ _ He. unfold registry. simpl.
    destruct (effect_threads _ _ _ _ He) as [Hlog _].
    rewrite Hlog, actions_app. change (actions [(i, e)]) with [e].
    rewrite claimed_app, list_to_set_app_L.
    destruct e as [c|q b|u o|o|u o|o]; simpl in He;
      try (subst w1; simpl; by rewrite !app_nil_r, (right_id_L ∅ (∪))).
    + destruct He as [-> _]. simpl. rewrite !app_nil_r, (right_id_L ∅ (∪)).
      by destruct c.
    + destruct He as [-> ->]. destruct q as [u|u]; simpl;
        [|by rewrite !app_nil_r, (right_id_L ∅ (∪))].
      case_bool_decide as Hu; simpl.
      * by rewrite !app_nil_r, (right_id_L ∅ (∪)).
      * split.
        -- apply NoDup_app. split; [done|]. split; [|apply NoDup_singleton].
           intros x Hx Hin. apply list_elem_of_singleton in Hin as ->.
           apply Hu. rewrite Hvis. by apply elem_of_list_to_set.
        -- rewrite Hvis, (right_id_L ∅ (∪)), (comm_L (∪)). done.
  - split; [constructor|done].
Qed.

End PoolShape.

(* ===================================================================== *)
(** ** Whole runs of the two scripts *)
(* ===================================================================== *)

Lemma size_list_to_set_le `{Countable A} (l : list A) :
  size (list_to_set (C:=gset A) l) ≤ length l.
Proof.
  induction l as [|x l IH].
  { change (size (∅ : gset A) ≤ 0). by rewrite size_empty. }
  change (size ({[x]} ∪ list_to_set (C:=gset A) l) ≤ S (length l)).
  rewrite size_union_alt, size_singleton.
  assert (size (list_to_set (C:=gset A) l ∖ {[x]})
          ≤ size (list_to_set (C:=gset A) l)); [|lia].
  apply subseteq_size. intros y Hy. by apply elem_of_difference in Hy as [? _].
Qed.

Lemma elem_of_submitted t tr : EvDo (Submit t) ∈ tr → t ∈ submitted tr.
Proof. intros Hin. apply list_elem_of_omap. by exists (EvDo (Submit t)). Qed.

Lemma elem_of_events_of i e l : (i, e) ∈ l → e ∈ Pool.events_of i l.
Proof.
  intros Hin. apply list_elem_of_omap. exists (i, e). split; [done|].
  by rewrite bool_decide_eq_true_2.
Qed.

Section PoolRuns.

Context (env : oracle) (body : task → prog unit) (max_workers : Z).
Context (budget : nat).
Hypothesis body_well_claimed :
  ∀ t tr u, runs (body t) tr u →
            well_claimed t tr ∧ length (fetches tr) ≤ budget.
Context (root : task) (schedule : list nat).

Local Abbreviation w :=
  (Pool.run env body max_workers schedule (Pool.initial root)).

Lemma run_invariant : invariant body w.
Proof.
  apply (invariant_run env body max_workers budget body_well_claimed).
  apply invariant_initial.
Qed.

(** What a thread has done is the beginning of a run of its call. *)
Lemma thread_run i th :
  Pool.threads w !! i = Some th →
  ∃ tr, runs (body (Pool.thread_task th))
          (Pool.events_of i (Pool.log w) ++ tr) tt.
Proof.
  intros Hth.
  pose proof (inv_threads body w run_invariant i th Hth) as Hok.
  unfold thread_ok in Hok.
  destruct (Pool.state th) as [|p|].
  - rewrite Hok. simpl.
    pose proof (exec_runs env (body (Pool.thread_task th)) 0) as Hrun.
    destruct (exec env 0 (body (Pool.thread_task th))) as [tr []]. by exists tr.
  - pose proof (exec_runs env p 0) as Hrun.
    destruct (exec env 0 p) as [tr []]. exists tr. by apply Hok.
  - exists []. by rewrite app_nil_r.
Qed.

Lemma log_thread i e :
  (i, e) ∈ Pool.log w →
  ∃ th tr, Pool.threads w !! i = Some th
           ∧ runs (body (Pool.thread_task th)) tr tt ∧ e ∈ tr.
Proof.
  intros Hin.
  pose proof (inv_log_ids body w run_invariant i e Hin) as Hlt.
  apply lookup_lt_is_Some in Hlt as [th Hth].
  destruct (thread_run i th Hth) as [tr Hrun].
  exists th, (Pool.events_of i (Pool.log w) ++ tr). split; [done|].
  split; [done|]. apply elem_of_app. left. by apply elem_of_events_of.
Qed.

Lemma finished_children i th :
  (∀ t tr, runs (body t) tr tt → outstanding tr = false) →
  Pool.threads w !! i = Some th → Pool.state th = Pool.Finished →
  ∀ j th', Pool.threads w !! j = Some th' → Pool.parent th' = Some i →
           Pool.state th' = Pool.Finished.
Proof.
  intros Hjoin Hth Hst.
  apply (joined_run env body max_workers schedule root).
  apply Hjoin with (t := Pool.thread_task th).
  pose proof (inv_threads body w run_invariant i th Hth) as Hok.
  unfold thread_ok in Hok. by rewrite Hst in Hok.
Qed.

Lemma root_finished_all th :
  (∀ t tr, runs (body t) tr tt → outstanding tr = false) →
  Pool.threads w !! 0 = Some th → Pool.state th = Pool.Finished →
  Pool.finished w = true.
Proof.
  intros Hjoin Hth Hst.
  assert (Hall : ∀ j th', Pool.threads w !! j = Some th' →
            Pool.state th' = Pool.Finished).
  { intros j. induction (lt_wf j) as [j _ IH]. intros th' Hj.
    pose proof (tree_run env body max_workers root schedule j th' Hj) as Ht.
    destruct (Pool.parent th') as [i|] eqn:Hp.
    - destruct Ht as [Hlt _].
      assert (is_Some (Pool.threads w !! i)) as [thi Hi].
      { apply lookup_lt_is_Some. apply lookup_lt_Some in Hj. lia. }
      eapply (finished_children i thi); [done|done|by eapply IH|done..].
    - destruct Ht as [-> _]. by simplify_eq. }
  unfold Pool.finished. apply forallb_forall. intros th' Hin.
  apply list_elem_of_In, list_elem_of_lookup_1 in Hin as [j Hj].
  by rewrite (Hall j th' Hj).
Qed.

Lemma run_family urlparse (in_domain : string → bool) max_depth :
  (∀ t tr u t', runs (body t) tr u → t' ∈ submitted tr →
                child_of_call urlparse t t'
                ∧ (current_depth t ≤ max_depth)%Z
                ∧ in_domain (task_url t) = true) →
  family urlparse in_domain max_depth root w.
Proof.
  intros Hscope j th' Hj.
  pose proof (tree_run env body max_workers root schedule j th' Hj) as Ht.
  destruct (Pool.parent th') as [i|]; [|done].
  destruct Ht as [Hlt Hin]. split; [done|].
  assert (is_Some (Pool.threads w !! i)) as [th Hi].
  { apply lookup_lt_is_Some. apply lookup_lt_Some in Hj. lia. }
  exists th. split; [done|].
  destruct (thread_run i th Hi) as [tr Hrun].
  apply (Hscope _ _ _ _ Hrun), elem_of_submitted, elem_of_app. by left.
Qed.

Lemma run_loads_in_scope (in_domain : string → bool) max_depth :
  (∀ t tr u e v, runs (body t) tr u → e ∈ tr → is_load v e →
                 v = task_url t
                 ∧ (current_depth t ≤ max_depth)%Z
                 ∧ in_domain (task_url t) = true) →
  loads_in_scope in_domain max_depth w.
Proof.
  intros Hscope i e u Hin Hload.
  destruct (log_thread i e Hin) as (th & tr & Hth & Hrun & He).
  destruct (Hscope _ _ _ _ _ Hrun He Hload) as (-> & Hd & Hdom).
  split; [done|]. by exists th.
Qed.

End PoolRuns.

(** X8. However the threads of a crawl are scheduled and whatever the
    function they run, the output file has received exactly one write per
    record made, the text [{origin >> detail}] of that record, in the order
    the records were made (each write is one entry of [output_file]; it is
    one line of the file only if origin and detail hold no newline); the
    console shows the same text for each; and [broken_links] is the set of
    the recorded pairs.  So the number of broken links the summary reports
    never exceeds the number of entries written to the file, and every
    entry of the file is on the console. *)
Theorem X8_file_holds_every_record (env : oracle) (body : task → prog unit)
    (max_workers : Z) (root : task) (schedule : list nat) :
  let w := Pool.run env body max_workers schedule (Pool.initial root) in
  let recs := records (actions (Pool.log w)) in
  Pool.output_file w = map (λ '(o, d), Pool.broken_link_line o d) recs
  ∧ Pool.broken_links w = list_to_set recs
  ∧ Pool.console w = printed (actions (Pool.log w))
  ∧ size (Pool.broken_links w) ≤ length (Pool.output_file w)
  ∧ ∀ entry, entry ∈ Pool.output_file w → entry ∈ Pool.console w.
Proof.
  intros w recs.
  destruct (sink_run env body max_workers schedule root)
    as (Hfile & Hset & Hcon).
  fold w in Hfile, Hset, Hcon. fold recs in Hfile, Hset.
  split; [done|]. split; [done|]. split; [done|]. split.
  - rewrite Hfile, Hset, length_map. apply size_list_to_set_le.
  - intros line. rewrite Hfile, Hcon. intros Hin.
    apply list_elem_of_fmap in Hin as ([o d] & -> & Hin).
    apply list_elem_of_omap in Hin as (e & He & Heq).
    apply list_elem_of_omap. exists e. split; [done|].
    destruct e as [[]| | | | |]; try done. by simplify_eq/=.
Qed.

(** X14. However a crawl is scheduled, the visited set holds exactly the
    URLs whose check-and-insert succeeded, and no URL succeeded twice: the
    number [main] reports as URLs crawled is the number of successful
    claims in the log, whether or not the claimed URL was loaded
    afterwards. *)
Theorem X14_visited_counts_claims (env : oracle) (body : task → prog unit)
    (max_workers : Z) (root : task) (schedule : list nat) :
  let w := Pool.run env body max_workers schedule (Pool.initial root) in
  NoDup (claimed (actions (Pool.log w)))
  ∧ Pool.visited w = list_to_set (claimed (actions (Pool.log w)))
  ∧ size (Pool.visited w) = length (claimed (actions (Pool.log w))).
Proof.
  intros w.
  destruct (registry_run env body max_workers schedule root) as [Hnd Hvis].
  fold w in Hnd, Hvis. split; [done|]. split; [done|].
  rewrite Hvis. by apply size_list_to_set.
Qed.

(** X11. In either script, whatever the schedule and the answers of the
    network: when a call of [crawl_url] has returned, every call it
    submitted has returned; and when the call [main] makes has returned, no
    call is queued or running, so the sets the summary counts are final. *)
Theorem X11_return_waits_for_children
    (urlparse : string → result parsed_url)
    (urljoin : string → string → result string)
    (find_all_a_href : string → result (list string))
    (env : oracle) (target_domain : string)
    (max_workers max_depth : Z) (root : task) (schedule : list nat)
    (w : Pool.world) (i : nat) (th : Pool.thread) :
  w = Pool.run env
        (Http.crawl_url urlparse urljoin find_all_a_href target_domain
           max_workers max_depth)
        max_workers schedule (Pool.initial root)
  ∨ w = Pool.run env
          (Selenium.crawl_url urlparse urljoin max_workers max_depth)
          max_workers schedule (Pool.initial root) →
  Pool.threads w !! i = Some th →
  Pool.state th = Pool.Finished →
  (∀ j th', Pool.threads w !! j = Some th' → Pool.parent th' = Some i →
            Pool.state th' = Pool.Finished)
  ∧ (i = 0 → Pool.finished w = true).
Proof.
  intros [->| ->] Hth Hst.
  - split.
    + eapply finished_children; [| |done..].
      * intros t tr u. apply http_crawl_url_well_claimed.
      * intros t tr. apply http_crawl_url_joins.
    + intros ->. eapply root_finished_all; [| |done..].
      * intros t tr u. apply http_crawl_url_well_claimed.
      * intros t tr. apply http_crawl_url_joins.
  - split.
    + eapply finished_children; [| |done..].
      * intros t tr u. apply selenium_crawl_url_well_claimed.
      * intros t tr. apply selenium_crawl_url_joins.
    + intros ->. eapply root_finished_all; [| |done..].
      * intros t tr u. apply selenium_crawl_url_well_claimed.
      * intros t tr. apply selenium_crawl_url_joins.
Qed.

(** The crawl of a seed with two links to one page, run to its end. *)
Lemma X11_witness :
  let w := Pool.run (Example.site Example.twice_linked) Example.crawl_url
             Http.MAX_WORKERS Example.racing (Pool.initial Example.seed) in
  let th := Pool.MkThread None Example.seed Pool.Finished in
  (Pool.threads w !! 0 = Some th ∧ Pool.state th = Pool.Finished)
  ∧ length (Pool.threads w) = 3
  ∧ Pool.finished w = true.
Proof.
  intros w th.
  assert (Hth : Pool.threads w !! 0 = Some th) by (vm_compute; reflexivity).
  assert (Hst : Pool.state th = Pool.Finished) by reflexivity.
  split; [by split|]. split; [vm_compute; reflexivity|].
  exact (proj2 (X11_return_waits_for_children Example.urlparse
                  Example.urljoin Example.find_all_a_href
                  (Example.site Example.twice_linked) "ex.test"
                  Http.MAX_WORKERS 3 Example.seed Example.racing w 0 th
                  (or_introl eq_refl) Hth Hst) eq_refl).
Defined.

(** X12. In either script, whatever the schedule and the answers of the
    network, the calls of a crawl form a tree under the call [main] makes:
    every other call was submitted by an earlier call that was within the
    depth limit and had a URL of the target domain, it has that call's URL
    as origin, is one level deeper, and has a syntactically valid URL. *)
Theorem X12_calls_form_a_tree
    (urlparse : string → result parsed_url)
    (urljoin : string → string → result string)
    (find_all_a_href : string → result (list string))
    (env : oracle) (target_domain : string)
    (max_workers max_depth : Z) (root : task) (schedule : list nat) :
  family urlparse (λ u, Http.is_target_domain urlparse u target_domain)
    max_depth root
    (Pool.run env
       (Http.crawl_url urlparse urljoin find_all_a_href target_domain
          max_workers max_depth)
       max_workers schedule (Pool.initial root))
  ∧ family urlparse (Selenium.is_rbo_domain urlparse) max_depth root
      (Pool.run env
         (Selenium.crawl_url urlparse urljoin max_workers max_depth)
         max_workers schedule (Pool.initial root)).
Proof.
  split.
  - eapply run_family.
    + intros t tr u. apply http_crawl_url_well_claimed.
    + intros t tr u t'. apply http_submitted_in_scope.
  - eapply run_family.
    + intros t tr u. apply selenium_crawl_url_well_claimed.
    + intros t tr u t'. apply selenium_submitted_in_scope.
Qed.

(** X13. In either script, whatever the schedule and the answers of the
    network, every page load ([session.get] or [driver.get]) is the load
    of the URL of the call that makes it, that call is within the depth
    limit, and the URL is in the target domain: no URL outside the domain
    and no URL deeper than [max_depth] is ever requested. *)
Theorem X13_loads_stay_in_scope
    (urlparse : string → result parsed_url)
    (urljoin : string → string → result string)
    (find_all_a_href : string → result (list string))
    (env : oracle) (target_domain : string)
    (max_workers max_depth : Z) (root : task) (schedule : list nat) :
  loads_in_scope (λ u, Http.is_target_domain urlparse u target_domain)
    max_depth
    (Pool.run env
       (Http.crawl_url urlparse urljoin find_all_a_href target_domain
          max_workers max_depth)
       max_workers schedule (Pool.initial root))
  ∧ loads_in_scope (Selenium.is_rbo_domain urlparse) max_depth
      (Pool.run env
         (Selenium.crawl_url urlparse urljoin max_workers max_depth)
         max_workers schedule (Pool.initial root)).
Proof.
  split.
  - eapply run_loads_in_scope.
    + intros t tr u. apply http_crawl_url_well_claimed.
    + intros t tr u e v. apply http_load_in_scope.
  - eapply run_loads_in_scope.
    + intros t tr u. apply selenium_crawl_url_well_claimed.
    + intros t tr u e v. apply selenium_load_in_scope.
Qed.

(* ===================================================================== *)
(** ** The outcomes of a call on concrete pages *)
(* ===================================================================== *)

(** A connection that is refused on every attempt. *)
Lemma X3_witness :
  let t := MkTask "https://ex.test/b" (Some "https://ex.test/a") 2 in
  let refused := MkExn ExRequest "Connection refused" in
  let tr := (exec (Example.site (λ _, Raise refused)) 0
               (Example.crawl_url t)).1 in
  runs (Example.crawl_url t) tr tt
  ∧ last_get tr = Some (Raise refused)
  ∧ records tr = [("https://ex.test/a"%string,
                   "https://ex.test/b - Error: Connection refused"%string)]
  ∧ submitted tr = [] ∧ visited_checks tr = [].
Proof.
  intros t refused tr.
  assert (Hrun : runs (Example.crawl_url t) tr tt).
  { exact (exec_runs (Example.site (λ _, Raise refused))
             (Example.crawl_url t) 0). }
  assert (Hlast : last_get tr = Some (Raise refused))
    by (vm_compute; reflexivity).
  split; [exact Hrun|]. split; [exact Hlast|].
  exact (X3_transport_failure_recorded_once Example.urlparse Example.urljoin
           Example.find_all_a_href "ex.test" Http.MAX_WORKERS 3 t tr refused
           Hrun Hlast).
Defined.

(** A page answered with 204. *)
Lemma X4_witness :
  let t := MkTask "https://ex.test/b" (Some "https://ex.test/a") 2 in
  let empty := MkResponse 204 "No Content" "https://ex.test/b" "" in
  let tr := (exec (Example.site (λ _, Ok empty)) 0 (Example.crawl_url t)).1 in
  (runs (Example.crawl_url t) tr tt
   ∧ last_get tr = Some (Ok empty)
   ∧ status_code empty ≠ 200%Z ∧ (status_code empty < 400)%Z)
  ∧ records tr = [] ∧ submitted tr = [] ∧ visited_checks tr = [].
Proof.
  intros t empty tr.
  assert (Hrun : runs (Example.crawl_url t) tr tt).
  { exact (exec_runs (Example.site (λ _, Ok empty)) (Example.crawl_url t) 0). }
  assert (Hlast : last_get tr = Some (Ok empty)) by (vm_compute; reflexivity).
  assert (Hne : status_code empty ≠ 200%Z) by (simpl; lia).
  assert (Hlt : (status_code empty < 400)%Z) by (simpl; lia).
  split; [by repeat split|].
  exact (X4_other_statuses_are_dropped Example.urlparse Example.urljoin
           Example.find_all_a_href "ex.test" Http.MAX_WORKERS 3 t tr empty
           Hrun Hlast Hne Hlt).
Defined.

(** A page whose second anchor has an unbalanced bracket in its host, on
    which [urljoin] raises [ValueError]. *)
Lemma X5_witness :
  let home := MkResponse 200 "OK" "https://ex.test/"
                "javascript:void(0) http://[bad http://ex.test/a" in
  let bad := MkExn ExValueError "Invalid IPv6 URL" in
  let tr := (exec (Example.site (λ _, Ok home)) 0
               (Example.crawl_url Example.seed)).1 in
  (runs (Example.crawl_url Example.seed) tr tt
   ∧ last_get tr = Some (Ok home)
   ∧ Example.find_all_a_href (content home)
     = Ok (["javascript:void(0)"%string]
           ++ "http://[bad"%string :: ["http://ex.test/a"%string])
   ∧ Example.urljoin "https://ex.test/" "http://[bad" = Raise bad)
  ∧ records tr
    = [("https://ex.test/"%string, "Invalid URL: javascript:void(0)"%string);
       ("https://ex.test/"%string,
        "https://ex.test/ - Error: Invalid IPv6 URL"%string)]
  ∧ submitted tr = [] ∧ visited_checks tr = [].
Proof.
  intros home bad tr.
  assert (Hrun : runs (Example.crawl_url Example.seed) tr tt).
  { exact (exec_runs (Example.site (λ _, Ok home))
             (Example.crawl_url Example.seed) 0). }
  assert (Hlast : last_get tr = Some (Ok home)) by (vm_compute; reflexivity).
  assert (Hparse : Example.find_all_a_href (content home)
            = Ok (["javascript:void(0)"%string]
                  ++ "http://[bad"%string :: ["http://ex.test/a"%string]))
    by (vm_compute; reflexivity).
  assert (Hraise : Example.urljoin "https://ex.test/" "http://[bad"
                   = Raise bad) by (vm_compute; reflexivity).
  assert (Hres : Forall2
            (λ h a, Example.urljoin (task_url Example.seed) h = Ok a)
            (List.filter crawlable ["javascript:void(0)"%string])
            ["javascript:void(0)"%string]).
  { vm_compute List.filter. repeat constructor. }
  split; [by repeat split|].
  exact (X5_urljoin_error_abandons_page Example.urlparse Example.urljoin
           Example.find_all_a_href "ex.test" Http.MAX_WORKERS 3 Example.seed
           tr home ["javascript:void(0)"%string] ["http://ex.test/a"%string]
           ["javascript:void(0)"%string] "http://[bad" bad
           Hrun Hlast eq_refl Hparse Hres eq_refl Hraise).
Defined.

(** A rendered page with a [mailto:] anchor, an anchor without href, a
    link into the site, a stale anchor and a [javascript:] anchor. *)
Lemma X6_witness :
  let t := MkTask "https://www.rbo.org.uk/" None 0 in
  let links := [MkElement (Ok (Some "mailto:info@rbo.org.uk"%string));
                MkElement (Ok None);
                MkElement (Ok (Some "https://www.rbo.org.uk/whats-on"%string));
                MkElement (Raise (MkExn ExWebDriver "stale element"));
                MkElement (Ok (Some "javascript:void(0)"%string))] in
  let tr := (exec (Example.browser links) 0
               (Selenium.crawl_url Example.urlparse Example.urljoin 5 3 t)).1 in
  (runs (Selenium.crawl_url Example.urlparse Example.urljoin 5 3 t) tr tt
   ∧ head (found_links tr) = Some links)
  ∧ records tr
    = [("https://www.rbo.org.uk/"%string,
        "Invalid URL: javascript:void(0)"%string)]
  ∧ submitted tr
    = [MkTask "https://www.rbo.org.uk/whats-on"
         (Some "https://www.rbo.org.uk/"%string) 1].
Proof.
  intros t links tr.
  assert (Hrun : runs (Selenium.crawl_url Example.urlparse Example.urljoin
                         5 3 t) tr tt).
  { exact (exec_runs (Example.browser links)
             (Selenium.crawl_url Example.urlparse Example.urljoin 5 3 t) 0). }
  assert (Hfound : head (found_links tr) = Some links)
    by (vm_compute; reflexivity).
  split; [by split|].
  destruct (X6_rendered_page_is_expanded Example.urlparse Example.urljoin
              5 3 t tr links Hrun Hfound ltac:(lia)) as [Hrec _].
  split; [rewrite Hrec|]; vm_compute; reflexivity.
Defined.

(** A rendered page without anchors: one driver, one quit. *)
Lemma X9_witness :
  let t := MkTask "https://www.rbo.org.uk/" None 0 in
  let tr := (exec (Example.browser []) 0
               (Selenium.crawl_url Example.urlparse Example.urljoin 5 3 t)).1 in
  runs (Selenium.crawl_url Example.urlparse Example.urljoin 5 3 t) tr tt
  ∧ quit_calls tr = [tt] ∧ created_drivers tr = [tt].
Proof.
  intros t tr.
  assert (Hrun : runs (Selenium.crawl_url Example.urlparse Example.urljoin
                         5 3 t) tr tt).
  { exact (exec_runs (Example.browser [])
             (Selenium.crawl_url Example.urlparse Example.urljoin 5 3 t) 0). }
  split; [exact Hrun|].
  destruct (X9_driver_is_quit_once Example.urlparse Example.urljoin 5 3 t tr
              Hrun) as (Hq & _ & _).
  split; [rewrite Hq|]; vm_compute; reflexivity.
Defined.

(** A browser whose page load times out. *)
Lemma X10_witness :
  let t := MkTask "https://www.rbo.org.uk/slow"
             (Some "https://www.rbo.org.uk/"%string) 1 in
  let timeout := MkExn ExSeleniumTimeout "Message: timeout" in
  let stuck := MkOracle (λ _ _, true) (λ _ _, Raise timeout) (λ _, Ok tt)
                 (λ _ _, Raise timeout) (λ _, Ok []) in
  let tr := (exec stuck 0
               (Selenium.crawl_url Example.urlparse Example.urljoin 5 3 t)).1 in
  (runs (Selenium.crawl_url Example.urlparse Example.urljoin 5 3 t) tr tt
   ∧ head (driver_errors tr) = Some timeout)
  ∧ records tr
    = [("https://www.rbo.org.uk/"%string,
        "https://www.rbo.org.uk/slow - Error: Page load timeout"%string)]
  ∧ submitted tr = [].
Proof.
  intros t timeout stuck tr.
  assert (Hrun : runs (Selenium.crawl_url Example.urlparse Example.urljoin
                         5 3 t) tr tt).
  { exact (exec_runs stuck
             (Selenium.crawl_url Example.urlparse Example.urljoin 5 3 t) 0). }
  assert (Hfail : head (driver_errors tr) = Some timeout)
    by (vm_compute; reflexivity).
  split; [by split|].
  exact (X10_browser_failure_recorded_once Example.urlparse Example.urljoin
           5 3 t tr timeout Hrun Hfail).
Defined.
